(** * ClosedClaw TPC hardware probes: a shallow embedding and its properties

    The development follows the five probe scripts under
    [src/agents/clawtalk/tpc/probes/]: [send.py], [recv.py], [analyze.py],
    [sweep.py] and [decide.py].  Each script is a module below; the names
    of the Python functions are kept.

    Numbers.  Python [int] is [Z].  A Python [float] is a double: a finite
    one is the rational it denotes ([Q]), the IEEE specials are the other
    constructors of [pyfloat]; the sign of zero is not kept.  A float
    operation is the exact operation followed by one rounding to the
    nearest double ([Py.nearest]).  A float given on the command line or
    read from a report is the decimal as written: it is compared as it is
    and rounded where it enters an operation.  PCM samples and everything
    that goes through [sin], [cos] or [log10] live in [R], in exact
    arithmetic.  Bytes are integers in [0, 256).  An array is a list, of
    any length. *)

From Stdlib Require Import String Ascii.
From Stdlib Require Import ZArith QArith Qround Qabs Qminmax Qpower List Bool Lia Lqa.
From Stdlib Require Import Reals Lra.
From Stdlib Require Import DecimalString.
From Equations Require Import Equations.
From Equations.Prop Require Import Logic.
Import ListNotations.

(** ** Byte strings and the library calls the scripts make *)

Module Bytes.
Local Open Scope Z_scope.

(** A [bytes] value: integers in [0, 256). *)
Definition bytes : Type := list Z.

Definition is_byte (b : Z) : Prop := 0 <= b < 256.

(** A bytes literal such as [b"RIFF"]. *)
Definition of_string (s : string) : bytes :=
  map (fun c => Z.of_N (N_of_ascii c)) (list_ascii_of_string s).

(** [x.to_bytes(n, "big")], also [struct.pack(">H", x)] for [n = 2] once the
    range has been checked. *)
Fixpoint to_be (n : nat) (x : Z) : bytes :=
  match n with
  | O => []
  | S n' => to_be n' (Z.shiftr x 8) ++ [Z.land x 255]
  end.

(** [int.from_bytes(bs, "big")], also [struct.unpack(">H", bs)[0]]. *)
Definition from_be (bs : bytes) : Z :=
  fold_left (fun acc b => Z.lor (Z.shiftl acc 8) b) bs 0.

(** [int.from_bytes(bs, "little")], also [struct.unpack("<I", bs)[0]]. *)
Definition from_le (bs : bytes) : Z := from_be (rev bs).

(** The slice [bs[a:b]] for [0 <= a] and [0 <= b]. *)
Definition slice (bs : bytes) (a b : nat) : bytes := firstn (b - a) (skipn a bs).

Definition eqb (x y : bytes) : bool :=
  if list_eq_dec Z.eq_dec x y then true else false.

(** The first [count] consecutive groups of [size] bytes. *)
Fixpoint groups (size count : nat) (bs : bytes) : list bytes :=
  match count with
  | O => []
  | S c => firstn size bs :: groups size c (skipn size bs)
  end.

End Bytes.

(** [struct.pack("<I", x)] and [struct.pack("<H", x)] for [x] in range. *)
Definition to_le (n : nat) (x : Z) : Bytes.bytes := rev (Bytes.to_be n x).

(** [hashlib.sha256(msg).digest()], following FIPS 180-4. *)
Module Hashlib.
Import Bytes.
Local Open Scope Z_scope.

Definition mask32 (x : Z) : Z := Z.land x 4294967295.
Definition add32 (x y : Z) : Z := mask32 (x + y).
Definition rotr (x n : Z) : Z := Z.lor (Z.shiftr x n) (mask32 (Z.shiftl x (32 - n))).
Definition not32 (x : Z) : Z := Z.lxor x 4294967295.

Definition Ch (x y z : Z) : Z := Z.lxor (Z.land x y) (Z.land (not32 x) z).
Definition Maj (x y z : Z) : Z :=
  Z.lxor (Z.lxor (Z.land x y) (Z.land x z)) (Z.land y z).
Definition Sigma0 (x : Z) : Z := Z.lxor (Z.lxor (rotr x 2) (rotr x 13)) (rotr x 22).
Definition Sigma1 (x : Z) : Z := Z.lxor (Z.lxor (rotr x 6) (rotr x 11)) (rotr x 25).
Definition sigma0 (x : Z) : Z := Z.lxor (Z.lxor (rotr x 7) (rotr x 18)) (Z.shiftr x 3).
Definition sigma1 (x : Z) : Z := Z.lxor (Z.lxor (rotr x 17) (rotr x 19)) (Z.shiftr x 10).

(** Round constants: fractional parts of the cube roots of the first 64
    primes, 32 bits each. *)
Definition round_constants : list Z :=
  [
   1116352408; 1899447441; 3049323471; 3921009573; 961987163; 1508970993;
   2453635748; 2870763221; 3624381080; 310598401; 607225278; 1426881987;
   1925078388; 2162078206; 2614888103; 3248222580; 3835390401; 4022224774;
   264347078; 604807628; 770255983; 1249150122; 1555081692; 1996064986;
   2554220882; 2821834349; 2952996808; 3210313671; 3336571891; 3584528711;
   113926993; 338241895; 666307205; 773529912; 1294757372; 1396182291;
   1695183700; 1986661051; 2177026350; 2456956037; 2730485921; 2820302411;
   3259730800; 3345764771; 3516065817; 3600352804; 4094571909; 275423344;
   430227734; 506948616; 659060556; 883997877; 958139571; 1322822218;
   1537002063; 1747873779; 1955562222; 2024104815; 2227730452; 2361852424;
   2428436474; 2756734187; 3204031479; 3329325298 ].

(** Initial state: fractional parts of the square roots of the first 8
    primes. *)
Definition initial_state : list Z :=
  [ 1779033703; 3144134277; 1013904242; 2773480762; 1359893119; 2600822924; 528734635; 1541459225 ].

(** Message padding: a 1 bit, zeros up to 56 mod 64, the bit length on 8
    bytes. *)
Definition pad (msg : bytes) : bytes :=
  let len := Z.of_nat (length msg) in
  msg ++ [128] ++ repeat 0 (Z.to_nat ((55 - len) mod 64)) ++ to_be 8 (8 * len).

Definition block_words (block : bytes) : list Z := map from_be (groups 4 16 block).

(** The message schedule, grown from 16 to 64 words. *)
Fixpoint schedule (steps : nat) (w : list Z) : list Z :=
  match steps with
  | O => w
  | S s =>
      let t := length w in
      let at_ (k : nat) := nth (t - k) w 0 in
      schedule s (w ++ [add32 (add32 (add32 (sigma1 (at_ 2%nat)) (at_ 7%nat))
                                     (sigma0 (at_ 15%nat))) (at_ 16%nat)])
  end.

Definition round (st : list Z) (kw : Z * Z) : list Z :=
  match st with
  | [a; b; c; d; e; f; g; h] =>
      let t1 := add32 (add32 (add32 (add32 h (Sigma1 e)) (Ch e f g)) (fst kw)) (snd kw) in
      let t2 := add32 (Sigma0 a) (Maj a b c) in
      [add32 t1 t2; a; b; c; add32 d t1; e; f; g]
  | other => other
  end.

Definition compress (st : list Z) (block : bytes) : list Z :=
  let w := schedule 48 (block_words block) in
  let st' := fold_left round (combine round_constants w) st in
  map (fun p => add32 (fst p) (snd p)) (combine st st').

Definition sha256 (msg : bytes) : bytes :=
  let padded := pad msg in
  let blocks := groups 64 (length padded / 64) padded in
  flat_map (to_be 4) (fold_left compress blocks initial_state).

End Hashlib.


(** ** Exceptions

    A function that can raise returns a [result]; [main] of each script
    catches every exception and reports it. *)

Module Exn.

Inductive value_error : Type :=
| Not_a_WAV_file
| Unsupported_bits_per_sample (bits : Z)
| No_audio_data_found
| negative_dimensions
| buffer_size_not_a_multiple
| cannot_reshape
| invalid_number_of_data_points
| cannot_convert_float_NaN_to_integer.

Inductive exn : Type :=
| ValueError (what : value_error)
| struct_error
| ZeroDivisionError
| OverflowError
| IndexError.

Inductive result (A : Type) : Type :=
| Ok (a : A)
| Raise (e : exn).

Arguments Ok {A} a.
Arguments Raise {A} e.

Definition bind {A B : Type} (c : result A) (k : A -> result B) : result B :=
  match c with
  | Ok a => k a
  | Raise e => Raise e
  end.

End Exn.

Notation "x <- c ;; k" := (Exn.bind c (fun x => k))
  (at level 61, c at next level, right associativity).
Notation "' p <- c ;; k" := (Exn.bind c (fun x => let 'p := x in k))
  (at level 61, p pattern, c at next level, right associativity).

(** ** Python floats *)

Module Py.
Import Exn.

Inductive pyfloat : Type :=
| NaN
| NegInf
| Fin (q : Q)
| PosInf.

(** [a <= b] on floats; every comparison with [NaN] is false. *)
Definition leb (a b : pyfloat) : bool :=
  match a, b with
  | NaN, _ | _, NaN => false
  | NegInf, _ => true
  | _, PosInf => true
  | Fin x, Fin y => Qle_bool x y
  | Fin _, NegInf => false
  | PosInf, _ => false
  end.

Definition geb (a b : pyfloat) : bool := leb b a.

(** [a < b] on floats. *)
Definition ltb (a b : pyfloat) : bool :=
  match a, b with
  | NaN, _ | _, NaN => false
  | NegInf, NegInf => false
  | NegInf, _ => true
  | Fin x, Fin y => negb (Qle_bool y x)
  | Fin _, PosInf => true
  | Fin _, NegInf => false
  | PosInf, _ => false
  end.

(** The order the comparisons decide, as a proposition. *)
Definition le (a b : pyfloat) : Prop :=
  match a, b with
  | NaN, _ | _, NaN => False
  | NegInf, _ => True
  | _, PosInf => True
  | Fin x, Fin y => (x <= y)%Q
  | Fin _, NegInf => False
  | PosInf, _ => False
  end.

Definition ge (a b : pyfloat) : Prop := le b a.

(** The builtin [min(a, b)]: [b] replaces [a] only when [b < a]. *)
Definition min (a b : pyfloat) : pyfloat := if ltb b a then b else a.

(** Finite floats. *)

Definition Qltb (a b : Q) : bool := negb (Qle_bool b a).

(** The builtin [max(a, b)]: [b] replaces [a] only when [b > a]. *)
Definition builtin_max (a b : Q) : Q := if Qltb a b then b else a.

(** [int(x)]: truncation toward zero. *)
Definition int_of (x : Q) : Z := Z.quot (Qnum x) (Zpos (Qden x)).

(** Rounding to the nearest integer, ties to even. *)
Definition round_half_even (x : Q) : Z :=
  let f := Qfloor x in
  let r := (x - inject_Z f)%Q in
  if Qltb r (1 # 2) then f
  else if Qltb (1 # 2) r then (f + 1)%Z
  else if Z.even f then f else (f + 1)%Z.

(** The decimal with [ndigits] decimals nearest to [x], ties to even. *)
Definition round_digits (x : Q) (ndigits : nat) : Q :=
  let scale := (10 ^ Z.of_nat ndigits)%Z in
  (inject_Z (round_half_even (x * inject_Z scale)) / inject_Z scale)%Q.

(** *** Doubles

    [ilog2 q] is the binary exponent of [q <> 0]:
    [2 ^ ilog2 q <= |q| < 2 ^ (ilog2 q + 1)]. *)
Definition ilog2 (q : Q) : Z :=
  let n := Z.abs (Qnum q) in
  let d := Zpos (Qden q) in
  let k := (Z.log2 n - Z.log2 d)%Z in
  if (d * 2 ^ Z.log2 n <=? n * 2 ^ Z.log2 d)%Z then k else (k - 1)%Z.

(** The doubles around [q] are the multiples of [2 ^ ulp_exponent q]: 53
    significant bits, and no exponent below that of the subnormals. *)
Definition ulp_exponent (q : Q) : Z := Z.max (ilog2 q - 52) (-1074).

(** The double nearest to [q], ties to the even significand, before the
    upper end of the exponent range is looked at. *)
Definition nearest (q : Q) : Q :=
  if Qeq_bool q 0 then 0%Q
  else
    let e := ulp_exponent q in
    Qred (inject_Z (round_half_even (q / 2 ^ e)) * 2 ^ e)%Q.

(** [float(q)] for a decimal [q], and the rounding of every float
    operation: what rounds to [2 ^ 1024] or beyond is an infinity. *)
Definition binary64 (q : Q) : pyfloat :=
  let r := nearest q in
  if Qle_bool (2 ^ 1024) r then PosInf
  else if Qle_bool r (- 2 ^ 1024) then NegInf
  else Fin r.

(** The conversion of an [int] operand of a float operation; the result is
    finite. *)
Definition float_of_int (n : Z) : result Q :=
  match binary64 (inject_Z n) with
  | Fin r => Ok r
  | _ => Raise OverflowError
  end.

Definition infinity (positive : bool) : pyfloat := if positive then PosInf else NegInf.

(** [a * b] on floats. *)
Definition fmul (a b : pyfloat) : pyfloat :=
  match a, b with
  | NaN, _ | _, NaN => NaN
  | Fin x, Fin y => binary64 (x * y)
  | Fin x, PosInf | PosInf, Fin x =>
      if Qeq_bool x 0 then NaN else infinity (Qltb 0 x)
  | Fin x, NegInf | NegInf, Fin x =>
      if Qeq_bool x 0 then NaN else infinity (Qltb x 0)
  | PosInf, PosInf | NegInf, NegInf => PosInf
  | PosInf, NegInf | NegInf, PosInf => NegInf
  end.

(** [a + b] on floats. *)
Definition fadd (a b : pyfloat) : pyfloat :=
  match a, b with
  | NaN, _ | _, NaN => NaN
  | Fin x, Fin y => binary64 (x + y)
  | PosInf, NegInf | NegInf, PosInf => NaN
  | PosInf, _ | _, PosInf => PosInf
  | NegInf, _ | _, NegInf => NegInf
  end.

(** [a / b] on floats, for a finite divisor: a zero divisor raises. *)
Definition fdiv (a : pyfloat) (b : Q) : result pyfloat :=
  if Qeq_bool b 0 then Raise ZeroDivisionError
  else
    match a with
    | NaN => Ok NaN
    | Fin x => Ok (binary64 (x / b))
    | PosInf => Ok (infinity (Qltb 0 b))
    | NegInf => Ok (infinity (Qltb b 0))
    end.

(** [int(x)] on a float. *)
Definition int_of_float (x : pyfloat) : result Z :=
  match x with
  | NaN => Raise (ValueError cannot_convert_float_NaN_to_integer)
  | Fin q => Ok (int_of q)
  | _ => Raise OverflowError
  end.

(** [a / b] on integers: the quotient, rounded once; the result is
    finite. *)
Definition true_div (a b : Z) : result Q :=
  if (b =? 0)%Z then Raise ZeroDivisionError
  else match binary64 (inject_Z a / inject_Z b) with
       | Fin r => Ok r
       | _ => Raise OverflowError
       end.

(** [int(a / b)] on integers. *)
Definition int_div (a b : Z) : result Z :=
  x <- true_div a b ;; Ok (int_of x).

(** What dividing a float by the int [n] can raise: [n] is converted
    first, then tested. *)
Definition float_divisor (n : Z) : result Q :=
  d <- float_of_int n ;;
  if Qeq_bool d 0 then Raise ZeroDivisionError else Ok d.

(** [round(x, ndigits)] on a finite float: the decimal nearest to the
    double, then the double nearest to that decimal. *)
Definition round (x : Q) (ndigits : nat) : Q := nearest (round_digits x ndigits).

(** The truth value of an optional string argument: present and not
    empty. *)
Definition given (s : option string) : option string :=
  match s with
  | Some EmptyString => None
  | other => other
  end.

(** [x / c] for a float [x] given as a decimal and a positive double
    [c]. *)
Definition div_pos (x : pyfloat) (c : Q) : pyfloat :=
  match x with
  | Fin q =>
      match binary64 q with
      | Fin d => binary64 (d / c)
      | other => other
      end
  | other => other
  end.

End Py.

(** ** send.py: the WAV writer *)

Module WavWriter.
Import Bytes Exn.
Local Open Scope Z_scope.

(** [struct.pack("<I", v)] and [struct.pack("<H", v)]. *)
Definition pack_le (size : nat) (v : Z) : result bytes :=
  if (0 <=? v) && (v <? 2 ^ (8 * Z.of_nat size)) then Ok (to_le size v)
  else Raise struct_error.

(** [pcm.tobytes()] for an int16 array: two bytes per sample, low byte
    first, two's complement. *)
Definition tobytes (pcm : list Z) : bytes := flat_map (to_le 2) pcm.

(** What [write_wav] writes once [pcm], the samples converted to int16, is
    at hand: the 44-byte header and the samples. *)
Definition write_wav (pcm : list Z) (sample_rate : Z) : result bytes :=
  let data_size := Z.of_nat (length pcm) * 2 in
  riff_size <- pack_le 4 (36 + data_size) ;;
  fmt_size <- pack_le 4 16 ;;
  audio_format <- pack_le 2 1 ;;
  channels <- pack_le 2 1 ;;
  rate <- pack_le 4 sample_rate ;;
  byte_rate <- pack_le 4 (sample_rate * 2) ;;
  block_align <- pack_le 2 2 ;;
  bits <- pack_le 2 16 ;;
  size <- pack_le 4 data_size ;;
  Ok (of_string "RIFF" ++ riff_size ++ of_string "WAVE"
        ++ of_string "fmt " ++ fmt_size
        ++ audio_format ++ channels ++ rate ++ byte_rate ++ block_align ++ bits
        ++ of_string "data" ++ size ++ tobytes pcm).

Definition is_int16 (x : Z) : Prop := -32768 <= x <= 32767.

(** [(samples * 32767).astype(np.int16)] in exact arithmetic, for samples
    within [-1, 1]: the product, truncated toward zero. *)
Definition truncate (x : R) : Z :=
  if Rle_dec 0%R x then Int_part x else - Int_part (- x)%R.

Definition to_int16 (samples : list R) : list Z :=
  map (fun sample => truncate (sample * 32767)%R) samples.

End WavWriter.

(** ** send.py *)

Module Send.
Import Bytes Exn.
Local Open Scope Z_scope.

Definition CALIBRATION_MAGIC : bytes := [0xCA; 0x1B; 0xDA; 0x7A].
Definition CALIBRATION_PAYLOAD : bytes := of_string "TPC-CALIBRATE-2026".

(** [struct.pack(">H", x)] *)
Definition pack_be16 (x : Z) : result bytes :=
  if (0 <=? x) && (x <=? 65535) then Ok (to_be 2 x) else Raise struct_error.

Definition generate_calibration_packet (seq : Z) : result bytes :=
  seq_bytes <- pack_be16 seq ;;
  let digest := Hashlib.sha256 (CALIBRATION_MAGIC ++ seq_bytes ++ CALIBRATION_PAYLOAD) in
  let packet := CALIBRATION_MAGIC ++ seq_bytes ++ CALIBRATION_PAYLOAD ++ digest in
  length_bytes <- pack_be16 (Z.of_nat (length packet)) ;;
  Ok (length_bytes ++ packet).

(** [np.zeros(n)] *)
Definition np_zeros (n : Z) : result (list R) :=
  if n <? 0 then Raise (ValueError negative_dimensions)
  else Ok (repeat 0%R (Z.to_nat n)).

Definition amplitude : R := (6 / 10)%R.

Definition preamble : list Z := concat (repeat [1; 0] 16).

(** One byte on the wire: start bit, eight data bits MSB first, stop bit. *)
Definition frame_byte (byte : Z) : list Z :=
  [0] ++ map (fun b => Z.land (Z.shiftr byte b) 1) [7; 6; 5; 4; 3; 2; 1; 0] ++ [1].

Definition frame_bits (data : bytes) : list Z :=
  preamble ++ flat_map frame_byte data ++ repeat 1 16.

Section Modulator.
Variables (freq0 freq1 : Q) (sample_rate : Z).

Definition phase_inc (bit : Z) : R :=
  let freq := if bit =? 0 then freq0 else freq1 in
  (2 * PI * Q2R freq / IZR sample_rate)%R.

(** The inner loop: [s] samples of one bit, the phase carried along. *)
Fixpoint emit_samples (s : nat) (inc phase : R) : list R * R :=
  match s with
  | O => ([], phase)
  | S s' =>
      let (rest, phase') := emit_samples s' inc (phase + inc)%R in
      ((amplitude * sin phase)%R :: rest, phase')
  end.

(** The outer loop over the bits; the phase is threaded through. *)
Fixpoint emit_bits (samples_per_bit : nat) (bits : list Z) (phase : R) : list R :=
  match bits with
  | [] => []
  | bit :: rest =>
      let (chunk, phase') := emit_samples samples_per_bit (phase_inc bit) phase in
      chunk ++ emit_bits samples_per_bit rest phase'
  end.

(** [bits] is never empty, so the loop over it computes a phase increment,
    a float divided by the int [sample_rate], before any sample. *)
Definition modulate_afsk_ultrasonic (data : bytes) (baud_rate : Z) : result (list R) :=
  samples_per_bit <- Py.int_div sample_rate baud_rate ;;
  let bits := frame_bits data in
  let total_samples := Z.of_nat (length bits) * samples_per_bit in
  _ <- np_zeros total_samples ;;
  _ <- Py.float_divisor sample_rate ;;
  Ok (emit_bits (Z.to_nat samples_per_bit) bits 0%R).

End Modulator.

(** The command line. *)
Record args : Type := {
  freq0 : Q;
  freq1 : Q;
  baud : Z;
  sample_rate : Z;
  packets : Z;
  gap_ms : Q;
  output : option string
}.

(** What [main] finds outside: the sounddevice module if it is installed
    ([sd.play] followed by [sd.wait], with the message of the exception
    they end in, if any), and the message of the error when a file cannot
    be opened for writing. *)
Record world : Type := {
  sounddevice : option (list R -> Z -> option string);
  open_wb : string -> option string
}.

Inductive send_error : Type :=
| Sample_rate_too_low (sample_rate : Z) (max_freq : Q)
| sounddevice_not_installed
| Exception (e : exn)
| Exception_text (message : string).

(** What [main] prints. *)
Record report : Type := {
  success : bool;
  error : option send_error;
  packet_size_bytes : option Z;
  total_samples : option Z
}.

(** The call [main] makes with the batch, if any. *)
Inductive action : Type :=
| write_wav (path : string) (samples : list R) (sample_rate : Z)
| sd_play (samples : list R) (samplerate : Z).

(** The loop over [range(args.packets)]. *)
Fixpoint batch (a : args) (gap_samples : list R) (seqs : list Z)
    (all_samples : list R) (packet_sizes : list Z) : result (list R * list Z) :=
  match seqs with
  | [] => Ok (all_samples, packet_sizes)
  | seq :: rest =>
      packet <- generate_calibration_packet seq ;;
      modulated <- modulate_afsk_ultrasonic (freq0 a) (freq1 a) (sample_rate a)
                     packet (baud a) ;;
      batch a gap_samples rest (all_samples ++ modulated ++ gap_samples)
            (packet_sizes ++ [Z.of_nat (length packet)])
  end.

Definition range (n : Z) : list Z := map Z.of_nat (seq 0 (Z.to_nat n)).

(** [args.sample_rate * args.gap_ms / 1000] *)
Definition gap_quotient (a : args) : result Py.pyfloat :=
  rate <- Py.float_of_int (sample_rate a) ;;
  Py.fdiv (Py.fmul (Py.Fin rate) (Py.binary64 (gap_ms a))) 1000.

(** The size of [gap_samples]. *)
Definition gap_sample_count (a : args) : result Z :=
  x <- gap_quotient a ;; Py.int_of_float x.

(** [len(all_samples) / args.sample_rate]: the length of an array is below
    [2 ^ 63], so the quotient is finite whenever the rate is not zero. *)
Definition total_duration (all_samples : list R) (sample_rate : Z) : result Q :=
  if sample_rate =? 0 then Raise ZeroDivisionError
  else Ok (Py.nearest (inject_Z (Z.of_nat (length all_samples)) / inject_Z sample_rate)).

(** The body of the [try] block up to the point where the batch is ready:
    the gap, the loop, the total duration and the size of the first
    packet. *)
Definition build (a : args) : result (list R * Z) :=
  gap <- gap_sample_count a ;;
  gap_samples <- np_zeros gap ;;
  '(all_samples, packet_sizes) <- batch a gap_samples (range (packets a)) [] [] ;;
  _ <- total_duration all_samples (sample_rate a) ;;
  match packet_sizes with
  | [] => Raise IndexError
  | size0 :: _ => Ok (all_samples, size0)
  end.

(** What the call of [write_wav] ends in: the error of [open], or the
    exception of a [struct.pack] of the header. *)
Definition write_wav_raises (w : world) (path : string) (samples : list R)
    (sample_rate : Z) : option send_error :=
  match open_wb w path with
  | Some message => Some (Exception_text message)
  | None =>
      match WavWriter.write_wav (WavWriter.to_int16 samples) sample_rate with
      | Raise e => Some (Exception e)
      | Ok _ => None
      end
  end.

Definition main (a : args) (w : world) : report * option action :=
  let max_freq := Py.builtin_max (freq0 a) (freq1 a) in
  if Py.Qltb (inject_Z (sample_rate a)) (max_freq * 2) then
    ({| success := false;
        error := Some (Sample_rate_too_low (sample_rate a) max_freq);
        packet_size_bytes := None;
        total_samples := None |}, None)
  else
    match build a with
    | Raise e =>
        ({| success := false; error := Some (Exception e);
            packet_size_bytes := None; total_samples := None |}, None)
    | Ok (all_samples, size0) =>
        let sized (raised : option send_error) :=
          {| success := match raised with None => true | Some _ => false end;
             error := raised;
             packet_size_bytes := Some size0;
             total_samples := Some (Z.of_nat (length all_samples)) |} in
        match Py.given (output a) with
        | Some path =>
            (sized (write_wav_raises w path all_samples (sample_rate a)),
             Some (write_wav path all_samples (sample_rate a)))
        | None =>
            match sounddevice w with
            | Some play =>
                (sized (option_map Exception_text (play all_samples (sample_rate a))),
                 Some (sd_play all_samples (sample_rate a)))
            | None => (sized (Some sounddevice_not_installed), None)
            end
        end
    end.

(** *** Derived notions used to state the properties *)

(** The frame as the codec lays it out. *)
Definition frame_of (seq : Z) : bytes :=
  let seq_bytes := to_be 2 seq in
  to_be 2 56 ++ CALIBRATION_MAGIC ++ seq_bytes ++ CALIBRATION_PAYLOAD
    ++ Hashlib.sha256 (CALIBRATION_MAGIC ++ seq_bytes ++ CALIBRATION_PAYLOAD).

(** [int(sample_rate / baud_rate)], and 0 where the division raises. *)
Definition samples_per_bit (a : args) : Z :=
  match Py.int_div (sample_rate a) (baud a) with
  | Ok n => n
  | Raise _ => 0
  end.

(** The size of the gap, and 0 where its computation raises. *)
Definition gap_size (a : args) : Z :=
  match gap_sample_count a with
  | Ok n => n
  | Raise _ => 0
  end.

(** The samples of one packet of the batch. *)
Definition packet_samples (a : args) (seq : Z) : list R :=
  emit_bits (freq0 a) (freq1 a) (sample_rate a) (Z.to_nat (samples_per_bit a))
    (frame_bits (frame_of seq)) 0%R.

(** The batch [main] assembles: each packet followed by the gap. *)
Definition batch_samples (a : args) : list R :=
  concat (map (fun seq => packet_samples a seq
                            ++ repeat 0%R (Z.to_nat (gap_size a)))
              (range (packets a))).

(** What [main] hands to the sound device or to [write_wav]. *)
Definition emitted (r : report * option action) : option (list R) :=
  match snd r with
  | Some (write_wav _ samples _) => Some samples
  | Some (sd_play samples _) => Some samples
  | None => None
  end.

(** The batch has somewhere to go: a file is named, or the sound device
    is there. *)
Definition has_sink (a : args) (w : world) : Prop :=
  (exists path, output a = Some path /\ path <> ""%string) \/ sounddevice w <> None.

(** Sample command lines. *)
Definition args_32k : args :=
  {| freq0 := 18000; freq1 := 20000; baud := 150; sample_rate := 32000;
     packets := 10; gap_ms := 200; output := None |}.

Definition args_default : args :=
  {| freq0 := 18000; freq1 := 20000; baud := 150; sample_rate := 48000;
     packets := 10; gap_ms := 200; output := None |}.



(** A sound device that plays what it is given, and a file system that
    opens every file. *)
Definition quiet_world : world :=
  {| sounddevice := Some (fun _ _ => None); open_wb := fun _ => None |}.

End Send.

(** ** RIFF/WAVE files as the two readers walk them *)

Module Wav.
Import Bytes Exn.
Local Open Scope Z_scope.

(** [f.read(n)] on the unread part [f] of the file: what is read, what is
    left. *)
Definition read (n : nat) (f : bytes) : bytes * bytes := (firstn n f, skipn n f).

(** [struct.unpack("<I", bs)[0]] and [struct.unpack("<H", bs)[0]]: the
    buffer must have exactly the size of the format. *)
Definition unpack_le (size : nat) (bs : bytes) : result Z :=
  if (length bs =? size)%nat then Ok (from_le bs) else Raise struct_error.

Definition signed (width : Z) (v : Z) : Z :=
  if v <? 2 ^ (width - 1) then v else v - 2 ^ width.

(** [np.frombuffer(data, dtype)] for little-endian signed integers of
    [size] bytes. *)
Definition frombuffer (size : nat) (data : bytes) : result (list Z) :=
  if (length data mod size =? 0)%nat then
    Ok (map (fun g => signed (8 * Z.of_nat size) (from_le g))
            (groups size (length data / size) data))
  else Raise (ValueError buffer_size_not_a_multiple).

Section Chunks.
(** The readers differ in what they keep from a [fmt ] chunk. *)
Variable S : Type.
Variable on_fmt : bytes -> S -> result S.
Variable on_data : bytes -> S -> S.

Inductive chunk_step_result : Type :=
| chunk_break
| chunk_next (rest : bytes) (st : S).

(** One turn of the [while True] loop over the chunks. *)
Definition chunk_step (f : bytes) (st : S) : result chunk_step_result :=
  let (chunk_id, f1) := read 4 f in
  if (length chunk_id <? 4)%nat then Ok chunk_break
  else
    let (size_bytes, f2) := read 4 f1 in
    chunk_size <- unpack_le 4 size_bytes ;;
    let (chunk, f3) := read (Z.to_nat chunk_size) f2 in
    if eqb chunk_id (of_string "fmt ") then
      st' <- on_fmt chunk st ;;
      Ok (chunk_next f3 st')
    else if eqb chunk_id (of_string "data") then
      Ok (chunk_next f3 (on_data chunk st))
    else Ok (chunk_next f3 st).

Lemma chunk_step_consumes f st rest st' :
  chunk_step f st = Ok (chunk_next rest st') -> (length rest < length f)%nat.
Proof.
  unfold chunk_step, read.
  destruct (Nat.ltb_spec (length (firstn 4 f)) 4) as [Hlt | Hge]; [discriminate |].
  rewrite length_firstn in Hge.
  destruct (unpack_le 4 (firstn 4 (skipn 4 f))) as [chunk_size | e]; [| discriminate].
  cbn [bind].
  assert (L : (length (skipn (Z.to_nat chunk_size) (skipn 4 (skipn 4 f)))
               < length f)%nat) by (rewrite !length_skipn; lia).
  destruct (eqb (firstn 4 f) (of_string "fmt ")).
  - destruct (on_fmt _ st) as [s1 | e]; cbn [bind]; intro Eq; inversion Eq; subst.
    exact L.
  - destruct (eqb (firstn 4 f) (of_string "data")); intro Eq; inversion Eq; subst;
      exact L.
Qed.

Equations? chunk_loop (f : bytes) (st : S) : result S by wf (length f) lt :=
  chunk_loop f st with inspect (chunk_step f st) => {
    | exist _ (Raise e) _ => Raise e
    | exist _ (Ok chunk_break) _ => Ok st
    | exist _ (Ok (chunk_next rest st')) H => chunk_loop rest st' }.
Proof.
  apply chunk_step_consumes in H. exact H.
Qed.

End Chunks.

End Wav.

(** ** recv.py *)

Module Recv.
Import Bytes Exn.
Local Open Scope Z_scope.

Definition CALIBRATION_MAGIC : bytes := [0xCA; 0x1B; 0xDA; 0x7A].
Definition CALIBRATION_PAYLOAD : bytes := of_string "TPC-CALIBRATE-2026".

(** *** Demodulation *)

(** The Goertzel recurrence over one window. *)
Definition goertzel_state (coeff : R) (samples : list R) : R * R :=
  fold_left (fun (s : R * R) (sample : R) =>
               let (s1, s2) := s in ((sample + coeff * s1 - s2)%R, s1))
            samples (0%R, 0%R).

(** [int(0.5 + n * target_freq / sample_rate)] *)
Definition goertzel_bin (n : Z) (target_freq : Q) (sample_rate : Z) : result Z :=
  length_ <- Py.float_of_int n ;;
  rate <- Py.float_divisor sample_rate ;;
  x <- Py.fdiv (Py.fmul (Py.Fin length_) (Py.binary64 target_freq)) rate ;;
  Py.int_of_float (Py.fadd (Py.Fin 0.5) x).

(** The angle [w] is a float divided by the int [n], the length of the
    window. *)
Definition goertzel (samples : list R) (target_freq : Q) (sample_rate : Z) : result R :=
  let n := Z.of_nat (length samples) in
  k <- goertzel_bin n target_freq sample_rate ;;
  _ <- (if n =? 0 then Raise ZeroDivisionError else Ok tt) ;;
  let w := (2 * PI * IZR k / IZR n)%R in
  let coeff := (2 * cos w)%R in
  let (s1, s2) := goertzel_state coeff samples in
  let power := (s1 * s1 + s2 * s2 - coeff * s1 * s2)%R in
  Ok (power / (IZR n * IZR n))%R.

(** [samples[start:end]] on the sample array. *)
Definition window (samples : list R) (start stop : Z) : list R :=
  firstn (Z.to_nat (stop - start)) (skipn (Z.to_nat start) samples).

(** The first loop of [demodulate_afsk]: one bit per window. *)
Fixpoint slice_bits (samples : list R) (freq0 freq1 : Q) (sample_rate : Z)
    (samples_per_bit : Z) (indices : list Z) : result (list Z) :=
  match indices with
  | [] => Ok []
  | i :: rest =>
      let start := i * samples_per_bit in
      let stop := start + samples_per_bit in
      let chunk := window samples start stop in
      p0 <- goertzel chunk freq0 sample_rate ;;
      p1 <- goertzel chunk freq1 sample_rate ;;
      bits <- slice_bits samples freq0 freq1 sample_rate samples_per_bit rest ;;
      Ok ((if Rgt_dec p0 p1 then 0 else 1) :: bits)
  end.

(** One turn of the UART loop at cursor [i]. *)
Inductive uart_step_result : Type :=
| uart_break
| uart_next (i' : nat) (emitted : option Z).

Definition data_byte (bits : list Z) (i : nat) : Z :=
  fold_left (fun byte_val b => Z.lor (Z.shiftl byte_val 1) (nth (i + 1 + b) bits 0))
            (seq 0 8) 0.

Definition uart_step (bits : list Z) (i : nat) : uart_step_result :=
  if nth i bits 0 =? 0 then
    if (length bits <=? i + 9)%nat then uart_break
    else
      let byte_val := data_byte bits i in
      if nth (i + 9) bits 0 =? 1 then uart_next (i + 10) (Some byte_val)
      else uart_next (i + 1) None
  else uart_next (i + 1) None.

Definition emitted_list {A : Type} (o : option A) : list A :=
  match o with
  | Some x => [x]
  | None => []
  end.

Lemma uart_step_advances bits i i' e : uart_step bits i = uart_next i' e -> (i < i')%nat.
Proof.
  unfold uart_step.
  destruct (nth i bits 0 =? 0); [| intro H; inversion H; lia].
  destruct (length bits <=? i + 9)%nat; [discriminate |].
  destruct (nth (i + 9) bits 0 =? 1); intro H; inversion H; lia.
Qed.

(** The [while i < len(bits)] loop. *)
Equations? uart_loop (bits : list Z) (i : nat) (raw_bytes : bytes) : bytes
  by wf (length bits - i)%nat lt :=
  uart_loop bits i raw_bytes with lt_dec i (length bits) => {
    | right _ => raw_bytes
    | left _ with inspect (uart_step bits i) => {
        | exist _ uart_break _ => raw_bytes
        | exist _ (uart_next i' e) H => uart_loop bits i' (raw_bytes ++ emitted_list e) } }.
Proof.
  apply uart_step_advances in H. lia.
Qed.

Definition demodulate_afsk (samples : list R) (freq0 freq1 : Q)
    (sample_rate baud_rate : Z) : result bytes :=
  samples_per_bit <- Py.int_div sample_rate baud_rate ;;
  num_bits <- (if samples_per_bit =? 0 then Raise ZeroDivisionError
               else Ok (Z.of_nat (length samples) / samples_per_bit)) ;;
  bits <- slice_bits samples freq0 freq1 sample_rate samples_per_bit
            (map Z.of_nat (seq 0 (Z.to_nat num_bits))) ;;
  Ok (uart_loop bits 0 []).


(** *** Packet extraction *)

(** One entry of the list [extract_packets] returns. *)
Record packet : Type := {
  seq : Z;
  valid_hash : bool;
  payload_match : bool;
  intact : bool
}.

Fixpoint starts_with (sub l : bytes) : bool :=
  match sub, l with
  | [], _ => true
  | _ :: _, [] => false
  | s :: sub', x :: l' => (s =? x) && starts_with sub' l'
  end.

Fixpoint find_from (sub l : bytes) (pos : nat) : option nat :=
  if starts_with sub l then Some pos
  else match l with
       | [] => None
       | _ :: l' => find_from sub l' (S pos)
       end.

(** [raw.find(sub, start)]; [None] stands for -1. *)
Definition find (raw sub : bytes) (start : nat) : option nat :=
  if (length raw <? start)%nat then None else find_from sub (skipn start raw) start.

(** One turn of the scan loop at cursor [i]. *)
Inductive scan_step_result : Type :=
| scan_break
| scan_next (i' : nat) (found : option packet).

Definition scan_step (raw_data : bytes) (i : nat) : scan_step_result :=
  match find raw_data CALIBRATION_MAGIC i with
  | None => scan_break
  | Some magic_idx =>
      if (magic_idx <? 2)%nat then scan_next (magic_idx + 1) None
      else
        let length_ := from_be (slice raw_data (magic_idx - 2) magic_idx) in
        let packet_start := (magic_idx - 2)%nat in
        let packet_end := (packet_start + 2 + Z.to_nat length_)%nat in
        if (length raw_data <? packet_end)%nat then scan_next (magic_idx + 1) None
        else
          let packet_body := slice raw_data (packet_start + 2) packet_end in
          if (length packet_body <? 56)%nat then scan_next (magic_idx + 1) None
          else
            let magic := slice packet_body 0 4 in
            let seq_ := from_be (slice packet_body 4 6) in
            let payload := slice packet_body 6 24 in
            let received_hash := slice packet_body 24 56 in
            let expected_hash :=
              Hashlib.sha256 (magic ++ slice packet_body 4 6 ++ payload) in
            let valid := eqb received_hash expected_hash in
            let payload_match_ := eqb payload CALIBRATION_PAYLOAD in
            scan_next packet_end
              (Some {| seq := seq_; valid_hash := valid;
                       payload_match := payload_match_;
                       intact := valid && payload_match_ |})
  end.

Lemma starts_with_length sub l :
  starts_with sub l = true -> (length sub <= length l)%nat.
Proof.
  revert l. induction sub as [| s sub IH]; intros [| x l]; simpl;
    try lia; try discriminate.
  intro H. apply andb_true_iff in H. destruct H as [_ H].
  apply IH in H. lia.
Qed.

Lemma find_from_bounds sub l pos m :
  find_from sub l pos = Some m ->
  (pos <= m /\ m + length sub <= pos + length l)%nat.
Proof.
  revert pos. induction l as [| x l IH]; intros pos; simpl.
  - destruct (starts_with sub []) eqn:E; [| discriminate].
    intro H. inversion H; subst. apply starts_with_length in E. simpl in E. lia.
  - destruct (starts_with sub (x :: l)) eqn:E.
    + intro H. inversion H; subst. apply starts_with_length in E. simpl in E. lia.
    + intro H. apply IH in H. lia.
Qed.

Lemma find_bounds raw sub start m :
  find raw sub start = Some m ->
  (start <= m /\ m + length sub <= length raw)%nat.
Proof.
  unfold find. destruct (Nat.ltb_spec (length raw) start); [discriminate |].
  intro Hf. apply find_from_bounds in Hf. rewrite length_skipn in Hf. lia.
Qed.

Lemma length_slice bs a b : (length (slice bs a b) <= b - a)%nat.
Proof. unfold slice. rewrite length_firstn. lia. Qed.

(** A turn that does not leave the loop moves the cursor forward, and not
    beyond the end of the data. *)
Lemma scan_step_advances raw_data i i' found :
  scan_step raw_data i = scan_next i' found ->
  (i < i' <= length raw_data)%nat.
Proof.
  unfold scan_step.
  destruct (find raw_data CALIBRATION_MAGIC i) as [magic_idx |] eqn:Hf;
    [| discriminate].
  apply find_bounds in Hf. change (length CALIBRATION_MAGIC) with 4%nat in Hf.
  destruct (Nat.ltb_spec magic_idx 2); [intro Eq; inversion Eq; lia |].
  match goal with |- context [(length raw_data <? ?e)%nat] =>
    destruct (Nat.ltb_spec (length raw_data) e) as [Hlt | Hge] end;
    [intro Eq; inversion Eq; lia |].
  match goal with |- context [(length ?b <? 56)%nat] =>
    pose proof (length_slice raw_data (magic_idx - 2 + 2)
                  (magic_idx - 2 + 2 + Z.to_nat
                     (from_be (slice raw_data (magic_idx - 2) magic_idx)))) as Hb;
    destruct (Nat.ltb_spec (length b) 56) as [Hs | Hl] end;
    intro Eq; inversion Eq; subst; lia.
Qed.

(** The [while i < len(raw_data) - 2] loop. *)
Equations? scan_loop (raw_data : bytes) (i : nat) (packets : list packet) : list packet
  by wf (length raw_data - i)%nat lt :=
  scan_loop raw_data i packets
    with Z_lt_dec (Z.of_nat i) (Z.of_nat (length raw_data) - 2) => {
    | right _ => packets
    | left _ with inspect (scan_step raw_data i) => {
        | exist _ scan_break _ => packets
        | exist _ (scan_next i' found) H =>
            scan_loop raw_data i' (packets ++ emitted_list found) } }.
Proof.
  apply scan_step_advances in H. lia.
Qed.

Definition extract_packets (raw_data : bytes) : list packet := scan_loop raw_data 0 [].


(** *** Reading a recording *)

Record wav_state : Type := {
  ws_sample_rate : Z;
  ws_bits_per_sample : Z;
  ws_data : bytes
}.

Definition on_fmt (fmt_data : bytes) (st : wav_state) : result wav_state :=
  sample_rate <- Wav.unpack_le 4 (slice fmt_data 4 8) ;;
  bits_per_sample <- Wav.unpack_le 2 (slice fmt_data 14 16) ;;
  Ok {| ws_sample_rate := sample_rate;
        ws_bits_per_sample := bits_per_sample;
        ws_data := ws_data st |}.

Definition on_data (data : bytes) (st : wav_state) : wav_state :=
  {| ws_sample_rate := ws_sample_rate st;
     ws_bits_per_sample := ws_bits_per_sample st;
     ws_data := data |}.

(** [read_wav], on the content of the file. *)
Definition read_wav (content : bytes) : result (list Q * Z) :=
  let (riff, f1) := Wav.read 4 content in
  if negb (eqb riff (of_string "RIFF")) then Raise (ValueError Not_a_WAV_file)
  else
    let (_, f2) := Wav.read 4 f1 in
    let (_, f3) := Wav.read 4 f2 in
    st <- Wav.chunk_loop wav_state on_fmt on_data f3
            {| ws_sample_rate := 48000; ws_bits_per_sample := 16; ws_data := [] |} ;;
    if ws_bits_per_sample st =? 16 then
      ints <- Wav.frombuffer 2 (ws_data st) ;;
      Ok (map (fun x => (inject_Z x / 32768)%Q) ints, ws_sample_rate st)
    else Raise (ValueError (Unsupported_bits_per_sample (ws_bits_per_sample st))).

(** *** The report *)

Inductive quality_label : Type := excellent | good | marginal | poor.

Record summary : Type := {
  packets_found : Z;
  packets_intact : Z;
  packets_corrupted : Z;
  packet_details : list packet;
  packets_lost : Z;
  per : Q;
  per_percent : Q;
  quality : quality_label
}.

(** [sum(1 for p in packets if c(p))] *)
Definition count (c : packet -> bool) (packets : list packet) : Z :=
  Z.of_nat (length (filter c packets)).

(** [total_errors / max(total_expected, 1)], a quotient of integers: the
    double nearest to it.  The errors are at most the packets expected and
    found together, so the quotient is far from the end of the range. *)
Definition error_ratio (total_errors total_expected : Z) : Q :=
  Py.nearest (inject_Z total_errors / inject_Z (Z.max total_expected 1)).

(** The statistics [main] derives from the extracted packets. *)
Definition summarize (packets : list packet) (total_expected : Z) : summary :=
  let lost := Z.max 0 (total_expected - Z.of_nat (length packets)) in
  let corrupted := count (fun p => negb (intact p)) packets in
  let total_errors := lost + corrupted in
  let per_ := Py.round (error_ratio total_errors total_expected) 4 in
  {| packets_found := Z.of_nat (length packets);
     packets_intact := count intact packets;
     packets_corrupted := count (fun p => negb (intact p)) packets;
     packet_details := packets;
     packets_lost := lost;
     per := per_;
     per_percent := Py.round (error_ratio (100 * total_errors) total_expected) 2;
     quality :=
       if Qeq_bool per_ 0 then excellent
       else if Py.Qltb per_ (Py.nearest 0.1) then good
       else if Py.Qltb per_ (Py.nearest 0.3) then marginal
       else poor |}.

(** The command line. *)
Record args : Type := {
  freq0 : Q;
  freq1 : Q;
  baud : Z;
  sample_rate : Z;
  duration : Q;
  expected : Z;
  input : option string
}.

(** What [main] finds outside: the files, and the sound device if the
    sounddevice module is installed ([sd.rec] of that many frames at that
    rate followed by [sd.wait]: the message of the exception they end in,
    or the recording). *)
Record world : Type := {
  open_rb : string -> option bytes;
  sd_rec : option (Z -> Z -> string + list R)
}.

Inductive recv_error : Type :=
| sounddevice_not_installed
| FileNotFoundError
| Exception (e : exn)
| Exception_text (message : string).

Inductive report : Type :=
| failed (error : recv_error)
| succeeded (source : option string) (sample_rate : Z)
            (demodulated_bytes : Z) (s : summary).

(** The part of [main] after the samples have been obtained. *)
Definition analyze_samples (a : args) (source : option string)
    (samples : list R) (sample_rate : Z) : report :=
  match demodulate_afsk samples (freq0 a) (freq1 a) sample_rate (baud a) with
  | Raise e => failed (Exception e)
  | Ok raw_data =>
      succeeded source sample_rate (Z.of_nat (length raw_data))
                (summarize (extract_packets raw_data) (expected a))
  end.

(** [int(args.duration * args.sample_rate)] *)
Definition frame_count (a : args) : result Z :=
  rate <- Py.float_of_int (sample_rate a) ;;
  Py.int_of_float (Py.fmul (Py.binary64 (duration a)) (Py.Fin rate)).

Definition main (a : args) (w : world) : report :=
  match Py.given (input a) with
  | Some path =>
      match open_rb w path with
      | None => failed FileNotFoundError
      | Some content =>
          match read_wav content with
          | Raise e => failed (Exception e)
          | Ok (samples, sample_rate) =>
              analyze_samples a (Some path) (map Q2R samples) sample_rate
          end
      end
  | None =>
      match sd_rec w with
      | Some rec =>
          match frame_count a with
          | Raise e => failed (Exception e)
          | Ok frames =>
              match rec frames (sample_rate a) with
              | inl message => failed (Exception_text message)
              | inr recording => analyze_samples a None recording (sample_rate a)
              end
          end
      | None => failed sounddevice_not_installed
      end
  end.

End Recv.

(** ** The numpy calls of the spectral code, over the reals *)

Module Np.
Import Exn.
Local Open Scope R_scope.

Definition rsum (l : list R) : R := fold_right Rplus 0 l.

(** [np.mean] *)
Definition mean (l : list R) : R := rsum l / INR (length l).

(** Real and imaginary part of bin [k] of the discrete Fourier transform. *)
Definition dft_re (x : list R) (k : nat) : R :=
  rsum (map (fun p : nat * R =>
               snd p * cos (2 * PI * INR (fst p) * INR k / INR (length x)))
            (combine (seq 0 (length x)) x)).

Definition dft_im (x : list R) (k : nat) : R :=
  - rsum (map (fun p : nat * R =>
                 snd p * sin (2 * PI * INR (fst p) * INR k / INR (length x)))
              (combine (seq 0 (length x)) x)).

(** [np.abs(np.fft.rfft(x))]: the moduli of bins [0 .. n/2]. *)
Definition abs_rfft (x : list R) : result (list R) :=
  if (length x =? 0)%nat then Raise (ValueError invalid_number_of_data_points)
  else Ok (map (fun k => sqrt (dft_re x k * dft_re x k + dft_im x k * dft_im x k))
               (seq 0 (length x / 2 + 1))).

(** [np.fft.rfftfreq(n, d)] *)
Definition rfftfreq (n : nat) (d : R) : list R :=
  map (fun k => INR k / (INR n * d)) (seq 0 (n / 2 + 1)).

(** A value in decibels; the logarithm of zero is minus infinity. *)
Inductive db : Type :=
| minus_infinity
| finite (v : R).

(** [10 * np.log10(x)] for [x >= 0]. *)
Definition ten_log10 (x : R) : db :=
  if Rle_dec x 0 then minus_infinity else finite (10 * (ln x / ln 10)).

Definition Rleb (x y : R) : bool := if Rle_dec x y then true else false.
Definition Rltb (x y : R) : bool := if Rlt_dec x y then true else false.

(** [values[mask]] for a mask computed from the frequencies. *)
Definition select (mask : R -> bool) (freqs values : list R) : list R :=
  map snd (filter (fun p : R * R => mask (fst p)) (combine freqs values)).

(** [float(np.mean(values[mask])) if np.any(mask) else default] *)
Definition masked_mean (mask : R -> bool) (freqs values : list R) (default : R) : R :=
  match select mask freqs values with
  | [] => default
  | selected => mean selected
  end.

End Np.

(** What both spectral computations produce, before the report rounds it. *)
Record band_powers : Type := {
  signal_power : R;
  noise_power : R;
  snr_db : Np.db
}.

(** ** analyze.py *)

Module Analyze.
Import Bytes Exn.
Local Open Scope Z_scope.

Record wav_state : Type := {
  ws_sample_rate : Z;
  ws_channels : Z;
  ws_bits_per_sample : Z;
  ws_data : bytes
}.

Definition on_fmt (fmt_data : bytes) (st : wav_state) : result wav_state :=
  audio_format <- Wav.unpack_le 2 (slice fmt_data 0 2) ;;
  channels <- Wav.unpack_le 2 (slice fmt_data 2 4) ;;
  sample_rate <- Wav.unpack_le 4 (slice fmt_data 4 8) ;;
  bits_per_sample <- Wav.unpack_le 2 (slice fmt_data 14 16) ;;
  Ok {| ws_sample_rate := sample_rate;
        ws_channels := channels;
        ws_bits_per_sample := bits_per_sample;
        ws_data := ws_data st |}.

Definition on_data (data : bytes) (st : wav_state) : wav_state :=
  {| ws_sample_rate := ws_sample_rate st;
     ws_channels := ws_channels st;
     ws_bits_per_sample := ws_bits_per_sample st;
     ws_data := data |}.

(** [astype(np.float32)] on a 32-bit integer: 24 significant bits, to the
    nearest, ties to even. *)
Definition to_float32 (x : Z) : Z :=
  let m := Z.abs x in
  if m <? 2 ^ 24 then x
  else
    let e := Z.log2 m - 23 in
    let q := m / 2 ^ e in
    let r := m mod 2 ^ e in
    let half := 2 ^ (e - 1) in
    let q' := if r <? half then q
              else if half <? r then q + 1
              else if Z.even q then q else q + 1 in
    Z.sgn x * q' * 2 ^ e.

(** [samples.reshape(-1, channels)[:, 0]] *)
Fixpoint first_column (channels rows : nat) (samples : list Q) : list Q :=
  match rows with
  | O => []
  | S r => hd 0%Q samples :: first_column channels r (skipn channels samples)
  end.

Definition first_channel (channels : Z) (samples : list Q) : result (list Q) :=
  if Z.of_nat (length samples) mod channels =? 0 then
    Ok (first_column (Z.to_nat channels)
          (Z.to_nat (Z.of_nat (length samples) / channels)) samples)
  else Raise (ValueError cannot_reshape).

(** [read_wav], on the content of the file. *)
Definition read_wav (content : bytes) : result (list Q * Z * Z) :=
  let (riff, f1) := Wav.read 4 content in
  if negb (eqb riff (of_string "RIFF")) then Raise (ValueError Not_a_WAV_file)
  else
    let (_, f2) := Wav.read 4 f1 in
    let (wave, f3) := Wav.read 4 f2 in
    if negb (eqb wave (of_string "WAVE")) then Raise (ValueError Not_a_WAV_file)
    else
      st <- Wav.chunk_loop wav_state on_fmt on_data f3
              {| ws_sample_rate := 44100; ws_channels := 1;
                 ws_bits_per_sample := 16; ws_data := [] |} ;;
      match ws_data st with
      | [] => Raise (ValueError No_audio_data_found)
      | _ :: _ =>
          samples <-
            (if ws_bits_per_sample st =? 16 then
               ints <- Wav.frombuffer 2 (ws_data st) ;;
               Ok (map (fun x => (inject_Z x / 32768)%Q) ints)
             else if ws_bits_per_sample st =? 32 then
               ints <- Wav.frombuffer 4 (ws_data st) ;;
               Ok (map (fun x => (inject_Z (to_float32 x) / 2147483648)%Q) ints)
             else
               Raise (ValueError (Unsupported_bits_per_sample
                                    (ws_bits_per_sample st)))) ;;
          samples' <- (if 1 <? ws_channels st
                       then first_channel (ws_channels st) samples
                       else Ok samples) ;;
          Ok (samples', ws_sample_rate st, ws_channels st)
      end.

(** The band powers and the SNR [analyze_spectrum] computes, and what the
    computation raises; the dictionary it returns holds these values
    rounded to 10, 10 and 2 decimals.  [1.0 / sample_rate] is why a zero
    rate raises. *)
Definition analyze_spectrum (samples : list R) (sample_rate : Z)
    (band_start band_end noise_band_start noise_band_end : Q) : result band_powers :=
  let n := length samples in
  magnitudes <- Np.abs_rfft samples ;;
  _ <- Py.float_divisor sample_rate ;;
  let fft_freqs := Np.rfftfreq n (1 / IZR sample_rate)%R in
  let fft_power := map (fun m => (m / INR n) * (m / INR n))%R magnitudes in
  let signal_mask f := Np.Rleb (Q2R band_start) f && Np.Rleb f (Q2R band_end) in
  let noise_mask f :=
    Np.Rleb (Q2R noise_band_start) f && Np.Rleb f (Q2R noise_band_end) in
  let signal := Np.masked_mean signal_mask fft_freqs fft_power 0%R in
  let noise := Np.masked_mean noise_mask fft_freqs fft_power (1 / 10 ^ 10)%R in
  Ok {| signal_power := signal;
        noise_power := noise;
        snr_db := Np.ten_log10 (signal / Rmax noise (1 / 10 ^ 10))%R |}.

(** The default noise band of [analyze_spectrum]. *)
Definition default_noise_band : Q * Q := (100, 15000)%Q.

End Analyze.

(** ** sweep.py *)

Module Sweep.
Import Exn.

(** The band powers and the SNR [run_sweep] computes from the recording;
    the report holds these rounded to 6, 6 and 2 decimals. *)
Definition recording_spectrum (recording : list R) (start_freq end_freq : Q)
    (sample_rate : Z) : result band_powers :=
  magnitudes <- Np.abs_rfft recording ;;
  _ <- Py.float_divisor sample_rate ;;
  let fft_freqs := Np.rfftfreq (length recording) (1 / IZR sample_rate)%R in
  let fft_power := map (fun m => m * m)%R magnitudes in
  let signal_mask f := Np.Rleb (Q2R start_freq) f && Np.Rleb f (Q2R end_freq) in
  let noise_mask f := Np.Rltb 100%R f && Np.Rltb f (Q2R start_freq * (8 / 10))%R in
  let signal := Np.masked_mean signal_mask fft_freqs fft_power 0%R in
  let noise := Np.masked_mean noise_mask fft_freqs fft_power (1 / 10 ^ 10)%R in
  Ok {| signal_power := signal;
        noise_power := noise;
        snr_db := Np.ten_log10 (signal / Rmax noise (1 / 10 ^ 10))%R |}.

(** The analyzer run on the band of the sweep with the noise band the
    specification gives the sweep: (100 Hz, 0.8 * band start). *)
Definition analyzer_on_sweep_band (recording : list R) (start_freq end_freq : Q)
    (sample_rate : Z) : result band_powers :=
  Analyze.analyze_spectrum recording sample_rate start_freq end_freq
    100 (0.8 * start_freq).

End Sweep.

(** ** decide.py *)

Module Decide.
Import Py.

Definition ULTRASONIC_SNR_THRESHOLD : pyfloat := Fin 20.
Definition ULTRASONIC_PER_THRESHOLD : pyfloat := Fin 0.05.
Definition AUDIBLE_SNR_THRESHOLD : pyfloat := Fin 10.
Definition AUDIBLE_PER_THRESHOLD : pyfloat := Fin 0.20.

Definition ULTRASONIC_FREQ0 : Z := 18000.
Definition ULTRASONIC_FREQ1 : Z := 20000.
Definition AUDIBLE_FREQ0 : Z := 1200.
Definition AUDIBLE_FREQ1 : Z := 2400.

Inductive mode : Type := ultrasonic | audible | file.

(** The [reason] entry is an f-string; it is kept as the template chosen
    together with the two observed values it formats. *)
Inductive reason_text : Type :=
| Excellent_ultrasonic_channel (snr_db per : pyfloat)
| Audible_fallback (snr_db per : pyfloat)
| File_mode_no_audio (snr_db per : pyfloat).

(** The dictionary [decide_mode] returns; [None] is Python's [None]. *)
Record decision : Type := {
  d_mode : mode;
  freq0_hz : option Z;
  freq1_hz : option Z;
  baud_rate : option Z;
  reason : reason_text;
  confidence : pyfloat
}.

Definition decide_mode (snr_db per : pyfloat) : decision :=
  if geb snr_db ULTRASONIC_SNR_THRESHOLD && leb per ULTRASONIC_PER_THRESHOLD then
    {| d_mode := ultrasonic;
       freq0_hz := Some ULTRASONIC_FREQ0;
       freq1_hz := Some ULTRASONIC_FREQ1;
       baud_rate := Some 150%Z;
       reason := Excellent_ultrasonic_channel snr_db per;
       confidence := min (Fin 1) (div_pos snr_db 40) |}
  else if geb snr_db AUDIBLE_SNR_THRESHOLD && leb per AUDIBLE_PER_THRESHOLD then
    {| d_mode := audible;
       freq0_hz := Some AUDIBLE_FREQ0;
       freq1_hz := Some AUDIBLE_FREQ1;
       baud_rate := Some 300%Z;
       reason := Audible_fallback snr_db per;
       confidence := min (Fin 1) (div_pos snr_db 30) |}
  else
    {| d_mode := file;
       freq0_hz := None;
       freq1_hz := None;
       baud_rate := None;
       reason := File_mode_no_audio snr_db per;
       confidence := Fin 1 |}.

(** The ladder order on modes: file < audible < ultrasonic. *)
Definition rank (m : mode) : nat :=
  match m with
  | file => 0
  | audible => 1
  | ultrasonic => 2
  end.

Definition mode_le (m1 m2 : mode) : Prop := (rank m1 <= rank m2)%nat.

End Decide.

(** ** Notions and sample inputs used to state the properties *)

(** A finite run of the scan loop from cursor [i] with [packets] collected
    so far. *)
Inductive scan_run (raw_data : Bytes.bytes) :
    nat -> list Recv.packet -> list Recv.packet -> Prop :=
| scan_run_end i packets :
    ~ (Z.of_nat i < Z.of_nat (length raw_data) - 2)%Z ->
    scan_run raw_data i packets packets
| scan_run_break i packets :
    (Z.of_nat i < Z.of_nat (length raw_data) - 2)%Z ->
    Recv.scan_step raw_data i = Recv.scan_break ->
    scan_run raw_data i packets packets
| scan_run_next i i' found packets result :
    (Z.of_nat i < Z.of_nat (length raw_data) - 2)%Z ->
    Recv.scan_step raw_data i = Recv.scan_next i' found ->
    scan_run raw_data i' (packets ++ Recv.emitted_list found) result ->
    scan_run raw_data i packets result.

Section Samples.
Import Bytes.

(** Two frames as sent, and two frames whose last digest byte was hit on
    the way. *)
Definition damaged_frame (seq : Z) : bytes :=
  firstn 57 (Send.frame_of seq) ++ [Z.lxor (nth 57 (Send.frame_of seq) 0%Z) 1].

Definition two_frames : bytes := Send.frame_of 0 ++ Send.frame_of 1.
Definition two_damaged_frames : bytes := damaged_frame 0 ++ damaged_frame 1.

(** A well-formed RIFF/WAVE file (mono, 16 bit, 48 kHz) that holds a format
    chunk and no data chunk. *)
Definition wav_without_data : bytes :=
  of_string "RIFF" ++ to_le 4 28 ++ of_string "WAVE"
    ++ of_string "fmt " ++ to_le 4 16
    ++ to_le 2 1 ++ to_le 2 1 ++ to_le 4 48000 ++ to_le 4 96000
    ++ to_le 2 2 ++ to_le 2 16.

Definition recv_args : Recv.args :=
  {| Recv.freq0 := 18000; Recv.freq1 := 20000; Recv.baud := 150;
     Recv.sample_rate := 48000; Recv.duration := 10; Recv.expected := 10;
     Recv.input := Some "capture.wav"%string |}.

Definition world_without_data : Recv.world :=
  {| Recv.open_rb := fun _ => Some wav_without_data; Recv.sd_rec := None |}.

End Samples.

(** ** Notions used to state the properties of the remaining code *)

Section CodecNotions.
Import Bytes Exn Recv.
Local Opaque Hashlib.sha256.

(** What the scan records for a packet body of at least 56 bytes. *)
Definition packet_of_body (packet_body : bytes) : packet :=
  let payload := slice packet_body 6 24 in
  let valid :=
    eqb (slice packet_body 24 56)
        (Hashlib.sha256 (slice packet_body 0 4 ++ slice packet_body 4 6 ++ payload)) in
  {| seq := from_be (slice packet_body 4 6);
     valid_hash := valid;
     payload_match := eqb payload CALIBRATION_PAYLOAD;
     intact := valid && eqb payload CALIBRATION_PAYLOAD |}.

(** The bytes on the wire for a length prefix of 56, a sequence number
    [hi lo], a payload and a digest. *)
Definition wire (hi lo : Z) (payload digest : bytes) : bytes :=
  [0; 56]%Z ++ CALIBRATION_MAGIC ++ [hi; lo] ++ payload ++ digest.

Definition wire_packet (hi lo : Z) (payload digest : bytes) : packet :=
  let valid :=
    eqb digest (Hashlib.sha256 (CALIBRATION_MAGIC ++ [hi; lo] ++ payload)) in
  {| seq := from_be [hi; lo];
     valid_hash := valid;
     payload_match := eqb payload CALIBRATION_PAYLOAD;
     intact := valid && eqb payload CALIBRATION_PAYLOAD |}.

(** A frame within a received byte stream: the bytes [lead] in front of
    it, the two sequence bytes, the payload and the digest. *)
Record framed : Type := {
  lead : bytes;
  seq_hi : Z;
  seq_lo : Z;
  framed_payload : bytes;
  framed_digest : bytes
}.

Definition wire_of (f : framed) : bytes :=
  lead f ++ wire (seq_hi f) (seq_lo f) (framed_payload f) (framed_digest f).

Definition wire_packet_of (f : framed) : packet :=
  wire_packet (seq_hi f) (seq_lo f) (framed_payload f) (framed_digest f).

(** No byte of the lead-in is the first byte of the magic, and payload and
    digest have their sizes. *)
Definition framed_ok (f : framed) : Prop :=
  Forall (fun b => b <> 202%Z) (lead f) /\
  length (framed_payload f) = 18%nat /\ length (framed_digest f) = 32%nat.

(** The packet [extract_packets] records for an undamaged frame. *)
Definition intact_packet (seq_ : Z) : packet :=
  {| seq := seq_; valid_hash := true; payload_match := true; intact := true |}.

(** A generated frame as it arrives behind [ld]. *)
Definition framed_calibration (ld : bytes) (seq_ : Z) : framed :=
  {| lead := ld;
     seq_hi := Z.land (Z.shiftr seq_ 8) 255;
     seq_lo := Z.land seq_ 255;
     framed_payload := CALIBRATION_PAYLOAD;
     framed_digest :=
       Hashlib.sha256 (CALIBRATION_MAGIC
                         ++ [Z.land (Z.shiftr seq_ 8) 255; Z.land seq_ 255]
                         ++ CALIBRATION_PAYLOAD) |}.

End CodecNotions.

Section UartNotions.
Import Bytes Exn Recv.
Local Opaque Hashlib.sha256.

Definition bits_value (byte : Z) : Z :=
  fold_left (fun byte_val b => Z.lor (Z.shiftl byte_val 1) (Z.land (Z.shiftr byte b) 1))
            [7; 6; 5; 4; 3; 2; 1; 0]%Z 0%Z.

(** The bytes the UART loop reads from the bits of one modulated packet:
    three bytes from the preamble, then the data; the last preamble bit is
    a start bit, and whether a byte is read there is decided by the lowest
    bit of the first data byte. *)
Definition uart_bytes (data : bytes) : bytes :=
  [170; 170; 170]%Z ++
  match data with
  | [] => [255%Z]
  | b :: rest => if Z.even b then b :: rest else Z.shiftr b 1 :: rest
  end.

(** The bit stream of a batch: every packet framed on its own, [gap] idle
    bits behind it. *)
Definition batch_bits (gap : nat) (frames : list bytes) : list Z :=
  concat (map (fun frame => Send.frame_bits frame ++ repeat 1%Z gap) frames).

End UartNotions.


Section WavRoundTripNotions.
Import Bytes Exn WavWriter.
Local Open Scope Z_scope.

(** The file [write_wav] produces when nothing overflows. *)
Definition wav_file (pcm : list Z) (sample_rate : Z) : bytes :=
  of_string "RIFF" ++ to_le 4 (36 + Z.of_nat (length pcm) * 2) ++ of_string "WAVE"
    ++ of_string "fmt " ++ to_le 4 16
    ++ to_le 2 1 ++ to_le 2 1 ++ to_le 4 sample_rate ++ to_le 4 (sample_rate * 2)
    ++ to_le 2 2 ++ to_le 2 16
    ++ of_string "data" ++ to_le 4 (Z.of_nat (length pcm) * 2) ++ tobytes pcm.

(** The format chunk of [write_wav]. *)
Definition fmt_body (sample_rate : Z) : bytes :=
  to_le 2 1 ++ to_le 2 1 ++ to_le 4 sample_rate ++ to_le 4 (sample_rate * 2)
    ++ to_le 2 2 ++ to_le 2 16.

End WavRoundTripNotions.

Section ReadersNotions.
Import Bytes Exn WavWriter.
Local Open Scope Z_scope.

(** A RIFF/WAVE file that holds a data chunk and no format chunk. *)
Definition wav_without_fmt (riff_size data : bytes) : bytes :=
  of_string "RIFF" ++ riff_size ++ of_string "WAVE"
    ++ of_string "data" ++ to_le 4 (Z.of_nat (length data)) ++ data.

End ReadersNotions.

(** ** sweep.py: the sweep signal and the probe around it *)

Module SweepRun.
Import Exn.

(** What [get_device_info] returns: the message of the exception, or the
    sample rates of the default input and output devices and the number of
    devices. *)
Inductive device_info : Type :=
| device_error (message : string)
| default_devices (input_rate output_rate device_count : Z).

(** Exceptions of [generate_sweep]. *)
Inductive sweep_exn : Type :=
| Number_of_samples_must_be_non_negative (n : Z)
| float_division_by_zero
| raised (e : exn).

(** A call that can end in an exception nobody catches. *)
Inductive outcome (A : Type) : Type :=
| Returns (a : A)
| Uncaught (e : sweep_exn).

Arguments Returns {A} a.
Arguments Uncaught {A} e.

Definition sweep_amplitude : R := (7 / 10)%R.

(** Sample [i] of [np.linspace(0, duration, n, endpoint=False)]. *)
Definition linspace_point (duration : Q) (n : Z) (i : nat) : R :=
  (INR i * (Q2R duration / IZR n))%R.

Definition chirp_phase (start_freq end_freq duration : Q) (t : R) : R :=
  (2 * PI * (Q2R start_freq * t
             + (Q2R end_freq - Q2R start_freq) / (2 * Q2R duration) * (t * t)))%R.

(** [int(sample_rate * duration)] *)
Definition sample_count (sample_rate : Z) (duration : Q) : result Z :=
  rate <- Py.float_of_int sample_rate ;;
  Py.int_of_float (Py.fmul (Py.Fin rate) (Py.binary64 duration)).

(** The chirp rate divides by [2 * duration], a float. *)
Definition generate_sweep (start_freq end_freq duration : Q) (sample_rate : Z)
    : outcome (list R) :=
  match sample_count sample_rate duration with
  | Raise e => Uncaught (raised e)
  | Ok n =>
      if (n <? 0)%Z then Uncaught (Number_of_samples_must_be_non_negative n)
      else if Qeq_bool (Py.nearest duration) 0 then Uncaught float_division_by_zero
      else
        Returns
          (map (fun i =>
                  (sweep_amplitude
                   * sin (chirp_phase start_freq end_freq duration
                            (linspace_point duration n i)))%R)
               (seq 0 (Z.to_nat n)))
  end.








End SweepRun.

(** ** decide.py: the automatic probe sequence *)

Module AutoProbe.
Import Py Decide.
Import SweepRun.
Local Open Scope string_scope.

(** What [auto_probe] reads of the dictionary [run_probe] returns; a key
    that is absent is [None]. *)
Record probe_result : Type := {
  p_success : option bool;
  p_error : option string;
  p_devices : option device_info;
  p_snr_db : option pyfloat;
  p_per : option pyfloat
}.

(** [d.get(key, default)] *)
Definition get {A : Type} (entry : option A) (default : A) : A :=
  match entry with
  | Some v => v
  | None => default
  end.

(** Truth value of [d.get("success")]. *)
Definition truthy (entry : option bool) : bool := get entry false.

(** [str(n)] for an integer. *)
Definition str (n : Z) : string := NilZero.string_of_int (Z.to_int n).

Inductive step_name : Type :=
| device_check
| sweep
| send_calibration
| recv_calibration.

Inductive auto_error : Type :=
| No_audio_devices_available
| Sweep_failed (error : string).

(** The dictionary [auto_probe] returns, and whether it went as far as
    removing the calibration file. *)
Record auto_result : Type := {
  a_success : bool;
  a_error : option auto_error;
  a_snr_db : option pyfloat;
  a_per : option pyfloat;
  a_steps : list (step_name * probe_result);
  a_decision : decision;
  a_unlinked : bool
}.

(** The command lines of the three later probes. *)
Definition sweep_args (sample_rate : Z) : list string :=
  ["--start"; "17000"; "--end"; "22000"; "--duration"; "2.0";
   "--sample-rate"; str sample_rate; "--record"].

Definition send_args (cal_wav : string) (sample_rate : Z) : list string :=
  ["--freq0"; str ULTRASONIC_FREQ0; "--freq1"; str ULTRASONIC_FREQ1;
   "--packets"; "10"; "--sample-rate"; str sample_rate; "--output"; cal_wav].

Definition recv_args (cal_wav : string) : list string :=
  ["--freq0"; str ULTRASONIC_FREQ0; "--freq1"; str ULTRASONIC_FREQ1;
   "--expected"; "10"; "--input"; cal_wav].

Section Run.
(** [run_probe script args], and the path of the calibration file in the
    temporary directory. *)
Variable run_probe : string -> list string -> probe_result.
Variable cal_wav : string.

Definition auto_probe (sample_rate : Z) : auto_result :=
  let sweep_check := run_probe "sweep.py" ["--check-only"] in
  let steps := [(device_check, sweep_check)] in
  match p_devices sweep_check with
  | None | Some (device_error _) =>
      {| a_success := false; a_error := Some No_audio_devices_available;
         a_snr_db := None; a_per := None; a_steps := steps;
         a_decision := decide_mode (Fin 0) (Fin 1); a_unlinked := false |}
  | Some (default_devices _ _ _) =>
      let sweep_result := run_probe "sweep.py" (sweep_args sample_rate) in
      let steps := (steps ++ [(sweep, sweep_result)])%list in
      if negb (truthy (p_success sweep_result)) then
        {| a_success := false;
           a_error := Some (Sweep_failed (get (p_error sweep_result) "unknown"));
           a_snr_db := None; a_per := None; a_steps := steps;
           a_decision := decide_mode (Fin 0) (Fin 1); a_unlinked := false |}
      else
        let snr_db := get (p_snr_db sweep_result) (Fin 0) in
        let send_result := run_probe "send.py" (send_args cal_wav sample_rate) in
        let steps := (steps ++ [(send_calibration, send_result)])%list in
        if negb (truthy (p_success send_result)) then
          {| a_success := true; a_error := None;
             a_snr_db := Some snr_db; a_per := Some (Fin 1); a_steps := steps;
             a_decision := decide_mode snr_db (Fin 1); a_unlinked := false |}
        else
          let recv_result := run_probe "recv.py" (recv_args cal_wav) in
          let steps := (steps ++ [(recv_calibration, recv_result)])%list in
          let per := if truthy (p_success recv_result)
                     then get (p_per recv_result) (Fin 1) else Fin 1 in
          {| a_success := true; a_error := None;
             a_snr_db := Some snr_db; a_per := Some per; a_steps := steps;
             a_decision := decide_mode snr_db per; a_unlinked := true |}
  end.

End Run.

(** Probes that all succeed, with 25 dB and two packets in a hundred
    lost. *)
Definition healthy_probes (script : string) (args : list string) : probe_result :=
  {| p_success := if String.eqb script "sweep.py" && (length args =? 1)%nat
                  then None else Some true;
     p_error := None;
     p_devices := if String.eqb script "sweep.py"
                  then Some (default_devices 48000 48000 2) else None;
     p_snr_db := if String.eqb script "sweep.py" then Some (Fin 25) else None;
     p_per := if String.eqb script "recv.py" then Some (Fin 0.02) else None |}.

End AutoProbe.

Section GoertzelSumsNotions.
Import Exn Recv.
Local Open Scope R_scope.

(** The sums [sum x_j cos (w (k + j))] and [sum x_j sin (w (k + j))] over a
    window. *)
Fixpoint cos_weighted (w : R) (k : nat) (samples : list R) : R :=
  match samples with
  | [] => 0
  | x :: rest => x * cos (w * INR k) + cos_weighted w (S k) rest
  end.

Fixpoint sin_weighted (w : R) (k : nat) (samples : list R) : R :=
  match samples with
  | [] => 0
  | x :: rest => x * sin (w * INR k) + sin_weighted w (S k) rest
  end.

Definition goertzel_step (coeff : R) (s : R * R) (sample : R) : R * R :=
  let (s1, s2) := s in (sample + coeff * s1 - s2, s1).

(** The state of the recurrence after [k] samples, against the weighted
    sums [u] and [v] of these samples. *)
Definition tracks (w : R) (k : nat) (s : R * R) (u v : R) : Prop :=
  let a := w * (INR k - 1) in
  fst s - cos w * snd s = cos a * u + sin a * v /\
  sin w * snd s = sin a * u - cos a * v.

End GoertzelSumsNotions.

Section ToneSumsNotions.
Local Open Scope R_scope.

(** [sum_(j < n) sin (phase + j alpha)] and the same with the cosine. *)
Fixpoint sin_sum (phase alpha : R) (n : nat) : R :=
  match n with
  | O => 0
  | S n' => sin phase + sin_sum (phase + alpha) alpha n'
  end.

Fixpoint cos_sum (phase alpha : R) (n : nat) : R :=
  match n with
  | O => 0
  | S n' => cos phase + cos_sum (phase + alpha) alpha n'
  end.

End ToneSumsNotions.

Section DetectionNotions.
Import Exn Send Recv.
Local Open Scope R_scope.

Definition theta0 : R := 3 * (PI / 4).
Definition theta1 : R := 5 * (PI / 6).
Definition omega0 : R := 3 * (PI / 4).
Definition omega1 : R := 133 * (PI / 160).

End DetectionNotions.

Section BitSlicerNotions.
Import Bytes Exn Send Recv.
Local Open Scope R_scope.

(** A window that the two detectors read as [bit]. *)
Definition reads_as (freq0 freq1 : Q) (sample_rate : Z) (samples_per_bit : nat)
    (chunk : list R) (bit : Z) : Prop :=
  length chunk = samples_per_bit /\
  exists p0 p1,
    goertzel chunk freq0 sample_rate = Ok p0 /\
    goertzel chunk freq1 sample_rate = Ok p1 /\
    (if Rgt_dec p0 p1 then 0%Z else 1%Z) = bit.

End BitSlicerNotions.

Definition recv_defaults : Recv.args :=
  {| Recv.freq0 := 18000; Recv.freq1 := 20000; Recv.baud := 150;
     Recv.sample_rate := 48000; Recv.duration := 10; Recv.expected := 10;
     Recv.input := None |}.

Section ExtractSoundNotions.
Import Bytes Exn Recv.
Local Opaque Hashlib.sha256.

(** What an intact packet stands for: the verbatim 56 bytes in the input. *)
Definition verbatim (raw_data : bytes) (p : packet) : Prop :=
  exists pre seq_bytes post,
    raw_data = pre ++ CALIBRATION_MAGIC ++ seq_bytes ++ CALIBRATION_PAYLOAD
                 ++ Hashlib.sha256 (CALIBRATION_MAGIC ++ seq_bytes ++ CALIBRATION_PAYLOAD)
                 ++ post /\
    length seq_bytes = 2%nat /\ seq p = from_be seq_bytes.

Definition sound (raw_data : bytes) (p : packet) : Prop :=
  intact p = valid_hash p && payload_match p /\
  (intact p = true -> verbatim raw_data p).

End ExtractSoundNotions.

(* ================================================================== *)
(** * Properties *)
(* ================================================================== *)

(** ** Float comparisons *)

Lemma py_leb_le (a b : Py.pyfloat) : Py.leb a b = true <-> Py.le a b.
Proof.
  destruct a, b; simpl; try (split; [discriminate | contradiction]);
    try (split; auto; fail).
  apply Qle_bool_iff.
Qed.

Lemma py_geb_ge (a b : Py.pyfloat) : Py.geb a b = true <-> Py.ge a b.
Proof. unfold Py.geb, Py.ge. apply py_leb_le. Qed.

Lemma py_le_trans (a b c : Py.pyfloat) : Py.le a b -> Py.le b c -> Py.le a c.
Proof.
  destruct a, b, c; simpl; try tauto.
  apply Qle_trans.
Qed.

(** ** Doubles: rounding to the nearest, and where it is exact *)

Section Doubles.
Import Py.
Local Open Scope Q_scope.

Lemma two_nonzero : ~ 2 == 0.
Proof. discriminate. Qed.

Lemma pow2_pos e : 0 < 2 ^ e.
Proof. apply Qpower_0_lt. reflexivity. Qed.

Lemma pow2_plus a b : 2 ^ (a + b) == 2 ^ a * 2 ^ b.
Proof. apply Qpower_plus. exact two_nonzero. Qed.

Lemma pow2_le a b : (a <= b)%Z -> 2 ^ a <= 2 ^ b.
Proof. intro H. apply Qpower_le_compat_l; [exact H | discriminate]. Qed.

Lemma pow2_lt a b : (a < b)%Z -> 2 ^ a < 2 ^ b.
Proof. intro H. apply Qpower_lt_compat_l; [exact H | reflexivity]. Qed.

Lemma pow2_lt_inv a b : 2 ^ a < 2 ^ b -> (a < b)%Z.
Proof. intro H. apply (Qpower_lt_compat_l_inv 2); [exact H | reflexivity]. Qed.

Lemma pow2_Z n : (0 <= n)%Z -> 2 ^ n == inject_Z (2 ^ n).
Proof. intro H. rewrite Zpower_Qpower by exact H. reflexivity. Qed.

Lemma pow2_succ a : 2 ^ (a + 1) == 2 * 2 ^ a.
Proof. rewrite pow2_plus. change (2 ^ 1) with 2. ring. Qed.

Lemma pow2_minus a b : 2 ^ (a - b) == 2 ^ a / 2 ^ b.
Proof. apply Qpower_minus. exact two_nonzero. Qed.

(** Multiplying and dividing by a power of two. *)
Lemma pow2_div_mul x e : x / 2 ^ e * 2 ^ e == x.
Proof. field. pose proof (pow2_pos e). Lqa.lra. Qed.

Lemma pow2_mul_div x e : x * 2 ^ e / 2 ^ e == x.
Proof. field. pose proof (pow2_pos e). Lqa.lra. Qed.

Lemma div_pow2_le x y e : x <= y -> x / 2 ^ e <= y / 2 ^ e.
Proof.
  intro H. unfold Qdiv. apply Qmult_le_compat_r; [exact H |].
  apply Qlt_le_weak. apply Qinv_lt_0_compat. apply pow2_pos.
Qed.

Lemma div_pow2_lt x y e : x < y -> x / 2 ^ e < y / 2 ^ e.
Proof.
  intro H. unfold Qdiv. apply Qmult_lt_compat_r; [| exact H].
  apply Qinv_lt_0_compat. apply pow2_pos.
Qed.

Lemma mul_pow2_le x y e : x <= y -> x * 2 ^ e <= y * 2 ^ e.
Proof.
  intro H. apply Qmult_le_compat_r; [exact H |]. apply Qlt_le_weak. apply pow2_pos.
Qed.

Lemma mul_pow2_lt x y e : x < y -> x * 2 ^ e < y * 2 ^ e.
Proof. intro H. apply Qmult_lt_compat_r; [apply pow2_pos | exact H]. Qed.

(** *** The binary exponent *)

Lemma Qabs_make n d : Qabs (n # d) = (Z.abs n # d).
Proof. reflexivity. Qed.

Lemma frac_le (A C : Z) (B D : positive) :
  (A * Zpos D <= C * Zpos B)%Z -> inject_Z A / inject_Z (Zpos B) <= inject_Z C / inject_Z (Zpos D).
Proof.
  intro H. rewrite <- !Qmake_Qdiv. unfold Qle. simpl. exact H.
Qed.

Lemma frac_lt (A C : Z) (B D : positive) :
  (A * Zpos D < C * Zpos B)%Z -> inject_Z A / inject_Z (Zpos B) < inject_Z C / inject_Z (Zpos D).
Proof.
  intro H. rewrite <- !Qmake_Qdiv. unfold Qlt. simpl. exact H.
Qed.

Lemma ilog2_spec q : ~ q == 0 -> 2 ^ ilog2 q <= Qabs q /\ Qabs q < 2 ^ (ilog2 q + 1).
Proof.
  destruct q as [n d]. intro Hq.
  assert (Hn : (0 < Z.abs n)%Z).
  { assert (n <> 0%Z); [| lia]. intro E. apply Hq. rewrite E. reflexivity. }
  rewrite Qabs_make. unfold ilog2. cbn [Qnum Qden].
  set (N := Z.abs n) in *.
  pose proof (Z.log2_spec N Hn) as [Na Nb].
  pose proof (Z.log2_spec (Zpos d) ltac:(lia)) as [Da Db].
  pose proof (Z.log2_nonneg N) as Ha. pose proof (Z.log2_nonneg (Zpos d)) as Hb.
  set (a := Z.log2 N) in *. set (b := Z.log2 (Zpos d)) in *.
  rewrite Z.pow_succ_r in Nb, Db by assumption.
  assert (Pa : (0 < 2 ^ a)%Z) by (apply Z.pow_pos_nonneg; lia).
  assert (Pb : (0 < 2 ^ b)%Z) by (apply Z.pow_pos_nonneg; lia).
  assert (Ea : 2 ^ a == inject_Z (2 ^ a)) by (apply pow2_Z; exact Ha).
  assert (Eb : 2 ^ b == inject_Z (2 ^ b)) by (apply pow2_Z; exact Hb).
  destruct (2 ^ b)%Z as [| pb | pb] eqn:Epb; try lia.
  rewrite (Qmake_Qdiv N d).
  destruct (Z.leb_spec (Zpos d * 2 ^ a) (N * Zpos pb)) as [Hc | Hc].
  - split.
    + rewrite pow2_minus, Ea, Eb. apply frac_le. lia.
    + replace (a - b + 1)%Z with (a + 1 - b)%Z by lia.
      rewrite pow2_minus, pow2_succ, Ea, Eb.
      change (2 * inject_Z (2 ^ a)) with (inject_Z 2 * inject_Z (2 ^ a)).
      rewrite <- inject_Z_mult. apply frac_lt. nia.
  - split.
    + replace (a - b - 1)%Z with (a - (b + 1))%Z by lia.
      rewrite pow2_minus, pow2_succ, Ea, Eb.
      change (2 * inject_Z (Zpos pb)) with (inject_Z 2 * inject_Z (Zpos pb)).
      rewrite <- inject_Z_mult. change (2 * Zpos pb)%Z with (Zpos (2 * pb)).
      apply frac_le. nia.
    + replace (a - b - 1 + 1)%Z with (a - b)%Z by lia.
      rewrite pow2_minus, Ea, Eb. apply frac_lt. lia.
Qed.

Lemma ilog2_unique q k : 2 ^ k <= Qabs q -> Qabs q < 2 ^ (k + 1) -> ilog2 q = k.
Proof.
  intros Hl Hu.
  assert (Hq : ~ q == 0).
  { intro E. rewrite E in Hl. pose proof (pow2_pos k). change (Qabs 0) with 0 in Hl. Lqa.lra. }
  destruct (ilog2_spec q Hq) as [Sl Su].
  assert (ilog2 q < k + 1)%Z by (apply pow2_lt_inv; Lqa.lra).
  assert (k < ilog2 q + 1)%Z by (apply pow2_lt_inv; Lqa.lra).
  lia.
Qed.

Lemma ilog2_comp x y : x == y -> ~ x == 0 -> ilog2 x = ilog2 y.
Proof.
  intros E Hx. symmetry. destruct (ilog2_spec x Hx) as [Sl Su].
  apply ilog2_unique; rewrite <- E; assumption.
Qed.

Lemma ilog2_opp x : ilog2 (- x) = ilog2 x.
Proof. destruct x as [n d]. unfold ilog2. cbn [Qnum Qden Qopp]. rewrite Z.abs_opp. reflexivity. Qed.

Lemma ilog2_le x y : 0 < x -> x <= y -> (ilog2 x <= ilog2 y)%Z.
Proof.
  intros Hx Hxy.
  destruct (ilog2_spec x) as [Xl Xu]; [Lqa.lra |].
  destruct (ilog2_spec y) as [Yl Yu]; [Lqa.lra |].
  rewrite Qabs_pos in Xl, Xu, Yl, Yu by Lqa.lra.
  assert (ilog2 x < ilog2 y + 1)%Z by (apply pow2_lt_inv; Lqa.lra). lia.
Qed.


(** *** Rounding to an integer *)

Lemma Qltb_lt a b : Py.Qltb a b = true <-> a < b.
Proof.
  unfold Py.Qltb. rewrite negb_true_iff. split; intro H.
  - apply Qnot_le_lt. intro Hle. apply Qle_bool_iff in Hle. congruence.
  - destruct (Qle_bool b a) eqn:E; [| reflexivity].
    apply Qle_bool_iff in E. exfalso. apply (Qlt_not_le _ _ H E).
Qed.

Lemma Qltb_ge a b : Py.Qltb a b = false <-> b <= a.
Proof. unfold Py.Qltb. rewrite negb_false_iff. apply Qle_bool_iff. Qed.

Lemma floor_bounds x : inject_Z (Qfloor x) <= x /\ x < inject_Z (Qfloor x) + 1.
Proof.
  split; [apply Qfloor_le |].
  pose proof (Qlt_floor x) as H. rewrite inject_Z_plus in H. exact H.
Qed.

(** The three cases of [round_half_even], as inequalities. *)
Lemma round_half_even_cases x :
  let f := Qfloor x in
  (x - inject_Z f < 1 # 2 /\ round_half_even x = f) \/
  (1 # 2 < x - inject_Z f /\ round_half_even x = (f + 1)%Z) \/
  (x - inject_Z f == 1 # 2 /\
   round_half_even x = (if Z.even f then f else (f + 1)%Z)).
Proof.
  cbv zeta. unfold round_half_even.
  destruct (Py.Qltb (x - inject_Z (Qfloor x)) (1 # 2)) eqn:E1.
  - left. apply Qltb_lt in E1. split; [exact E1 | reflexivity].
  - apply Qltb_ge in E1.
    destruct (Py.Qltb (1 # 2) (x - inject_Z (Qfloor x))) eqn:E2.
    + right; left. apply Qltb_lt in E2. split; [exact E2 | reflexivity].
    + right; right. apply Qltb_ge in E2. split; [Lqa.lra | reflexivity].
Qed.

Lemma round_half_even_near x :
  inject_Z (round_half_even x) - (1 # 2) <= x /\ x <= inject_Z (round_half_even x) + (1 # 2).
Proof.
  pose proof (floor_bounds x) as [Fl Fu].
  destruct (round_half_even_cases x) as [[H E] | [[H E] | [H E]]]; rewrite E.
  - Lqa.lra.
  - rewrite inject_Z_plus. change (inject_Z 1) with 1. Lqa.lra.
  - destruct (Z.even (Qfloor x)).
    + Lqa.lra.
    + rewrite inject_Z_plus. change (inject_Z 1) with 1. Lqa.lra.
Qed.

Lemma round_half_even_floor x :
  (Qfloor x <= round_half_even x <= Qfloor x + 1)%Z.
Proof.
  destruct (round_half_even_cases x) as [[H E] | [[H E] | [H E]]]; rewrite E;
    try lia.
  destruct (Z.even (Qfloor x)); lia.
Qed.

Lemma Qltb_comp a b c d : a == b -> c == d -> Py.Qltb a c = Py.Qltb b d.
Proof.
  intros E1 E2.
  destruct (Py.Qltb a c) eqn:A; destruct (Py.Qltb b d) eqn:B; try reflexivity.
  - apply Qltb_lt in A. apply Qltb_ge in B. exfalso. Lqa.lra.
  - apply Qltb_ge in A. apply Qltb_lt in B. exfalso. Lqa.lra.
Qed.

Lemma round_half_even_comp x y : x == y -> round_half_even x = round_half_even y.
Proof.
  intro E. unfold round_half_even. rewrite (Qfloor_comp _ _ E).
  assert (Er : x - inject_Z (Qfloor y) == y - inject_Z (Qfloor y)) by (rewrite E; reflexivity).
  rewrite (Qltb_comp _ _ _ _ Er (Qeq_refl (1 # 2))).
  rewrite (Qltb_comp _ _ _ _ (Qeq_refl (1 # 2)) Er). reflexivity.
Qed.

Lemma round_half_even_Z (k : Z) : round_half_even (inject_Z k) = k.
Proof.
  destruct (round_half_even_cases (inject_Z k)) as [[H E] | [[H E] | [H E]]];
    rewrite Qfloor_Z in *.
  - exact E.
  - exfalso. Lqa.lra.
  - exfalso. Lqa.lra.
Qed.

Lemma floor_unique x (k : Z) : inject_Z k <= x -> x < inject_Z k + 1 -> Qfloor x = k.
Proof.
  intros Hl Hu. pose proof (floor_bounds x) as [Fl Fu].
  assert (A : (Qfloor x < k + 1)%Z).
  { rewrite Zlt_Qlt, inject_Z_plus. change (inject_Z 1) with 1. Lqa.lra. }
  assert (B : (k < Qfloor x + 1)%Z).
  { rewrite Zlt_Qlt, inject_Z_plus. change (inject_Z 1) with 1. Lqa.lra. }
  lia.
Qed.

Lemma round_half_even_mono x y : x <= y -> (round_half_even x <= round_half_even y)%Z.
Proof.
  intro H. pose proof (Qfloor_resp_le _ _ H) as F.
  pose proof (round_half_even_floor x) as Bx.
  pose proof (round_half_even_floor y) as By.
  destruct (Z.eq_dec (Qfloor x) (Qfloor y)) as [E | N]; [| lia].
  destruct (round_half_even_cases x) as [[Hx Ex] | [[Hx Ex] | [Hx Ex]]];
    destruct (round_half_even_cases y) as [[Hy Ey] | [[Hy Ey] | [Hy Ey]]];
    rewrite Ex, Ey, <- ?E in *; try lia; try (exfalso; Lqa.lra);
    destruct (Z.even (Qfloor x)); lia.
Qed.

Lemma round_half_even_opp x : round_half_even (- x) = (- round_half_even x)%Z.
Proof.
  pose proof (floor_bounds x) as [Fl Fu].
  destruct (Qeq_dec x (inject_Z (Qfloor x))) as [I | NI].
  { rewrite (round_half_even_comp x _ I), round_half_even_Z.
    assert (I' : - x == inject_Z (- Qfloor x)) by (rewrite inject_Z_opp, <- I; reflexivity).
    rewrite (round_half_even_comp _ _ I'), round_half_even_Z. reflexivity. }
  assert (EZ : inject_Z (- Qfloor x - 1) == - inject_Z (Qfloor x) - 1).
  { unfold Z.sub. rewrite inject_Z_plus, !inject_Z_opp. reflexivity. }
  assert (F' : Qfloor (- x) = (- Qfloor x - 1)%Z).
  { apply floor_unique; rewrite EZ.
    - Lqa.lra.
    - assert (inject_Z (Qfloor x) < x); [| Lqa.lra].
      apply Qle_lteq in Fl. destruct Fl as [L | L]; [exact L |].
      exfalso. apply NI. symmetry. exact L. }
  assert (R' : - x - inject_Z (Qfloor (- x)) == 1 - (x - inject_Z (Qfloor x))).
  { rewrite F', EZ. ring. }
  destruct (round_half_even_cases x) as [[Hx Ex] | [[Hx Ex] | [Hx Ex]]];
    destruct (round_half_even_cases (- x)) as [[Hy Ey] | [[Hy Ey] | [Hy Ey]]];
    rewrite Ex, Ey, ?F' in *; try lia; try (exfalso; Lqa.lra).
  replace (- Qfloor x - 1)%Z with (- (Qfloor x + 1))%Z by lia.
  rewrite Z.even_opp, Z.even_add. change (Z.even 1) with false.
  destruct (Z.even (Qfloor x)); cbn [Bool.eqb]; lia.
Qed.

(** Below an integer less a half, the rounded value is below the integer. *)
Lemma round_half_even_below x (m : Z) :
  x < inject_Z m - (1 # 2) -> (round_half_even x < m)%Z.
Proof.
  intro H. pose proof (round_half_even_near x) as [N _].
  rewrite Zlt_Qlt. Lqa.lra.
Qed.


(** *** The nearest double *)

Lemma Qeq_bool_false x y : Qeq_bool x y = false <-> ~ x == y.
Proof.
  split.
  - intros H E. apply Qeq_bool_iff in E. congruence.
  - intro H. destruct (Qeq_bool x y) eqn:E; [| reflexivity].
    apply Qeq_bool_iff in E. contradiction.
Qed.

Lemma nearest_zero x : x == 0 -> nearest x = 0.
Proof. intro H. unfold nearest. apply Qeq_bool_iff in H. rewrite H. reflexivity. Qed.

Lemma nearest_nonzero x :
  ~ x == 0 ->
  nearest x == inject_Z (round_half_even (x / 2 ^ ulp_exponent x)) * 2 ^ ulp_exponent x.
Proof.
  intro H. unfold nearest. apply Qeq_bool_false in H. rewrite H. apply Qred_correct.
Qed.

Lemma nearest_comp x y : x == y -> nearest x = nearest y.
Proof.
  intro E. destruct (Qeq_dec x 0) as [Z | NZ].
  - rewrite (nearest_zero x Z). symmetry. apply nearest_zero.
    apply Qeq_trans with x; [apply Qeq_sym; exact E | exact Z].
  - assert (NZ' : ~ y == 0).
    { intro Ey. apply NZ. apply Qeq_trans with y; assumption. }
    unfold nearest. apply Qeq_bool_false in NZ'. rewrite NZ'.
    pose proof NZ as NZb. apply Qeq_bool_false in NZb. rewrite NZb.
    unfold ulp_exponent. rewrite <- (ilog2_comp x y E NZ).
    set (e := Z.max (ilog2 x - 52) (-1074)).
    apply Qred_complete.
    rewrite (round_half_even_comp (x / 2 ^ e) (y / 2 ^ e)) by (rewrite E; reflexivity).
    reflexivity.
Qed.

Lemma nearest_opp x : nearest (- x) == - nearest x.
Proof.
  destruct (Qeq_dec x 0) as [Z | NZ].
  - rewrite (nearest_zero x Z), (nearest_zero (- x)) by (rewrite Z; reflexivity).
    reflexivity.
  - assert (NZ' : ~ - x == 0) by (intro E; apply NZ; Lqa.lra).
    rewrite (nearest_nonzero _ NZ), (nearest_nonzero _ NZ').
    unfold ulp_exponent. rewrite ilog2_opp.
    set (e := Z.max (ilog2 x - 52) (-1074)).
    assert (E : - x / 2 ^ e == - (x / 2 ^ e)).
    { field. pose proof (pow2_pos e). Lqa.lra. }
    rewrite (round_half_even_comp _ _ E), round_half_even_opp, inject_Z_opp. ring.
Qed.

Lemma round_half_even_nonneg x : 0 <= x -> (0 <= round_half_even x)%Z.
Proof.
  intro H. rewrite <- (round_half_even_Z 0). apply round_half_even_mono. exact H.
Qed.

Lemma nearest_pos_bounds x :
  0 < x ->
  0 <= nearest x /\ nearest x <= 2 ^ (ilog2 x + 1) /\
  ((-1074 <= ilog2 x - 52)%Z -> 2 ^ ilog2 x <= nearest x).
Proof.
  intro Hx.
  assert (NZ : ~ x == 0) by Lqa.lra.
  destruct (ilog2_spec x NZ) as [Sl Su]. rewrite Qabs_pos in Sl, Su by Lqa.lra.
  rewrite (nearest_nonzero x NZ).
  set (k := ilog2 x) in *. unfold ulp_exponent. fold k.
  set (e := Z.max (k - 52) (-1074)).
  pose proof (pow2_pos e) as Pe.
  assert (Hy : 0 <= x / 2 ^ e).
  { apply Qle_shift_div_l; [exact Pe | Lqa.lra]. }
  split; [| split].
  - apply Qmult_le_0_compat; [| Lqa.lra].
    change 0 with (inject_Z 0). rewrite <- Zle_Qle. apply round_half_even_nonneg. exact Hy.
  - destruct (Z_le_gt_dec 0 (k + 1 - e)) as [Hp | Hp].
    + assert (B : x / 2 ^ e <= inject_Z (2 ^ (k + 1 - e))).
      { rewrite <- pow2_Z by exact Hp. rewrite pow2_minus.
        apply div_pow2_le. Lqa.lra. }
      apply round_half_even_mono in B. rewrite round_half_even_Z in B.
      rewrite Zle_Qle in B. rewrite <- pow2_Z in B by exact Hp.
      apply (mul_pow2_le _ _ e) in B.
      rewrite pow2_minus in B. unfold Qdiv at 2 in B.
      rewrite <- Qmult_assoc, (Qmult_comm (/ 2 ^ e)), Qmult_inv_r, Qmult_1_r in B by Lqa.lra.
      exact B.
    + assert (B : x / 2 ^ e <= 1 # 2).
      { apply Qle_shift_div_r; [exact Pe |].
        assert (L : 2 ^ (k + 1) <= (1 # 2) * 2 ^ e).
        { change (1 # 2) with (2 ^ (-1)). rewrite <- pow2_plus. apply pow2_le. lia. }
        Lqa.lra. }
      apply round_half_even_mono in B.
      change (round_half_even (1 # 2)) with 0%Z in B.
      assert (Z0 : (0 <= round_half_even (x / 2 ^ e))%Z)
        by (apply round_half_even_nonneg; exact Hy).
      replace (round_half_even (x / 2 ^ e)) with 0%Z by lia.
      change (inject_Z 0) with 0. pose proof (pow2_pos (k + 1)). Lqa.lra.
  - intro Hn.
    assert (Ee : e = (k - 52)%Z) by (unfold e; lia).
    assert (B : inject_Z (2 ^ 52) <= x / 2 ^ e).
    { rewrite <- pow2_Z by lia. apply Qle_shift_div_l; [exact Pe |].
      rewrite <- pow2_plus. replace (52 + e)%Z with k by lia. exact Sl. }
    apply round_half_even_mono in B. rewrite round_half_even_Z in B.
    rewrite Zle_Qle in B. rewrite <- pow2_Z in B by lia.
    apply (mul_pow2_le _ _ e) in B. rewrite <- pow2_plus in B.
    replace (52 + e)%Z with k in B by lia. exact B.
Qed.

Lemma nearest_nonneg x : 0 <= x -> 0 <= nearest x.
Proof.
  intro H. destruct (Qeq_dec x 0) as [Z | NZ].
  - rewrite (nearest_zero x Z). Lqa.lra.
  - apply nearest_pos_bounds. apply Qle_lteq in H. destruct H as [H | H]; [exact H |].
    exfalso. apply NZ. symmetry. exact H.
Qed.

Lemma nearest_mono_pos x y : 0 < x -> x <= y -> nearest x <= nearest y.
Proof.
  intros Hx Hxy.
  assert (Hy : 0 < y) by Lqa.lra.
  pose proof (ilog2_le x y Hx Hxy) as Hk.
  destruct (nearest_pos_bounds x Hx) as [_ [Ux _]].
  destruct (nearest_pos_bounds y Hy) as [_ [_ Ly]].
  destruct (Z.eq_dec (ulp_exponent x) (ulp_exponent y)) as [E | NE].
  - rewrite (nearest_nonzero x), (nearest_nonzero y) by Lqa.lra. rewrite E.
    apply mul_pow2_le. rewrite <- Zle_Qle. apply round_half_even_mono.
    apply div_pow2_le. exact Hxy.
  - unfold ulp_exponent in NE.
    assert (Hn : (-1074 <= ilog2 y - 52)%Z) by lia.
    assert (Hs : (ilog2 x + 1 <= ilog2 y)%Z) by lia.
    specialize (Ly Hn). pose proof (pow2_le _ _ Hs). Lqa.lra.
Qed.

(** Rounding to the nearest double is monotone. *)
Lemma nearest_mono x y : x <= y -> nearest x <= nearest y.
Proof.
  intro H.
  destruct (Qlt_le_dec 0 x) as [Px | Nx]; [apply nearest_mono_pos; assumption |].
  destruct (Qlt_le_dec y 0) as [Ny | Py].
  - assert (A : nearest (- y) <= nearest (- x)) by (apply nearest_mono_pos; Lqa.lra).
    rewrite !nearest_opp in A. Lqa.lra.
  - pose proof (nearest_nonneg y Py) as B.
    assert (A : 0 <= nearest (- x)) by (apply nearest_nonneg; Lqa.lra).
    rewrite nearest_opp in A. Lqa.lra.
Qed.

(** A number with a significand below [2 ^ 53] and an exponent within the
    range is a double. *)
Lemma nearest_exact (m e : Z) :
  (Z.abs m < 2 ^ 53)%Z -> (-1074 <= e)%Z ->
  nearest (inject_Z m * 2 ^ e) == inject_Z m * 2 ^ e.
Proof.
  intros Hm He.
  destruct (Z.eq_dec m 0) as [Z | NZ].
  { subst m. rewrite nearest_zero by ring. ring. }
  pose proof (pow2_pos e) as Pe.
  set (x := inject_Z m * 2 ^ e).
  assert (Ax : Qabs x == inject_Z (Z.abs m) * 2 ^ e).
  { unfold x. rewrite Qabs_Qmult, (Qabs_pos (2 ^ e)) by Lqa.lra.
    reflexivity. }
  assert (M1 : 1 <= inject_Z (Z.abs m)).
  { change 1 with (inject_Z 1). rewrite <- Zle_Qle. lia. }
  assert (M2 : inject_Z (Z.abs m) < 2 ^ 53).
  { rewrite (pow2_Z 53) by lia. rewrite <- Zlt_Qlt. exact Hm. }
  assert (NX : ~ x == 0).
  { intro E. rewrite E in Ax. change (Qabs 0) with 0 in Ax. Lqa.nra. }
  destruct (ilog2_spec x NX) as [Sl Su].
  assert (Hk : (ilog2 x < 53 + e)%Z).
  { apply pow2_lt_inv. rewrite pow2_plus. rewrite Ax in Sl. Lqa.nra. }
  rewrite (nearest_nonzero x NX). unfold ulp_exponent.
  set (e' := Z.max (ilog2 x - 52) (-1074)).
  assert (Le : (e' <= e)%Z) by (unfold e'; lia).
  assert (E : x / 2 ^ e' == inject_Z (m * 2 ^ (e - e'))).
  { rewrite inject_Z_mult, <- pow2_Z by lia. rewrite pow2_minus. unfold x.
    field. pose proof (pow2_pos e'). Lqa.lra. }
  rewrite (round_half_even_comp _ _ E), round_half_even_Z.
  rewrite inject_Z_mult, <- pow2_Z by lia. rewrite pow2_minus. unfold x.
  field. pose proof (pow2_pos e'). Lqa.lra.
Qed.

Lemma nearest_Z (n : Z) : (Z.abs n < 2 ^ 53)%Z -> nearest (inject_Z n) == inject_Z n.
Proof.
  intro H. pose proof (nearest_exact n 0 H ltac:(lia)) as E.
  change (2 ^ 0) with 1 in E.
  rewrite (nearest_comp (inject_Z n) (inject_Z n * 1)) by ring.
  rewrite E. ring.
Qed.


(** *** Truncation *)

Lemma int_of_floor q : 0 <= q -> Py.int_of q = Qfloor q.
Proof.
  destruct q as [n d]. unfold Qle, Py.int_of, Qfloor. simpl. intro H.
  apply Z.quot_div_nonneg; lia.
Qed.

Lemma int_of_opp q : Py.int_of (- q) = (- Py.int_of q)%Z.
Proof.
  destruct q as [n d]. unfold Py.int_of. cbn [Qopp Qnum Qden].
  apply Z.quot_opp_l. lia.
Qed.

Lemma int_of_comp x y : x == y -> Py.int_of x = Py.int_of y.
Proof.
  destruct x as [n d], y as [n' d']. unfold Qeq, Py.int_of. cbn [Qnum Qden]. intro E.
  rewrite <- (Z.quot_mul_cancel_r n (Zpos d) (Zpos d')) by lia.
  rewrite <- (Z.quot_mul_cancel_r n' (Zpos d') (Zpos d)) by lia.
  rewrite E. f_equal. lia.
Qed.

Lemma int_of_between q (k : Z) :
  (0 <= k)%Z -> inject_Z k <= q -> q < inject_Z k + 1 -> Py.int_of q = k.
Proof.
  intros Hk Hl Hu. rewrite int_of_floor.
  - apply floor_unique; assumption.
  - apply Qle_trans with (inject_Z k); [| exact Hl].
    change 0 with (inject_Z 0). rewrite <- Zle_Qle. exact Hk.
Qed.

Lemma binary64_fin x :
  - 2 ^ 1024 < nearest x -> nearest x < 2 ^ 1024 -> binary64 x = Fin (nearest x).
Proof.
  intros Hl Hu. unfold binary64.
  destruct (Qle_bool (2 ^ 1024) (nearest x)) eqn:A.
  { apply Qle_bool_iff in A. exfalso. Lqa.lra. }
  destruct (Qle_bool (nearest x) (- 2 ^ 1024)) eqn:B.
  { apply Qle_bool_iff in B. exfalso. Lqa.lra. }
  reflexivity.
Qed.

Lemma nearest_abs_le x (n : Z) :
  (0 <= n < 2 ^ 53)%Z -> Qabs x <= inject_Z n ->
  - inject_Z n <= nearest x /\ nearest x <= inject_Z n.
Proof.
  intros Hn Hx. apply Qabs_Qle_condition in Hx. destruct Hx as [Hl Hu].
  pose proof (nearest_Z n ltac:(lia)) as E.
  pose proof (nearest_Z (- n) ltac:(lia)) as E'.
  rewrite inject_Z_opp in E'.
  split.
  - rewrite <- E'. apply nearest_mono. rewrite <- inject_Z_opp. rewrite inject_Z_opp. exact Hl.
  - rewrite <- E. apply nearest_mono. exact Hu.
Qed.

Lemma small_is_finite (n : Z) : (0 <= n < 2 ^ 53)%Z -> inject_Z n < 2 ^ 1024.
Proof.
  intro H. rewrite (pow2_Z 1024) by lia. rewrite <- Zlt_Qlt.
  apply Z.lt_trans with (2 ^ 53)%Z; [lia |].
  apply Z.pow_lt_mono_r; lia.
Qed.

Lemma inject_Z_succ (q : Z) : inject_Z q + 1 == inject_Z (q + 1).
Proof. rewrite inject_Z_plus. reflexivity. Qed.

(** The quotient of two positive integers, the dividend below [2 ^ 53]:
    rounding to the nearest double never reaches the next integer. *)
Lemma nearest_quotient_pos (a b : Z) :
  (0 < a < 2 ^ 53)%Z -> (0 < b)%Z ->
  let x := inject_Z a / inject_Z b in
  inject_Z (a / b) <= nearest x /\ nearest x < inject_Z (a / b) + 1.
Proof.
  intros Ha Hb x.
  pose proof (Z.div_mod a b ltac:(lia)) as Hdm.
  pose proof (Z.mod_pos_bound a b Hb) as Hr.
  assert (Hq0 : (0 <= a / b)%Z) by (apply Z.div_pos; lia).
  set (q := (a / b)%Z) in *. set (r := (a mod b)%Z) in *.
  assert (Hq53 : (q < 2 ^ 53)%Z) by nia.
  destruct b as [| pb | pb]; try lia.
  assert (Xl : inject_Z q <= x).
  { unfold x. setoid_replace (inject_Z q) with (inject_Z q / inject_Z 1) by field.
    apply (frac_le q a 1 pb). nia. }
  assert (Xu : x < inject_Z q + 1).
  { unfold x. rewrite inject_Z_succ.
    setoid_replace (inject_Z (q + 1)) with (inject_Z (q + 1) / inject_Z 1) by field.
    apply (frac_lt a (q + 1) pb 1). nia. }
  assert (Eq_ : nearest (inject_Z q) == inject_Z q) by (apply nearest_Z; lia).
  split.
  { rewrite <- Eq_. apply nearest_mono. exact Xl. }
  destruct (Z.eq_dec r 0) as [R0 | RN].
  { assert (Ex : x == inject_Z q).
    { unfold x. rewrite Hdm, R0, Z.add_0_r, inject_Z_mult. field.
      change 0 with (inject_Z 0). rewrite inject_Z_injective. lia. }
    rewrite (nearest_comp _ _ Ex), Eq_. Lqa.lra. }
  destruct (Z.eq_dec q 0) as [Q0 | QN].
  { (* below one *)
    rewrite Q0. change (inject_Z 0 + 1) with 1.
    set (t := inject_Z (2 ^ 53 - 1) * 2 ^ (-53)).
    assert (Et : nearest t == t) by (apply nearest_exact; lia).
    assert (Tl : t < 1).
    { unfold t. change (2 ^ (-53)) with (1 # (2 ^ 53)).
      unfold Qlt. simpl. lia. }
    assert (Xt : x <= t).
    { unfold x, t. change (2 ^ (-53)) with (/ inject_Z (Zpos (2 ^ 53))).
      apply (frac_le a (2 ^ 53 - 1) pb (2 ^ 53)). nia. }
    apply Qle_lt_trans with t; [| exact Tl].
    rewrite <- Et. apply nearest_mono. exact Xt. }
  (* at least one *)
  assert (Hq1 : (1 <= q)%Z) by lia.
  pose proof (Z.log2_spec q ltac:(lia)) as [Ka Kb].
  pose proof (Z.log2_nonneg q) as Kn.
  set (k := Z.log2 q) in *.
  rewrite Z.pow_succ_r in Kb by exact Kn.
  assert (Hk52 : (k <= 52)%Z).
  { destruct (Z_le_gt_dec k 52) as [L | G]; [exact L | exfalso].
    assert (2 ^ 53 <= 2 ^ k)%Z by (apply Z.pow_le_mono_r; lia). lia. }
  assert (Px : 0 < x).
  { apply Qlt_le_trans with (inject_Z q); [| exact Xl].
    change 0 with (inject_Z 0). rewrite <- Zlt_Qlt. lia. }
  assert (Ik : ilog2 x = k).
  { apply ilog2_unique; rewrite Qabs_pos by Lqa.lra.
    - apply Qle_trans with (inject_Z q); [| exact Xl].
      rewrite pow2_Z by exact Kn. rewrite <- Zle_Qle. exact Ka.
    - apply Qlt_le_trans with (inject_Z q + 1); [exact Xu |].
      rewrite pow2_succ, pow2_Z by exact Kn.
      change 2 with (inject_Z 2) at 1. rewrite <- inject_Z_mult.
      rewrite inject_Z_succ. rewrite <- Zle_Qle. lia. }
  rewrite (nearest_nonzero x) by Lqa.lra.
  unfold ulp_exponent. rewrite Ik.
  replace (Z.max (k - 52) (-1074)) with (k - 52)%Z by lia.
  set (S := (2 ^ (52 - k))%Z).
  assert (PS : (0 < S)%Z) by (apply Z.pow_pos_nonneg; lia).
  assert (SS : (2 ^ k * S = 2 ^ 52)%Z).
  { unfold S. rewrite <- Z.pow_add_r by lia. f_equal. lia. }
  assert (E2 : 2 ^ (k - 52) == / inject_Z S).
  { replace (k - 52)%Z with (- (52 - k))%Z by lia.
    rewrite Qpower_opp. rewrite pow2_Z by lia. reflexivity. }
  assert (PSq : 0 < inject_Z S).
  { change 0 with (inject_Z 0). rewrite <- Zlt_Qlt. exact PS. }
  set (M := ((q + 1) * S)%Z).
  assert (Hb53 : (Zpos pb * 2 ^ k < 2 ^ 53)%Z) by nia.
  assert (HbS : (Zpos pb < 2 * S)%Z) by nia.
  assert (Y : x / 2 ^ (k - 52) < inject_Z M - (1 # 2)).
  { assert (Ey : x / 2 ^ (k - 52) == inject_Z (a * S) / inject_Z (Zpos pb)).
    { rewrite E2, inject_Z_mult. unfold x. field.
      split; change 0 with (inject_Z 0); rewrite inject_Z_injective; lia. }
    assert (Em : inject_Z M - (1 # 2) == inject_Z (2 * M - 1) / inject_Z 2).
    { unfold Z.sub. rewrite inject_Z_plus, inject_Z_mult, inject_Z_opp.
      change (inject_Z 2) with 2. change (inject_Z 1) with 1. field. }
    rewrite Ey, Em. apply (frac_lt (a * S) (2 * M - 1) pb 2). unfold M. nia. }
  apply round_half_even_below in Y.
  assert (Y' : inject_Z (round_half_even (x / 2 ^ (k - 52))) <= inject_Z (M - 1)).
  { rewrite <- Zle_Qle. lia. }
  set (Rv := round_half_even (x / 2 ^ (k - 52))) in *.
  rewrite E2.
  apply Qle_lt_trans with (inject_Z (M - 1) * / inject_Z S).
  - apply Qmult_le_compat_r; [exact Y' |].
    apply Qlt_le_weak. apply Qinv_lt_0_compat. exact PSq.
  - unfold M, Z.sub. rewrite inject_Z_plus, inject_Z_mult, inject_Z_plus, inject_Z_opp.
    change (inject_Z 1) with 1.
    apply Qlt_shift_div_r; [exact PSq |]. Lqa.lra.
Qed.

(** [int(a / b)] for integers is the quotient truncated, as long as the
    dividend is below [2 ^ 53] in absolute value. *)
Lemma int_of_nearest_quotient (a b : Z) :
  (Z.abs a < 2 ^ 53)%Z -> b <> 0%Z ->
  - 2 ^ 1024 < nearest (inject_Z a / inject_Z b) /\
  nearest (inject_Z a / inject_Z b) < 2 ^ 1024 /\
  Py.int_of (nearest (inject_Z a / inject_Z b)) = Z.quot a b.
Proof.
  intros Ha Hb.
  assert (Main : forall a b : Z, (0 < a < 2 ^ 53)%Z -> (0 < b)%Z ->
            0 <= nearest (inject_Z a / inject_Z b) /\
            nearest (inject_Z a / inject_Z b) < 2 ^ 1024 /\
            Py.int_of (nearest (inject_Z a / inject_Z b)) = Z.quot a b).
  { clear. intros a b Ha Hb.
    destruct (nearest_quotient_pos a b Ha Hb) as [L U].
    assert (Hq0 : (0 <= a / b)%Z) by (apply Z.div_pos; lia).
    assert (Hq53 : (a / b < 2 ^ 53)%Z).
    { apply Z.le_lt_trans with a; [| lia].
      apply Z.div_le_upper_bound; nia. }
    assert (Q0 : 0 <= inject_Z (a / b)).
    { change 0 with (inject_Z 0). rewrite <- Zle_Qle. exact Hq0. }
    split; [Lqa.lra |]. split.
    - assert (F : inject_Z (a / b + 1) < 2 ^ 1024).
      { rewrite (pow2_Z 1024) by lia. rewrite <- Zlt_Qlt.
        apply Z.le_lt_trans with (2 ^ 53)%Z; [lia |]. apply Z.pow_lt_mono_r; lia. }
      rewrite inject_Z_plus in F. change (inject_Z 1) with 1 in F. Lqa.lra.
    - rewrite Z.quot_div_nonneg by lia. apply int_of_between; assumption. }
  assert (P1024 : 0 < 2 ^ 1024) by apply pow2_pos.
  assert (Zero : forall b : Z, nearest (inject_Z 0 / inject_Z b) = 0).
  { intro c. apply nearest_zero. unfold Qdiv. ring. }
  destruct (Z.lt_trichotomy a 0) as [An | [A0 | Ap]];
    destruct (Z.lt_trichotomy b 0) as [Bn | [B0 | Bp]]; try contradiction.
  - (* both negative *)
    destruct (Main (- a)%Z (- b)%Z ltac:(lia) ltac:(lia)) as [M0 [M1 M2]].
    assert (E : inject_Z a / inject_Z b == inject_Z (- a) / inject_Z (- b)).
    { rewrite !inject_Z_opp. field.
      change 0 with (inject_Z 0). rewrite inject_Z_injective. lia. }
    rewrite (nearest_comp _ _ E), M2, Z.quot_opp_opp by lia.
    repeat split; Lqa.lra.
  - (* negative over positive *)
    destruct (Main (- a)%Z b ltac:(lia) ltac:(lia)) as [M0 [M1 M2]].
    assert (E : inject_Z a / inject_Z b == - (inject_Z (- a) / inject_Z b)).
    { rewrite !inject_Z_opp. field.
      change 0 with (inject_Z 0). rewrite inject_Z_injective. lia. }
    rewrite (nearest_comp _ _ E).
    pose proof (nearest_opp (inject_Z (- a) / inject_Z b)) as O.
    split; [Lqa.lra |]. split; [Lqa.lra |].
    rewrite (int_of_comp _ _ O).
    rewrite int_of_opp, M2, Z.quot_opp_l by lia. lia.
  - subst a. rewrite Zero, Z.quot_0_l by lia. repeat split; Lqa.lra.
  - subst a. rewrite Zero, Z.quot_0_l by lia. repeat split; Lqa.lra.
  - (* positive over negative *)
    destruct (Main a (- b)%Z ltac:(lia) ltac:(lia)) as [M0 [M1 M2]].
    assert (E : inject_Z a / inject_Z b == - (inject_Z a / inject_Z (- b))).
    { rewrite !inject_Z_opp. field.
      change 0 with (inject_Z 0). rewrite inject_Z_injective. lia. }
    rewrite (nearest_comp _ _ E).
    pose proof (nearest_opp (inject_Z a / inject_Z (- b))) as O.
    split; [Lqa.lra |]. split; [Lqa.lra |].
    rewrite (int_of_comp _ _ O).
    rewrite int_of_opp, M2, Z.quot_opp_r by lia. lia.
  - destruct (Main a b ltac:(lia) ltac:(lia)) as [M0 [M1 M2]].
    repeat split; try Lqa.lra. exact M2.
Qed.

(** [int(a / b)] on integers is the quotient truncated toward zero when
    the dividend is below [2 ^ 53] in absolute value. *)
Lemma int_div_exact (a b : Z) :
  (Z.abs a < 2 ^ 53)%Z ->
  Py.int_div a b =
    if (b =? 0)%Z then Exn.Raise Exn.ZeroDivisionError else Exn.Ok (Z.quot a b).
Proof.
  intro Ha. unfold Py.int_div, Py.true_div.
  destruct (Z.eqb_spec b 0) as [B0 | BN]; [reflexivity |].
  destruct (int_of_nearest_quotient a b Ha BN) as [L [U E]].
  rewrite (binary64_fin _ L U). cbn [Exn.bind]. rewrite E. reflexivity.
Qed.

(** *** Values that are doubles, and values that stay finite *)

Lemma nearest_red x : Qred (nearest x) = nearest x.
Proof.
  unfold nearest. destruct (Qeq_bool x 0); [reflexivity |].
  apply Qred_complete. apply Qred_correct.
Qed.

Lemma nearest_eq x y : nearest x == y -> nearest x = Qred y.
Proof. intro H. rewrite <- nearest_red. apply Qred_complete. exact H. Qed.

Lemma Qred_inject_Z (n : Z) : Qred (inject_Z n) = inject_Z n.
Proof.
  unfold Qred, inject_Z.
  pose proof (Z.ggcd_gcd n 1) as G. pose proof (Z.ggcd_correct_divisors n 1) as D.
  destruct (Z.ggcd n 1) as [g [aa bb]]. cbn [fst snd] in *.
  rewrite Z.gcd_1_r in G. subst g. destruct D as [Da Db].
  rewrite Z.mul_1_l in Da, Db. rewrite <- Da, <- Db. reflexivity.
Qed.

Lemma nearest_Z_eq (n : Z) : (Z.abs n < 2 ^ 53)%Z -> nearest (inject_Z n) = inject_Z n.
Proof.
  intro H. rewrite (nearest_eq _ _ (nearest_Z n H)). apply Qred_inject_Z.
Qed.

Lemma float_of_int_exact (n : Z) :
  (Z.abs n < 2 ^ 53)%Z -> Py.float_of_int n = Exn.Ok (inject_Z n).
Proof.
  intro H. unfold Py.float_of_int.
  pose proof (small_is_finite (Z.abs n) ltac:(lia)) as F.
  pose proof (nearest_Z n H) as E.
  assert (A : - inject_Z (Z.abs n) <= inject_Z n <= inject_Z (Z.abs n)).
  { rewrite <- inject_Z_opp, <- !Zle_Qle. lia. }
  rewrite binary64_fin by Lqa.lra. rewrite nearest_Z_eq by exact H. reflexivity.
Qed.

Lemma float_divisor_exact (n : Z) :
  (Z.abs n < 2 ^ 53)%Z ->
  Py.float_divisor n =
    if (n =? 0)%Z then Exn.Raise Exn.ZeroDivisionError else Exn.Ok (inject_Z n).
Proof.
  intro H. unfold Py.float_divisor. rewrite float_of_int_exact by exact H.
  cbn [Exn.bind]. destruct (Z.eqb_spec n 0) as [-> | N]; [reflexivity |].
  destruct (Qeq_bool (inject_Z n) 0) eqn:E; [| reflexivity].
  apply Qeq_bool_iff in E. exfalso. apply N.
  unfold Qeq in E. cbn [inject_Z Qnum Qden] in E. lia.
Qed.

Lemma nearest_within_pow2 x (k : Z) :
  (-1074 <= k)%Z -> Qabs x <= 2 ^ k -> - 2 ^ k <= nearest x /\ nearest x <= 2 ^ k.
Proof.
  intros Hk Hx. apply Qabs_Qle_condition in Hx. destruct Hx as [Hl Hu].
  pose proof (nearest_exact 1 k ltac:(lia) Hk) as E.
  pose proof (nearest_exact (-1) k ltac:(lia) Hk) as E'.
  split.
  - apply Qle_trans with (nearest (inject_Z (-1) * 2 ^ k)).
    + rewrite E'. change (inject_Z (-1)) with (-(1)). Lqa.lra.
    + apply nearest_mono. change (inject_Z (-1)) with (-(1)). Lqa.lra.
  - apply Qle_trans with (nearest (inject_Z 1 * 2 ^ k)).
    + apply nearest_mono. change (inject_Z 1) with 1. Lqa.lra.
    + rewrite E. change (inject_Z 1) with 1. Lqa.lra.
Qed.

Lemma binary64_within_pow2 x (k : Z) :
  (-1074 <= k < 1024)%Z -> Qabs x <= 2 ^ k -> binary64 x = Fin (nearest x).
Proof.
  intros Hk Hx. destruct (nearest_within_pow2 x k ltac:(lia) Hx) as [L U].
  pose proof (pow2_lt k 1024 ltac:(lia)).
  apply binary64_fin; Lqa.lra.
Qed.

Lemma Qabs_quotient_le (a b : Z) :
  b <> 0%Z -> Qabs (inject_Z a / inject_Z b) <= inject_Z (Z.abs a).
Proof.
  intro Hb. unfold Qdiv. rewrite Qabs_Qmult, Qabs_Qinv.
  change (Qabs (inject_Z a)) with (inject_Z (Z.abs a)).
  change (Qabs (inject_Z b)) with (inject_Z (Z.abs b)).
  assert (B : 1 <= inject_Z (Z.abs b)).
  { change 1 with (inject_Z 1). rewrite <- Zle_Qle. lia. }
  assert (A : 0 <= inject_Z (Z.abs a)).
  { change 0 with (inject_Z 0). rewrite <- Zle_Qle. lia. }
  apply Qle_shift_div_r; [Lqa.lra |]. Lqa.nra.
Qed.

(** A quotient of integers is a float as long as the dividend is below
    [2 ^ 1023]. *)
Lemma true_div_finite (a b : Z) (k : Z) :
  b <> 0%Z -> (0 <= k < 1024)%Z -> (Z.abs a <= 2 ^ k)%Z ->
  Py.true_div a b = Exn.Ok (nearest (inject_Z a / inject_Z b)).
Proof.
  intros Hb Hk Ha. unfold Py.true_div.
  destruct (Z.eqb_spec b 0); [contradiction |].
  rewrite (binary64_within_pow2 _ k); [reflexivity | lia |].
  apply Qle_trans with (inject_Z (Z.abs a)); [apply Qabs_quotient_le; exact Hb |].
  rewrite pow2_Z by lia. rewrite <- Zle_Qle. exact Ha.
Qed.

End Doubles.

(** ** decide.py: the threshold ladder *)

Section DecideLadder.
Import Py Decide.

Definition ultrasonic_ok (snr_db per : pyfloat) : Prop :=
  ge snr_db (Fin 20) /\ le per (Fin 0.05).

Definition audible_ok (snr_db per : pyfloat) : Prop :=
  ge snr_db (Fin 10) /\ le per (Fin 0.20).

Lemma ultrasonic_guard snr_db per :
  geb snr_db ULTRASONIC_SNR_THRESHOLD && leb per ULTRASONIC_PER_THRESHOLD = true
  <-> ultrasonic_ok snr_db per.
Proof.
  unfold ultrasonic_ok. rewrite andb_true_iff, py_geb_ge, py_leb_le. reflexivity.
Qed.

Lemma audible_guard snr_db per :
  geb snr_db AUDIBLE_SNR_THRESHOLD && leb per AUDIBLE_PER_THRESHOLD = true
  <-> audible_ok snr_db per.
Proof.
  unfold audible_ok. rewrite andb_true_iff, py_geb_ge, py_leb_le. reflexivity.
Qed.

Lemma ultrasonic_ok_audible_ok snr_db per :
  ultrasonic_ok snr_db per -> audible_ok snr_db per.
Proof.
  intros [Hs Hp]. split.
  - unfold ge in *. apply py_le_trans with (Fin 20); [simpl; Lqa.lra | exact Hs].
  - apply py_le_trans with (Fin 0.05); [exact Hp | simpl; Lqa.lra].
Qed.

Lemma decide_mode_cases snr_db per :
  (ultrasonic_ok snr_db per /\
   decide_mode snr_db per =
     {| d_mode := ultrasonic; freq0_hz := Some 18000%Z; freq1_hz := Some 20000%Z;
        baud_rate := Some 150%Z;
        reason := Excellent_ultrasonic_channel snr_db per;
        confidence := min (Fin 1) (div_pos snr_db 40) |}) \/
  (~ ultrasonic_ok snr_db per /\ audible_ok snr_db per /\
   decide_mode snr_db per =
     {| d_mode := audible; freq0_hz := Some 1200%Z; freq1_hz := Some 2400%Z;
        baud_rate := Some 300%Z;
        reason := Audible_fallback snr_db per;
        confidence := min (Fin 1) (div_pos snr_db 30) |}) \/
  (~ ultrasonic_ok snr_db per /\ ~ audible_ok snr_db per /\
   decide_mode snr_db per =
     {| d_mode := file; freq0_hz := None; freq1_hz := None; baud_rate := None;
        reason := File_mode_no_audio snr_db per;
        confidence := Fin 1 |}).
Proof.
  unfold decide_mode.
  destruct (geb snr_db ULTRASONIC_SNR_THRESHOLD && leb per ULTRASONIC_PER_THRESHOLD)
    eqn:Hu.
  - left. split; [apply ultrasonic_guard; exact Hu | reflexivity].
  - assert (Hnu : ~ ultrasonic_ok snr_db per).
    { intro H. apply ultrasonic_guard in H. congruence. }
    destruct (geb snr_db AUDIBLE_SNR_THRESHOLD && leb per AUDIBLE_PER_THRESHOLD)
      eqn:Ha.
    + right; left.
      split; [exact Hnu | split; [apply audible_guard; exact Ha | reflexivity]].
    + right; right. split; [exact Hnu | split; [| reflexivity]].
      intro H. apply audible_guard in H. congruence.
Qed.

(** C3.  The mode is ultrasonic (18000, 20000, 150 baud, confidence
    min(1, snr/40)) exactly when snr >= 20.0 and per <= 0.05; failing that
    it is audible (1200, 2400, 300 baud, confidence min(1, snr/30)) exactly
    when snr >= 10.0 and per <= 0.20; failing both it is file with
    confidence 1.0.  The four sample decisions and the two inclusive
    boundaries come out as listed. *)
Theorem decide_mode_ladder :
  (forall snr_db per,
     (d_mode (decide_mode snr_db per) = ultrasonic <-> ultrasonic_ok snr_db per) /\
     (d_mode (decide_mode snr_db per) = audible <->
        ~ ultrasonic_ok snr_db per /\ audible_ok snr_db per) /\
     (d_mode (decide_mode snr_db per) = file <->
        ~ ultrasonic_ok snr_db per /\ ~ audible_ok snr_db per) /\
     (d_mode (decide_mode snr_db per) = ultrasonic ->
        freq0_hz (decide_mode snr_db per) = Some 18000%Z /\
        freq1_hz (decide_mode snr_db per) = Some 20000%Z /\
        baud_rate (decide_mode snr_db per) = Some 150%Z /\
        confidence (decide_mode snr_db per) = min (Fin 1) (div_pos snr_db 40)) /\
     (d_mode (decide_mode snr_db per) = audible ->
        freq0_hz (decide_mode snr_db per) = Some 1200%Z /\
        freq1_hz (decide_mode snr_db per) = Some 2400%Z /\
        baud_rate (decide_mode snr_db per) = Some 300%Z /\
        confidence (decide_mode snr_db per) = min (Fin 1) (div_pos snr_db 30)) /\
     (d_mode (decide_mode snr_db per) = file ->
        freq0_hz (decide_mode snr_db per) = None /\
        freq1_hz (decide_mode snr_db per) = None /\
        baud_rate (decide_mode snr_db per) = None /\
        confidence (decide_mode snr_db per) = Fin 1)) /\
  d_mode (decide_mode (Fin 25.0) (Fin 0.02)) = ultrasonic /\
  d_mode (decide_mode (Fin 15.0) (Fin 0.10)) = audible /\
  d_mode (decide_mode (Fin 8.0) (Fin 0.02)) = file /\
  d_mode (decide_mode (Fin 25.0) (Fin 0.25)) = file /\
  d_mode (decide_mode (Fin 20.0) (Fin 0.05)) = ultrasonic /\
  d_mode (decide_mode (Fin 10.0) (Fin 0.20)) = audible.
Proof.
  split; [| repeat split; reflexivity].
  intros snr_db per.
  destruct (decide_mode_cases snr_db per)
    as [[Hu E] | [[Hnu [Ha E]] | [Hnu [Hna E]]]]; rewrite E; simpl;
    intuition (try discriminate; try reflexivity).
Qed.

Lemma decide_mode_rank snr_db per :
  rank (d_mode (decide_mode snr_db per)) =
    if geb snr_db (Fin 20) && leb per (Fin 0.05) then 2%nat
    else if geb snr_db (Fin 10) && leb per (Fin 0.20) then 1%nat
    else 0%nat.
Proof.
  unfold decide_mode, ULTRASONIC_SNR_THRESHOLD, ULTRASONIC_PER_THRESHOLD,
    AUDIBLE_SNR_THRESHOLD, AUDIBLE_PER_THRESHOLD.
  destruct (geb snr_db (Fin 20) && leb per (Fin 0.05)); [reflexivity |].
  destruct (geb snr_db (Fin 10) && leb per (Fin 0.20)); reflexivity.
Qed.

Lemma geb_mono a b c : le a b -> geb a c = true -> geb b c = true.
Proof.
  intros Hab Hac. apply py_geb_ge. apply py_geb_ge in Hac. unfold ge in *.
  eapply py_le_trans; eassumption.
Qed.

Lemma leb_anti a b c : le a b -> leb b c = true -> leb a c = true.
Proof.
  intros Hab Hbc. apply py_leb_le. apply py_leb_le in Hbc.
  eapply py_le_trans; eassumption.
Qed.

(** C4.  With the packet error rate fixed, a higher SNR never gives a lower
    mode in the order file < audible < ultrasonic; with the SNR fixed, a
    lower packet error rate never gives a lower mode. *)
Theorem decide_mode_monotone (snr1 snr2 per1 per2 : pyfloat) :
  ge snr1 snr2 -> le per1 per2 ->
  (forall per, mode_le (d_mode (decide_mode snr2 per)) (d_mode (decide_mode snr1 per))) /\
  (forall snr_db,
     mode_le (d_mode (decide_mode snr_db per2)) (d_mode (decide_mode snr_db per1))).
Proof.
  intros Hs Hp. unfold mode_le. split.
  - intro per. rewrite !decide_mode_rank.
    pose proof (geb_mono _ _ (Fin 20) Hs) as M20.
    pose proof (geb_mono _ _ (Fin 10) Hs) as M10.
    destruct (geb snr2 (Fin 20)); [rewrite M20 by reflexivity | clear M20];
      (destruct (geb snr2 (Fin 10)); [rewrite M10 by reflexivity | clear M10]);
      destruct (leb per (Fin 0.05)); destruct (leb per (Fin 0.20));
      try destruct (geb snr1 (Fin 20)); try destruct (geb snr1 (Fin 10));
      cbn [andb]; lia.
  - intro snr_db. rewrite !decide_mode_rank.
    pose proof (leb_anti _ _ (Fin 0.05) Hp) as M5.
    pose proof (leb_anti _ _ (Fin 0.20) Hp) as M2.
    destruct (leb per2 (Fin 0.05)); [rewrite M5 by reflexivity | clear M5];
      (destruct (leb per2 (Fin 0.20)); [rewrite M2 by reflexivity | clear M2]);
      destruct (geb snr_db (Fin 20)); destruct (geb snr_db (Fin 10));
      try destruct (leb per1 (Fin 0.05)); try destruct (leb per1 (Fin 0.20));
      cbn [andb]; lia.
Qed.

Lemma decide_mode_monotone_witness :
  ge (Fin 25) (Fin 15) /\ le (Fin 0.02) (Fin 0.10) /\
  mode_le (d_mode (decide_mode (Fin 15) (Fin 0.02)))
          (d_mode (decide_mode (Fin 25) (Fin 0.02))) /\
  mode_le (d_mode (decide_mode (Fin 25) (Fin 0.10)))
          (d_mode (decide_mode (Fin 25) (Fin 0.02))).
Proof.
  assert (Hs : ge (Fin 25) (Fin 15)) by (apply py_geb_ge; reflexivity).
  assert (Hp : le (Fin 0.02) (Fin 0.10)) by (apply py_leb_le; reflexivity).
  destruct (decide_mode_monotone (Fin 25) (Fin 15) (Fin 0.02) (Fin 0.10) Hs Hp)
    as [H1 H2].
  repeat split; [exact Hs | exact Hp | apply H1 | apply H2].
Defined.

End DecideLadder.

(** ** Library facts: byte strings and the digest *)

Section BytesFacts.
Import Bytes.

Lemma length_to_be n x : length (to_be n x) = n.
Proof.
  revert x. induction n as [| n IH]; intro x; simpl; [reflexivity |].
  rewrite length_app, IH. simpl. lia.
Qed.

Lemma length_flat_map_const {A B : Type} (f : A -> list B) (k : nat) (l : list A) :
  (forall x, length (f x) = k) -> length (flat_map f l) = (length l * k)%nat.
Proof.
  intro Hk. induction l as [| x l IH]; simpl; [reflexivity |].
  rewrite length_app, Hk, IH. reflexivity.
Qed.

Lemma length_round st kw : length st = 8%nat -> length (Hashlib.round st kw) = 8%nat.
Proof.
  intro H. do 9 (destruct st as [| ? st]; try discriminate H). reflexivity.
Qed.

Lemma length_fold_round kws st :
  length st = 8%nat -> length (fold_left Hashlib.round kws st) = 8%nat.
Proof.
  revert st. induction kws as [| kw kws IH]; intros st H; simpl; [exact H |].
  apply IH. apply length_round. exact H.
Qed.

Lemma length_compress st block :
  length st = 8%nat -> length (Hashlib.compress st block) = 8%nat.
Proof.
  intro H. unfold Hashlib.compress.
  rewrite length_map, length_combine, length_fold_round, H by exact H. reflexivity.
Qed.

(** A SHA-256 digest is 32 bytes long. *)
Lemma length_sha256 msg : length (Hashlib.sha256 msg) = 32%nat.
Proof.
  unfold Hashlib.sha256.
  rewrite (length_flat_map_const _ 4%nat) by (intro; apply length_to_be).
  assert (H : forall blocks st, length st = 8%nat ->
            length (fold_left Hashlib.compress blocks st) = 8%nat).
  { induction blocks as [| b bs IH]; intros st Hst; simpl; [exact Hst |].
    apply IH. apply length_compress. exact Hst. }
  rewrite H by reflexivity. reflexivity.
Qed.

End BytesFacts.

(** ** send.py: the Nyquist guard and the layout of the batch *)

Section SendFacts.
Import Bytes Exn Send.
Local Opaque Hashlib.sha256.

Lemma length_emit_samples s inc phase :
  length (fst (emit_samples s inc phase)) = s.
Proof.
  revert phase. induction s as [| s IH]; intro phase; simpl; [reflexivity |].
  specialize (IH (phase + inc)%R).
  destruct (emit_samples s inc (phase + inc)) as [rest p]. simpl in *. lia.
Qed.

Lemma length_emit_bits f0 f1 sr spb bits phase :
  length (emit_bits f0 f1 sr spb bits phase) = (length bits * spb)%nat.
Proof.
  revert phase. induction bits as [| bit rest IH]; intro phase; simpl; [reflexivity |].
  pose proof (length_emit_samples spb (phase_inc f0 f1 sr bit) phase) as Hc.
  destruct (emit_samples spb (phase_inc f0 f1 sr bit) phase) as [chunk p].
  rewrite length_app, IH. simpl in Hc. lia.
Qed.

Lemma length_frame_byte b : length (frame_byte b) = 10%nat.
Proof. reflexivity. Qed.

Lemma length_frame_bits data :
  length (frame_bits data) = (48 + 10 * length data)%nat.
Proof.
  unfold frame_bits. rewrite !length_app.
  rewrite (length_flat_map_const _ 10%nat) by apply length_frame_byte.
  rewrite repeat_length. change (length preamble) with 32%nat. lia.
Qed.

Lemma pack_be16_ok x bs : pack_be16 x = Ok bs -> (0 <= x <= 65535)%Z /\ bs = to_be 2 x.
Proof.
  unfold pack_be16. destruct (Z.leb_spec 0 x); destruct (Z.leb_spec x 65535);
    simpl; intro E; inversion E; split; [lia | reflexivity].
Qed.

Lemma pack_be16_in_range x : (0 <= x <= 65535)%Z -> pack_be16 x = Ok (to_be 2 x).
Proof.
  intro H. unfold pack_be16.
  destruct (Z.leb_spec 0 x); destruct (Z.leb_spec x 65535); simpl; try lia; reflexivity.
Qed.

Lemma generate_calibration_packet_ok seq :
  (0 <= seq <= 65535)%Z -> generate_calibration_packet seq = Ok (frame_of seq).
Proof.
  intro H. unfold generate_calibration_packet, frame_of.
  rewrite (pack_be16_in_range seq H). cbn [bind].
  rewrite !length_app, length_sha256, length_to_be.
  change (Z.of_nat _) with 56%Z. rewrite pack_be16_in_range by lia.
  reflexivity.
Qed.

Lemma generate_calibration_packet_raises seq :
  ~ (0 <= seq <= 65535)%Z -> generate_calibration_packet seq = Raise struct_error.
Proof.
  intro H. unfold generate_calibration_packet.
  assert (E : pack_be16 seq = Raise struct_error).
  { unfold pack_be16.
    destruct (Z.leb_spec 0 seq); destruct (Z.leb_spec seq 65535);
      simpl; try lia; reflexivity. }
  rewrite E. reflexivity.
Qed.

Lemma length_frame_of seq : length (frame_of seq) = 58%nat.
Proof.
  unfold frame_of. rewrite !length_app, length_sha256, !length_to_be. reflexivity.
Qed.

Lemma builtin_max_Qmax a b : (Py.builtin_max a b == Qmax a b)%Q.
Proof.
  unfold Py.builtin_max. destruct (Py.Qltb a b) eqn:E.
  - apply Qltb_lt in E. symmetry. apply Q.max_r. apply Qlt_le_weak. exact E.
  - apply Qltb_ge in E. symmetry. apply Q.max_l. exact E.
Qed.

(** The Nyquist test of [main], as an inequality. *)
Lemma nyquist_test a :
  Py.Qltb (inject_Z (sample_rate a)) (Py.builtin_max (freq0 a) (freq1 a) * 2) = true
  <-> (inject_Z (sample_rate a) < 2 * Qmax (freq0 a) (freq1 a))%Q.
Proof.
  rewrite Qltb_lt, builtin_max_Qmax.
  rewrite (Qmult_comm (Qmax (freq0 a) (freq1 a)) 2). reflexivity.
Qed.


Lemma samples_per_bit_ok a spb :
  Py.int_div (sample_rate a) (baud a) = Ok spb -> samples_per_bit a = spb.
Proof. unfold samples_per_bit. intros ->. reflexivity. Qed.

Lemma gap_size_ok a gap : gap_sample_count a = Ok gap -> gap_size a = gap.
Proof. unfold gap_size. intros ->. reflexivity. Qed.

(** The modulator, one exception after the other. *)
Lemma modulate_cases f0 f1 sr data baud_rate :
  modulate_afsk_ultrasonic f0 f1 sr data baud_rate =
    match Py.int_div sr baud_rate with
    | Raise e => Raise e
    | Ok spb =>
        if (spb <? 0)%Z then Raise (ValueError negative_dimensions)
        else match Py.float_divisor sr with
             | Raise e => Raise e
             | Ok _ => Ok (emit_bits f0 f1 sr (Z.to_nat spb) (frame_bits data) 0%R)
             end
    end.
Proof.
  unfold modulate_afsk_ultrasonic.
  destruct (Py.int_div sr baud_rate) as [spb | e]; [| reflexivity]. cbn [bind].
  unfold np_zeros. rewrite length_frame_bits.
  destruct (Z.ltb_spec spb 0);
    destruct (Z.ltb_spec (Z.of_nat (48 + 10 * length data) * spb) 0); try nia;
    cbn [bind]; [reflexivity |].
  destruct (Py.float_divisor sr); reflexivity.
Qed.

Lemma modulate_ok a data spb d :
  Py.int_div (sample_rate a) (baud a) = Ok spb -> (0 <= spb)%Z ->
  Py.float_divisor (sample_rate a) = Ok d ->
  modulate_afsk_ultrasonic (freq0 a) (freq1 a) (sample_rate a) data (baud a) =
    Ok (emit_bits (freq0 a) (freq1 a) (sample_rate a) (Z.to_nat (samples_per_bit a))
          (frame_bits data) 0%R).
Proof.
  intros Hd Hs Hf. rewrite modulate_cases, Hd, Hf, (samples_per_bit_ok a spb Hd).
  destruct (Z.ltb_spec spb 0); [lia | reflexivity].
Qed.

Lemma batch_ok a gap seqs all sizes spb d :
  Py.int_div (sample_rate a) (baud a) = Ok spb -> (0 <= spb)%Z ->
  Py.float_divisor (sample_rate a) = Ok d ->
  Forall (fun seq => 0 <= seq <= 65535)%Z seqs ->
  batch a gap seqs all sizes =
    Ok (all ++ concat (map (fun seq => packet_samples a seq ++ gap) seqs),
        sizes ++ map (fun _ => 58%Z) seqs).
Proof.
  intros Hd Hs Hf Hseqs. revert all sizes.
  induction Hseqs as [| seq rest Hseq Hrest IH]; intros all sizes; simpl.
  - rewrite !app_nil_r. reflexivity.
  - rewrite (generate_calibration_packet_ok seq Hseq). cbn [bind].
    rewrite (modulate_ok a _ spb d Hd Hs Hf). cbn [bind].
    rewrite IH, length_frame_of. fold (packet_samples a seq).
    rewrite <- !app_assoc. reflexivity.
Qed.

Lemma range_bounds n : Forall (fun seq => 0 <= seq < n)%Z (range n).
Proof.
  unfold range. apply Forall_forall. intros x Hx.
  apply in_map_iff in Hx. destruct Hx as [k [<- Hk]].
  apply in_seq in Hk. lia.
Qed.

Lemma length_range n : length (range n) = Z.to_nat n.
Proof. unfold range. rewrite length_map, length_seq. reflexivity. Qed.



Lemma float_divisor_nonzero n d : Py.float_divisor n = Ok d -> n <> 0%Z.
Proof.
  intros H E. subst n. vm_compute in H. discriminate.
Qed.

Lemma build_ok a spb d gap :
  Py.int_div (sample_rate a) (baud a) = Ok spb -> (0 <= spb)%Z ->
  Py.float_divisor (sample_rate a) = Ok d ->
  (1 <= packets a <= 65536)%Z ->
  gap_sample_count a = Ok gap -> (0 <= gap)%Z ->
  build a = Ok (batch_samples a, 58%Z).
Proof.
  intros Hd Hs Hf Hp Hg Hg0. unfold build. rewrite Hg. cbn [bind]. unfold np_zeros.
  destruct (Z.ltb_spec gap 0); [lia |]. cbn [bind].
  rewrite (batch_ok a _ _ _ _ spb d Hd Hs Hf).
  - cbn [bind app]. unfold total_duration.
    destruct (Z.eqb_spec (sample_rate a) 0) as [E | _].
    { exfalso. exact (float_divisor_nonzero _ _ Hf E). }
    cbn [bind]. unfold batch_samples. rewrite (gap_size_ok a gap Hg).
    destruct (range (packets a)) as [| s0 rest] eqn:E.
    + pose proof (length_range (packets a)) as L. rewrite E in L. simpl in L. lia.
    + reflexivity.
  - eapply Forall_impl; [| apply range_bounds]. simpl. intros. lia.
Qed.

Lemma main_passes_nyquist a w :
  (2 * Qmax (freq0 a) (freq1 a) <= inject_Z (sample_rate a))%Q ->
  main a w =
    match build a with
    | Raise e =>
        ({| success := false; error := Some (Exception e);
            packet_size_bytes := None; total_samples := None |}, None)
    | Ok (all_samples, size0) =>
        let sized (raised : option send_error) :=
          {| success := match raised with None => true | Some _ => false end;
             error := raised;
             packet_size_bytes := Some size0;
             total_samples := Some (Z.of_nat (length all_samples)) |} in
        match Py.given (output a) with
        | Some path =>
            (sized (write_wav_raises w path all_samples (sample_rate a)),
             Some (write_wav path all_samples (sample_rate a)))
        | None =>
            match sounddevice w with
            | Some play =>
                (sized (option_map Exception_text (play all_samples (sample_rate a))),
                 Some (sd_play all_samples (sample_rate a)))
            | None => (sized (Some sounddevice_not_installed), None)
            end
        end
    end.
Proof.
  intro H. unfold main.
  destruct (Py.Qltb (inject_Z (sample_rate a))
              (Py.builtin_max (freq0 a) (freq1 a) * 2)) eqn:E; [| reflexivity].
  apply nyquist_test in E. exfalso. apply (Qlt_not_le _ _ E H).
Qed.

Lemma given_path path : path <> ""%string -> Py.given (Some path) = Some path.
Proof. intro H. destruct path; [exfalso; apply H; reflexivity | reflexivity]. Qed.

Lemma main_emits_batch a w spb d gap :
  (2 * Qmax (freq0 a) (freq1 a) <= inject_Z (sample_rate a))%Q ->
  Py.int_div (sample_rate a) (baud a) = Ok spb -> (0 <= spb)%Z ->
  Py.float_divisor (sample_rate a) = Ok d ->
  (1 <= packets a <= 65536)%Z ->
  gap_sample_count a = Ok gap -> (0 <= gap)%Z ->
  has_sink a w ->
  emitted (main a w) = Some (batch_samples a) /\
  total_samples (fst (main a w)) = Some (Z.of_nat (length (batch_samples a))).
Proof.
  intros Hn Hd Hs Hf Hp Hg Hg0 Hout.
  rewrite (main_passes_nyquist a w Hn), (build_ok a spb d gap Hd Hs Hf Hp Hg Hg0).
  unfold emitted. cbv zeta.
  destruct (Py.given (output a)) as [path |] eqn:Eo; [split; reflexivity |].
  destruct (sounddevice w) as [play |] eqn:Esd; [split; reflexivity |].
  exfalso. destruct Hout as [[path [E Hne]] | Hsd]; [| congruence].
  rewrite E, (given_path path Hne) in Eo. discriminate.
Qed.

(** C5.  When the sample rate is below twice the higher carrier, [main]
    reports failure with the sample-rate error and hands nothing to the
    sound device or to the WAV writer: no sample is synthesized. *)
Theorem nyquist_refusal a sd :
  (inject_Z (sample_rate a) < 2 * Qmax (freq0 a) (freq1 a))%Q ->
  main a sd =
    ({| success := false;
        error := Some (Sample_rate_too_low (sample_rate a)
                         (Py.builtin_max (freq0 a) (freq1 a)));
        packet_size_bytes := None;
        total_samples := None |}, None) /\
  emitted (main a sd) = None.
Proof.
  intro H. apply nyquist_test in H.
  assert (E : main a sd =
    ({| success := false;
        error := Some (Sample_rate_too_low (sample_rate a)
                         (Py.builtin_max (freq0 a) (freq1 a)));
        packet_size_bytes := None;
        total_samples := None |}, None)).
  { unfold main. rewrite H. reflexivity. }
  split; [exact E | rewrite E; reflexivity].
Qed.

Lemma nyquist_refusal_witness :
  (inject_Z (sample_rate args_32k) < 2 * Qmax (freq0 args_32k) (freq1 args_32k))%Q /\
  success (fst (main args_32k quiet_world)) = false /\
  emitted (main args_32k quiet_world) = None.
Proof.
  assert (H : (inject_Z (sample_rate args_32k)
               < 2 * Qmax (freq0 args_32k) (freq1 args_32k))%Q).
  { apply nyquist_test. vm_compute. reflexivity. }
  destruct (nyquist_refusal args_32k quiet_world H) as [E N].
  split; [exact H | split; [rewrite E; reflexivity | exact N]].
Defined.



Lemma quot_abs_le (a b : Z) : b <> 0%Z -> (Z.abs (Z.quot a b) <= Z.abs a)%Z.
Proof.
  intro Hb. rewrite <- Z.quot_abs by exact Hb.
  rewrite Z.quot_div_nonneg by lia.
  apply Z.div_le_upper_bound; nia.
Qed.









(** The gap is the truncation of the quotient the float operations
    compute, not of the exact quotient: at 100 kHz a gap of 20.4 ms is
    2039 samples, although [100000 * 20.4 / 1000] is 2040; at 48 kHz a gap
    of -0.020833333333333332 ms is -1 sample, which np.zeros refuses,
    although the exact quotient truncates to 0. *)
Example gap_in_double_precision :
  let a := {| freq0 := 18000; freq1 := 20000; baud := 150; sample_rate := 100000;
              packets := 10; gap_ms := 20.4; output := None |} in
  let b := {| freq0 := 18000; freq1 := 20000; baud := 150; sample_rate := 48000;
              packets := 10;
              gap_ms := - (20833333333333332 # 1000000000000000000);
              output := None |} in
  gap_sample_count a = Ok 2039%Z /\
  Py.int_of (inject_Z (sample_rate a) * gap_ms a / 1000) = 2040%Z /\
  gap_sample_count b = Ok (-1)%Z /\
  Py.int_of (inject_Z (sample_rate b) * gap_ms b / 1000) = 0%Z /\
  build b = Raise (ValueError negative_dimensions).
Proof. cbv zeta. repeat split; vm_compute; reflexivity. Qed.

End SendFacts.

(** ** recv.py: the scan loop of the packet extractor *)

Section ScanLoop.
Import Bytes Recv.

Lemma scan_loop_runs raw_data i packets :
  scan_run raw_data i packets (scan_loop raw_data i packets).
Proof.
  funelim (scan_loop raw_data i packets).
  - apply scan_run_end; assumption.
  - apply scan_run_break; assumption.
  - eapply scan_run_next; eauto.
Qed.

Lemma scan_step_cases raw_data i :
  match find raw_data CALIBRATION_MAGIC i with
  | None => scan_step raw_data i = scan_break
  | Some magic_idx =>
      (i <= magic_idx)%nat /\
      (scan_step raw_data i = scan_next (magic_idx + 1) None \/
       exists p body_length,
         (56 <= body_length)%nat /\
         (magic_idx + body_length <= length raw_data)%nat /\
         scan_step raw_data i = scan_next (magic_idx + body_length) (Some p))
  end.
Proof.
  unfold scan_step.
  destruct (find raw_data CALIBRATION_MAGIC i) as [magic_idx |] eqn:Hf;
    [| reflexivity].
  apply find_bounds in Hf. split; [lia |].
  destruct (Nat.ltb_spec magic_idx 2) as [Hm | Hm]; [left; reflexivity |].
  set (len := Z.to_nat (from_be (slice raw_data (magic_idx - 2) magic_idx))).
  destruct (Nat.ltb_spec (length raw_data) (magic_idx - 2 + 2 + len)) as [He | He];
    [left; reflexivity |].
  pose proof (length_slice raw_data (magic_idx - 2 + 2) (magic_idx - 2 + 2 + len)) as Hb.
  destruct (Nat.ltb_spec
              (length (slice raw_data (magic_idx - 2 + 2) (magic_idx - 2 + 2 + len))) 56)
    as [Hl | Hl]; [left; reflexivity |].
  right. eexists. exists len.
  replace (magic_idx - 2 + 2 + len)%nat with (magic_idx + len)%nat in * by lia.
  split; [lia |]. split; [lia |]. reflexivity.
Qed.

(** C10.  Every turn of the scan loop either leaves the loop (no further
    magic) or moves the cursor strictly forward, to one byte past the magic
    found when the candidate is rejected and past the packet body (at least
    56 bytes after the magic) when a packet is recorded; the cursor never
    passes the end of the data, and the loop reaches its result in a finite
    run on every byte stream. *)
Theorem extract_packets_terminates (raw_data : bytes) :
  (forall i,
     match find raw_data CALIBRATION_MAGIC i with
     | None => scan_step raw_data i = scan_break
     | Some magic_idx =>
         (i <= magic_idx)%nat /\
         (scan_step raw_data i = scan_next (magic_idx + 1) None \/
          exists p body_length,
            (56 <= body_length)%nat /\
            (magic_idx + body_length <= length raw_data)%nat /\
            scan_step raw_data i = scan_next (magic_idx + body_length) (Some p))
     end) /\
  (forall i i' found,
     scan_step raw_data i = scan_next i' found -> (i < i' <= length raw_data)%nat) /\
  scan_run raw_data 0 [] (extract_packets raw_data).
Proof.
  split; [intro i; apply scan_step_cases |].
  split; [intros i i' found; apply scan_step_advances |].
  apply scan_loop_runs.
Qed.

End ScanLoop.

(** ** recv.py: the packet error rate *)

Section PacketErrorRate.
Import Bytes Recv.

Lemma count_split (packets : list packet) :
  (count intact packets + count (fun p => negb (intact p)) packets
   = Z.of_nat (length packets))%Z.
Proof.
  unfold count. induction packets as [| p ps IH]; [reflexivity |].
  cbn [filter length]. destruct (intact p); cbn [negb length]; lia.
Qed.

Lemma count_nonneg c (packets : list packet) : (0 <= count c packets)%Z.
Proof. unfold count. lia. Qed.

Lemma round_half_even_le x (k : Z) :
  (x <= inject_Z k)%Q -> (Py.round_half_even x <= k)%Z.
Proof.
  intro H. unfold Py.round_half_even.
  assert (F : (Qfloor x <= k)%Z).
  { rewrite <- (Qfloor_Z k). apply Qfloor_resp_le. exact H. }
  destruct (Py.Qltb (x - inject_Z (Qfloor x)) (1 # 2)) eqn:E; [exact F |].
  apply Qltb_ge in E.
  assert (S : (Qfloor x < k)%Z).
  { destruct (Z.eq_dec (Qfloor x) k) as [Ek | Nk]; [| lia].
    exfalso. rewrite Ek in E. Lqa.lra. }
  destruct (Py.Qltb _ _); [lia |].
  destruct (Z.even _); lia.
Qed.

Lemma round_digits_nonneg x n : (0 <= x)%Q -> (0 <= Py.round_digits x n)%Q.
Proof.
  intro H. unfold Py.round_digits.
  assert (P : (0 < 10 ^ Z.of_nat n)%Z) by (apply Z.pow_pos_nonneg; lia).
  apply Qle_shift_div_l.
  - change 0%Q with (inject_Z 0). rewrite <- Zlt_Qlt. exact P.
  - rewrite Qmult_0_l. change 0%Q with (inject_Z 0). rewrite <- Zle_Qle.
    apply round_half_even_nonneg. apply Qmult_le_0_compat; [exact H |].
    change 0%Q with (inject_Z 0). rewrite <- Zle_Qle. lia.
Qed.

Lemma round_digits_le_1 x n : (x <= 1)%Q -> (Py.round_digits x n <= 1)%Q.
Proof.
  intro H. unfold Py.round_digits.
  assert (P : (0 < 10 ^ Z.of_nat n)%Z) by (apply Z.pow_pos_nonneg; lia).
  assert (PQ : (0 < inject_Z (10 ^ Z.of_nat n))%Q).
  { change 0%Q with (inject_Z 0). rewrite <- Zlt_Qlt. exact P. }
  apply Qle_shift_div_r; [exact PQ |].
  rewrite Qmult_1_l. rewrite <- Zle_Qle. apply round_half_even_le.
  rewrite <- (Qmult_1_l (inject_Z (10 ^ Z.of_nat n))) at 2.
  apply Qmult_le_compat_r; [exact H | apply Qlt_le_weak; exact PQ].
Qed.

Lemma exact_ratio_nonneg e x :
  (0 <= e)%Z -> (0 <= inject_Z e / inject_Z (Z.max x 1))%Q.
Proof.
  intro H. apply Qle_shift_div_l.
  - change 0%Q with (inject_Z 0). rewrite <- Zlt_Qlt. lia.
  - rewrite Qmult_0_l. change 0%Q with (inject_Z 0). rewrite <- Zle_Qle. exact H.
Qed.

Lemma exact_ratio_le_1 e x :
  (e <= Z.max x 1)%Z -> (inject_Z e / inject_Z (Z.max x 1) <= 1)%Q.
Proof.
  intro H. apply Qle_shift_div_r.
  - change 0%Q with (inject_Z 0). rewrite <- Zlt_Qlt. lia.
  - rewrite Qmult_1_l. rewrite <- Zle_Qle. exact H.
Qed.

Lemma nearest_le_1 x : (x <= 1)%Q -> (Py.nearest x <= 1)%Q.
Proof.
  intro H. apply Qle_trans with (Py.nearest 1); [apply nearest_mono; exact H |].
  vm_compute. discriminate.
Qed.

Lemma round_nonneg x n : (0 <= x)%Q -> (0 <= Py.round x n)%Q.
Proof.
  intro H. unfold Py.round. apply nearest_nonneg. apply round_digits_nonneg. exact H.
Qed.

Lemma round_le_1 x n : (x <= 1)%Q -> (Py.round x n <= 1)%Q.
Proof.
  intro H. unfold Py.round. apply nearest_le_1. apply round_digits_le_1. exact H.
Qed.

Lemma count_corrupted (packets : list packet) :
  count (fun p => negb (intact p)) packets
  = (Z.of_nat (length packets) - count intact packets)%Z.
Proof. pose proof (count_split packets). lia. Qed.

Lemma summarize_facts (packets : list packet) (total_expected : Z) :
  let s := summarize packets total_expected in
  let found := Z.of_nat (length packets) in
  let ratio :=
    (inject_Z (Z.max 0 (total_expected - found) + (found - count intact packets))
     / inject_Z (Z.max total_expected 1))%Q in
  packets_found s = found /\
  packets_intact s = count intact packets /\
  (0 <= count intact packets <= found)%Z /\
  packets_lost s = Z.max 0 (total_expected - found) /\
  packets_corrupted s = (found - count intact packets)%Z /\
  per s = Py.round (Py.nearest ratio) 4 /\
  (0 <= ratio)%Q /\ (0 <= per s)%Q /\
  ((found <= total_expected)%Z -> (ratio <= 1)%Q /\ (per s <= 1)%Q).
Proof.
  cbn zeta.
  pose proof (count_split packets) as Hc.
  pose proof (count_nonneg intact packets) as Hi.
  pose proof (count_nonneg (fun p => negb (intact p)) packets) as Hn.
  unfold summarize, error_ratio; cbn [packets_found packets_intact packets_lost
                                        packets_corrupted per].
  rewrite !count_corrupted.
  assert (R0 : (0 <= inject_Z (Z.max 0 (total_expected - Z.of_nat (length packets))
                               + (Z.of_nat (length packets) - count intact packets))
                     / inject_Z (Z.max total_expected 1))%Q)
    by (apply exact_ratio_nonneg; lia).
  repeat split; try lia; try exact R0.
  - apply round_nonneg. apply nearest_nonneg. exact R0.
  - apply exact_ratio_le_1. lia.
  - apply round_le_1. apply nearest_le_1. apply exact_ratio_le_1. lia.
Qed.

(** C2, as the code has it.  With [found] packets extracted, [intact] of
    them verifying and [expected] announced, the receiver reports
    lost = max(0, expected - found), corrupted = found - intact and
    PER = (lost + corrupted) / max(expected, 1) as the floats have it: the
    quotient rounded to the nearest double, and [round(_, 4)] of that.
    The PER is never negative; it is at most 1 when no more packets were
    found than expected. *)
Theorem per_arithmetic (packets : list packet) (total_expected found intact_count : Z) :
  Z.of_nat (length packets) = found ->
  count intact packets = intact_count ->
  let s := summarize packets total_expected in
  let ratio :=
    (inject_Z (Z.max 0 (total_expected - found) + (found - intact_count))
     / inject_Z (Z.max total_expected 1))%Q in
  (0 <= intact_count <= found)%Z /\
  packets_lost s = Z.max 0 (total_expected - found) /\
  packets_corrupted s = (found - intact_count)%Z /\
  per s = Py.round (Py.nearest ratio) 4 /\
  (0 <= ratio)%Q /\ (0 <= per s)%Q /\
  ((found <= total_expected)%Z -> (ratio <= 1)%Q /\ (per s <= 1)%Q).
Proof.
  intros <- <-.
  destruct (summarize_facts packets total_expected)
    as [_ [_ [Hr [Hl [Hc [Hp [R0 [P0 Hb]]]]]]]].
  cbn zeta. repeat split; try assumption; try lia; apply Hb; assumption.
Qed.

Lemma per_arithmetic_witness :
  let packets := extract_packets two_frames in
  Z.of_nat (length packets) = 2%Z /\ count intact packets = 2%Z /\
  (per (summarize packets 10) == Py.nearest 0.8)%Q /\
  (per (summarize packets 10) <= 1)%Q.
Proof.
  cbn zeta.
  assert (Hf : Z.of_nat (length (extract_packets two_frames)) = 2%Z)
    by (vm_compute; reflexivity).
  assert (Hi : count intact (extract_packets two_frames) = 2%Z)
    by (vm_compute; reflexivity).
  destruct (per_arithmetic (extract_packets two_frames) 10 2 2 Hf Hi)
    as [_ [_ [_ [Hp [_ [_ Hb]]]]]].
  split; [exact Hf |]. split; [exact Hi |]. split.
  - rewrite Hp. vm_compute. reflexivity.
  - apply Hb. vm_compute. discriminate.
Defined.

(** Two damaged packets found where one was expected: nothing is lost, two
    are corrupted, and the PER is 2. *)
Lemma per_above_one :
  let packets := extract_packets two_damaged_frames in
  let s := summarize packets 1 in
  Z.of_nat (length packets) = 2%Z /\ count intact packets = 0%Z /\
  packets_lost s = 0%Z /\ packets_corrupted s = 2%Z /\
  (per s == 2)%Q /\ ~ (per s <= 1)%Q.
Proof.
  cbn zeta. repeat split; try (vm_compute; reflexivity).
  intro H. vm_compute in H. apply H. reflexivity.
Qed.

(** One packet in 160 missing: the quotient 1/160 is not a double, the
    double nearest to it lies above 0.00625, and the PER is the double
    0.0063 where rounding the exact quotient to the even neighbour would
    give 0.0062. *)
Lemma per_rounds_the_double :
  let s := summarize (repeat (intact_packet 0) 159) 160 in
  packets_lost s = 1%Z /\
  (per s == Py.nearest 0.0063)%Q /\
  (Py.round_digits (1 # 160) 4 == 0.0062)%Q /\
  quality s = good.
Proof. cbn zeta. repeat split; vm_compute; reflexivity. Qed.

End PacketErrorRate.

(** ** The two WAV readers on a file without a data chunk *)

Section WavReaders.
Import Bytes Exn.

(** C7 at the failing input.  On a WAV file without data chunk the reader
    of recv.py returns an empty sample array, and [main] goes on to
    demodulate it and reports success with every expected packet lost;
    the reader of analyze.py raises "No audio data found" on the same
    file. *)
Theorem recv_read_wav_accepts_missing_data :
  Recv.read_wav wav_without_data = Ok ([], 48000%Z) /\
  Recv.main recv_args world_without_data =
    Recv.succeeded (Some "capture.wav"%string) 48000 0 (Recv.summarize [] 10) /\
  Recv.packets_lost (Recv.summarize [] 10) = 10%Z /\
  (Recv.per (Recv.summarize [] 10) == 1)%Q /\
  Analyze.read_wav wav_without_data = Raise (ValueError No_audio_data_found).
Proof.
  assert (E : Recv.read_wav wav_without_data = Ok ([], 48000%Z))
    by (vm_compute; reflexivity).
  split; [exact E |]. split.
  - unfold Recv.main. cbn [Recv.input recv_args Recv.open_rb world_without_data].
    rewrite E. reflexivity.
  - repeat split; vm_compute; reflexivity.
Qed.

Lemma frombuffer_nonempty size data ints :
  (0 < size)%nat -> data <> [] -> Wav.frombuffer size data = Ok ints -> ints <> [].
Proof.
  intros Hs Hd. unfold Wav.frombuffer.
  destruct (Nat.eqb_spec (length data mod size) 0) as [Hm | Hm]; [| discriminate].
  intro E. inversion E as [E']. clear E E'.
  assert (Hl : (0 < length data)%nat) by (destruct data; [congruence | simpl; lia]).
  pose proof (Nat.div_mod_eq (length data) size) as Hdm.
  destruct (length data / size)%nat as [| c] eqn:Ec; [nia |].
  simpl. discriminate.
Qed.

Lemma first_channel_nonempty channels samples col :
  (1 < channels)%Z -> samples <> [] ->
  Analyze.first_channel channels samples = Ok col -> col <> [].
Proof.
  intros Hc Hs. unfold Analyze.first_channel.
  destruct (Z.eqb_spec (Z.of_nat (length samples) mod channels) 0) as [Hm | Hm];
    [| discriminate].
  intro E. inversion E as [E']. clear E E'.
  assert (Hl : (0 < Z.of_nat (length samples))%Z)
    by (destruct samples; [congruence | simpl length; lia]).
  pose proof (Z.div_mod (Z.of_nat (length samples)) channels ltac:(lia)) as Hdm.
  assert (Hq : (1 <= Z.of_nat (length samples) / channels)%Z) by nia.
  destruct (Z.to_nat (Z.of_nat (length samples) / channels)) as [| r] eqn:Er; [lia |].
  simpl. discriminate.
Qed.

(** X17.  Whatever the file, when the reader of analyze.py returns, the
    sample array it returns is not empty: a missing or empty data chunk is
    refused, and so is a buffer that is not a whole number of samples or
    of frames. *)
Lemma analyze_read_wav_nonempty content samples sample_rate channels :
  Analyze.read_wav content = Ok (samples, sample_rate, channels) -> samples <> [].
Proof.
  unfold Analyze.read_wav, Wav.read.
  destruct (negb (eqb (firstn 4 content) (of_string "RIFF"))); [discriminate |].
  destruct (negb (eqb _ (of_string "WAVE"))); [discriminate |].
  destruct (Wav.chunk_loop _ _ _ _ _) as [st | e]; [| discriminate].
  cbn [bind]. destruct (Analyze.ws_data st) as [| d ds] eqn:Ed; [discriminate |].
  assert (Hd : d :: ds <> []) by discriminate.
  assert (Hs : forall ints (f : Z -> Q), ints <> [] -> map f ints <> []).
  { intros [| x xs] f Hx; [congruence | discriminate]. }
  destruct (Analyze.ws_bits_per_sample st =? 16)%Z.
  - destruct (Wav.frombuffer 2 (d :: ds)) as [ints |] eqn:Ef; [| discriminate].
    apply frombuffer_nonempty in Ef; [| lia | exact Hd].
    cbn [bind].
    destruct (1 <? Analyze.ws_channels st)%Z eqn:Ec.
    + destruct (Analyze.first_channel _ _) as [col |] eqn:Efc; [| discriminate].
      cbn [bind]. intro E. inversion E; subst.
      eapply first_channel_nonempty; [| | exact Efc]; [lia | apply Hs; exact Ef].
    + cbn [bind]. intro E. inversion E; subst. apply Hs. exact Ef.
  - destruct (Analyze.ws_bits_per_sample st =? 32)%Z; [| discriminate].
    destruct (Wav.frombuffer 4 (d :: ds)) as [ints |] eqn:Ef; [| discriminate].
    apply frombuffer_nonempty in Ef; [| lia | exact Hd].
    cbn [bind].
    destruct (1 <? Analyze.ws_channels st)%Z eqn:Ec.
    + destruct (Analyze.first_channel _ _) as [col |] eqn:Efc; [| discriminate].
      cbn [bind]. intro E. inversion E; subst.
      eapply first_channel_nonempty; [| | exact Efc]; [lia | apply Hs; exact Ef].
    + cbn [bind]. intro E. inversion E; subst. apply Hs. exact Ef.
Qed.

End WavReaders.

(** ** The loops, one turn at a time *)

Section LoopUnfolding.
Import Bytes Exn Recv.

Lemma scan_loop_turn raw_data i packets :
  scan_loop raw_data i packets =
    if Z_lt_dec (Z.of_nat i) (Z.of_nat (length raw_data) - 2) then
      match scan_step raw_data i with
      | scan_break => packets
      | scan_next i' found => scan_loop raw_data i' (packets ++ emitted_list found)
      end
    else packets.
Proof.
  funelim (scan_loop raw_data i packets).
  all: match goal with E : Z_lt_dec _ _ = _ |- _ => rewrite E end.
  all: try match goal with
           | E : scan_step ?r ?j = _ |- context [scan_step ?r ?j] => rewrite E
           end; reflexivity.
Qed.

Lemma uart_loop_turn bits i raw_bytes :
  uart_loop bits i raw_bytes =
    if lt_dec i (length bits) then
      match uart_step bits i with
      | uart_break => raw_bytes
      | uart_next i' e => uart_loop bits i' (raw_bytes ++ emitted_list e)
      end
    else raw_bytes.
Proof.
  funelim (uart_loop bits i raw_bytes).
  all: match goal with E : lt_dec _ _ = _ |- _ => rewrite E end.
  all: try match goal with
           | E : uart_step ?r ?j = _ |- context [uart_step ?r ?j] => rewrite E
           end; reflexivity.
Qed.

Lemma chunk_loop_turn (S : Type) on_fmt on_data f (st : S) :
  Wav.chunk_loop S on_fmt on_data f st =
    match Wav.chunk_step S on_fmt on_data f st with
    | Raise e => Raise e
    | Ok (Wav.chunk_break _) => Ok st
    | Ok (Wav.chunk_next _ rest st') => Wav.chunk_loop S on_fmt on_data rest st'
    end.
Proof.
  funelim (Wav.chunk_loop S on_fmt on_data f st).
  all: match goal with
       | E : Wav.chunk_step _ _ _ ?g ?s = _ |- context [Wav.chunk_step _ _ _ ?g ?s] =>
           rewrite E
       end; reflexivity.
Qed.

End LoopUnfolding.

(** ** Byte order: packing and unpacking integers *)

Section ByteOrder.
Import Bytes.
Local Open Scope Z_scope.

Lemma from_be_snoc (l : bytes) (b : Z) :
  from_be (l ++ [b]) = Z.lor (Z.shiftl (from_be l) 8) b.
Proof. unfold from_be. rewrite fold_left_app. reflexivity. Qed.

Lemma from_be_to_be (n : nat) (x : Z) :
  from_be (to_be n x) = x mod 2 ^ (8 * Z.of_nat n).
Proof.
  revert x. induction n as [| n IH]; intro x.
  - simpl. rewrite Z.mod_1_r. reflexivity.
  - cbn [to_be]. rewrite from_be_snoc, IH.
    apply Z.bits_inj'. intros k Hk.
    rewrite Z.lor_spec, Z.land_spec.
    rewrite Z.shiftl_spec by lia.
    change 255 with (Z.ones 8).
    destruct (Z.lt_ge_cases k 8) as [Hlt | Hge].
    + rewrite (Z.testbit_neg_r _ (k - 8)) by lia.
      rewrite Z.ones_spec_low by lia.
      rewrite Z.mod_pow2_bits_low by lia.
      rewrite andb_true_r. reflexivity.
    + rewrite Z.ones_spec_high by lia. rewrite andb_false_r, orb_false_r.
      destruct (Z.lt_ge_cases k (8 * Z.of_nat (S n))) as [Hin | Hout].
      * rewrite !Z.mod_pow2_bits_low by lia.
        rewrite Z.shiftr_spec by lia. f_equal. lia.
      * rewrite !Z.mod_pow2_bits_high by lia. reflexivity.
Qed.

(** Unpacking what was packed gives the integer back, whenever it fits. *)
Lemma from_be_to_be_small (n : nat) (x : Z) :
  0 <= x < 2 ^ (8 * Z.of_nat n) -> from_be (to_be n x) = x.
Proof. intro H. rewrite from_be_to_be. apply Z.mod_small. exact H. Qed.

Lemma to_be_is_byte (n : nat) (x : Z) : Forall is_byte (to_be n x).
Proof.
  revert x. induction n as [| n IH]; intro x; cbn [to_be]; [constructor |].
  apply Forall_app. split; [apply IH |]. constructor; [| constructor].
  unfold is_byte. change 255 with (Z.ones 8). rewrite Z.land_ones by lia.
  apply Z.mod_pos_bound. lia.
Qed.

Lemma sha256_is_byte msg : Forall is_byte (Hashlib.sha256 msg).
Proof.
  unfold Hashlib.sha256. apply Forall_flat_map. apply Forall_forall.
  intros w _. apply to_be_is_byte.
Qed.

End ByteOrder.

(** ** The frame codec: generate_calibration_packet and extract_packets *)

Section Codec.
Import Bytes Exn Recv.
Local Opaque Hashlib.sha256.

Lemma payload_bytes :
  CALIBRATION_PAYLOAD =
    [84; 80; 67; 45; 67; 65; 76; 73; 66; 82; 65; 84; 69; 45; 50; 48; 50; 54]%Z.
Proof. reflexivity. Qed.

Lemma slice_app_skip (pre X : bytes) a b :
  slice (pre ++ X) (length pre + a) (length pre + b) = slice X a b.
Proof.
  unfold slice. rewrite skipn_app.
  replace (length pre + a - length pre)%nat with a by lia.
  rewrite skipn_all2 by lia. simpl.
  replace (length pre + b - (length pre + a))%nat with (b - a)%nat by lia.
  reflexivity.
Qed.

Lemma find_in_suffix (pre X sub : bytes) i :
  find (pre ++ X) sub (length pre + i) =
    match find X sub i with
    | Some m => Some (length pre + m)%nat
    | None => None
    end.
Proof.
  unfold find. rewrite length_app.
  destruct (Nat.ltb_spec (length X) i) as [Hl | Hl].
  - destruct (Nat.ltb_spec (length pre + length X) (length pre + i)); [reflexivity | lia].
  - destruct (Nat.ltb_spec (length pre + length X) (length pre + i)); [lia |].
    rewrite skipn_app.
    replace (length pre + i - length pre)%nat with i by lia.
    rewrite skipn_all2 by lia. simpl.
    generalize (skipn i X). intro l. clear.
    revert i. induction l as [| x l IH]; intro i; simpl.
    + destruct (starts_with sub []); [reflexivity | reflexivity].
    + destruct (starts_with sub (x :: l)); [reflexivity |].
      rewrite <- Nat.add_succ_r. apply IH.
Qed.

Lemma length_slice_inside (bs : bytes) a b :
  (a <= b <= length bs)%nat -> length (slice bs a b) = (b - a)%nat.
Proof. intro H. unfold slice. rewrite length_firstn, length_skipn. lia. Qed.

Lemma scan_step_found raw_data i m :
  find raw_data CALIBRATION_MAGIC i = Some m ->
  (2 <= m)%nat ->
  let len := Z.to_nat (from_be (slice raw_data (m - 2) m)) in
  (m + len <= length raw_data)%nat -> (56 <= len)%nat ->
  scan_step raw_data i =
    scan_next (m + len) (Some (packet_of_body (slice raw_data m (m + len)))).
Proof.
  intros Hf Hm len He Hl. unfold scan_step. rewrite Hf.
  destruct (Nat.ltb_spec m 2); [lia |].
  fold len. replace (m - 2 + 2)%nat with m by lia.
  destruct (Nat.ltb_spec (length raw_data) (m + len)); [lia |].
  rewrite (length_slice_inside raw_data m (m + len)) by lia.
  destruct (Nat.ltb_spec (m + len - m) 56); [lia |].
  reflexivity.
Qed.

Lemma slice_mid (A B C : bytes) :
  slice (A ++ B ++ C) (length A) (length A + length B) = B.
Proof.
  unfold slice. rewrite skipn_app, skipn_all, Nat.sub_diag. simpl.
  replace (length A + length B - length A)%nat with (length B + 0)%nat by lia.
  rewrite firstn_app_2. simpl. apply app_nil_r.
Qed.

Lemma packet_of_wire_body hi lo payload digest :
  length payload = 18%nat -> length digest = 32%nat ->
  packet_of_body (CALIBRATION_MAGIC ++ [hi; lo] ++ payload ++ digest)
  = wire_packet hi lo payload digest.
Proof.
  intros Hp Hd. unfold packet_of_body, wire_packet.
  assert (S0 : slice (CALIBRATION_MAGIC ++ [hi; lo] ++ payload ++ digest) 0 4
               = CALIBRATION_MAGIC) by reflexivity.
  assert (S4 : slice (CALIBRATION_MAGIC ++ [hi; lo] ++ payload ++ digest) 4 6
               = [hi; lo]) by reflexivity.
  assert (S6 : slice (CALIBRATION_MAGIC ++ [hi; lo] ++ payload ++ digest) 6 24
               = payload).
  { pose proof (slice_mid (CALIBRATION_MAGIC ++ [hi; lo]) payload digest) as H.
    rewrite Hp in H. exact H. }
  assert (S24 : slice (CALIBRATION_MAGIC ++ [hi; lo] ++ payload ++ digest) 24 56
                = digest).
  { pose proof (slice_mid (CALIBRATION_MAGIC ++ [hi; lo] ++ payload) digest []) as H.
    rewrite !length_app, Hp, Hd, app_nil_r in H.
    rewrite <- !app_assoc in H. exact H. }
  rewrite S0, S4, S6, S24. reflexivity.
Qed.

Lemma scan_step_at_wire (pre rest : bytes) hi lo payload digest :
  length payload = 18%nat -> length digest = 32%nat ->
  scan_step (pre ++ wire hi lo payload digest ++ rest) (length pre) =
    scan_next (length pre + 58) (Some (wire_packet hi lo payload digest)).
Proof.
  intros Hp Hd.
  set (body := CALIBRATION_MAGIC ++ [hi; lo] ++ payload ++ digest).
  assert (Hb : length body = 56%nat)
    by (unfold body; rewrite !length_app, Hp, Hd; reflexivity).
  assert (Ew : wire hi lo payload digest ++ rest = [0; 56]%Z ++ body ++ rest)
    by (unfold wire, body; rewrite <- !app_assoc; reflexivity).
  rewrite Ew.
  assert (Hf : find (pre ++ [0; 56]%Z ++ body ++ rest) CALIBRATION_MAGIC (length pre)
               = Some (length pre + 2)%nat).
  { rewrite <- (Nat.add_0_r (length pre)) at 1. rewrite find_in_suffix. reflexivity. }
  assert (Hl : slice (pre ++ [0; 56]%Z ++ body ++ rest)
                 (length pre + 2 - 2) (length pre + 2) = [0; 56]%Z).
  { replace (length pre + 2 - 2)%nat with (length pre + 0)%nat by lia.
    rewrite slice_app_skip. reflexivity. }
  pose proof (scan_step_found _ _ _ Hf ltac:(lia)) as Hs. cbn zeta in Hs.
  rewrite Hl in Hs. change (Z.to_nat (from_be [0; 56]%Z)) with 56%nat in Hs.
  rewrite Hs.
  - replace (length pre + 2 + 56)%nat with (length pre + 58)%nat by lia.
    f_equal. f_equal.
    replace (slice (pre ++ [0; 56]%Z ++ body ++ rest) (length pre + 2) (length pre + 58))
      with body.
    + apply packet_of_wire_body; assumption.
    + rewrite slice_app_skip.
      pose proof (slice_mid [0%Z; 56%Z] body rest) as H. rewrite Hb in H.
      symmetry. exact H.
  - rewrite !length_app, Hb. simpl. lia.
  - lia.
Qed.

Lemma length_wire hi lo payload digest :
  length payload = 18%nat -> length digest = 32%nat ->
  length (wire hi lo payload digest) = 58%nat.
Proof. intros Hp Hd. unfold wire. rewrite !length_app, Hp, Hd. reflexivity. Qed.

Lemma starts_with_magic_other b l :
  b <> 202%Z -> starts_with CALIBRATION_MAGIC (b :: l) = false.
Proof.
  intro H. cbn [CALIBRATION_MAGIC starts_with].
  destruct (Z.eqb_spec 202 b); [congruence | reflexivity].
Qed.

Lemma find_from_lead ld X pos :
  Forall (fun b => b <> 202%Z) ld ->
  find_from CALIBRATION_MAGIC (ld ++ X) pos
  = find_from CALIBRATION_MAGIC X (pos + length ld).
Proof.
  intro H. revert pos. induction H as [| b ld Hb _ IH]; intro pos.
  - simpl. rewrite Nat.add_0_r. reflexivity.
  - cbn [app find_from]. rewrite starts_with_magic_other by exact Hb.
    rewrite IH. cbn [length]. f_equal. lia.
Qed.

Lemma find_from_no_magic l pos :
  Forall (fun b => b <> 202%Z) l -> find_from CALIBRATION_MAGIC l pos = None.
Proof.
  intro H. revert pos. induction H as [| b l Hb _ IH]; intro pos.
  - reflexivity.
  - cbn [find_from]. rewrite starts_with_magic_other by exact Hb. apply IH.
Qed.

Lemma find_at_origin X sub : find X sub 0 = find_from sub X 0.
Proof. unfold find. destruct (Nat.ltb_spec (length X) 0); [lia | reflexivity]. Qed.

Lemma scan_step_find raw_data i j :
  find raw_data CALIBRATION_MAGIC i = find raw_data CALIBRATION_MAGIC j ->
  scan_step raw_data i = scan_step raw_data j.
Proof. intro H. unfold scan_step. rewrite H. reflexivity. Qed.

Lemma find_wire_after_lead (pre ld rest : bytes) hi lo payload digest :
  Forall (fun b => b <> 202%Z) ld ->
  find (pre ++ ld ++ wire hi lo payload digest ++ rest) CALIBRATION_MAGIC (length pre)
  = Some (length pre + (length ld + 2))%nat.
Proof.
  intro H. rewrite <- (Nat.add_0_r (length pre)) at 1.
  rewrite find_in_suffix, find_at_origin, find_from_lead by exact H.
  change (find_from CALIBRATION_MAGIC (wire hi lo payload digest ++ rest)
            (0 + length ld))
    with (Some (S (S (0 + length ld)))).
  cbv iota. f_equal. lia.
Qed.

Lemma scan_step_at_framed (pre rest : bytes) (f : framed) :
  framed_ok f ->
  scan_step (pre ++ wire_of f ++ rest) (length pre) =
    scan_next (length pre + length (wire_of f)) (Some (wire_packet_of f)).
Proof.
  destruct f as [ld hi lo payload digest]. intros [Hl [Hp Hd]].
  unfold wire_of, wire_packet_of. cbn [lead seq_hi seq_lo framed_payload framed_digest] in *.
  rewrite <- app_assoc.
  transitivity (scan_step (pre ++ ld ++ wire hi lo payload digest ++ rest)
                          (length (pre ++ ld))).
  - apply scan_step_find. rewrite find_wire_after_lead by exact Hl.
    pose proof (find_wire_after_lead (pre ++ ld) [] rest hi lo payload digest
                  (Forall_nil _)) as H.
    cbn [app length] in H. rewrite <- app_assoc in H. rewrite H.
    rewrite length_app. f_equal. lia.
  - rewrite (app_assoc pre ld).
    rewrite (scan_step_at_wire (pre ++ ld) rest hi lo payload digest Hp Hd).
    rewrite !length_app, (length_wire hi lo payload digest Hp Hd).
    f_equal. lia.
Qed.

Lemma length_wire_of f : framed_ok f -> (58 <= length (wire_of f))%nat.
Proof.
  destruct f as [ld hi lo payload digest]. intros [_ [Hp Hd]].
  unfold wire_of. cbn [lead seq_hi seq_lo framed_payload framed_digest] in *.
  rewrite length_app, (length_wire hi lo payload digest Hp Hd). lia.
Qed.

Lemma scan_loop_no_magic pre tail acc :
  Forall (fun b => b <> 202%Z) tail ->
  scan_loop (pre ++ tail) (length pre) acc = acc.
Proof.
  intro H. rewrite scan_loop_turn.
  destruct (Z_lt_dec _ _); [| reflexivity].
  unfold scan_step. rewrite <- (Nat.add_0_r (length pre)).
  rewrite find_in_suffix, find_at_origin, find_from_no_magic by exact H.
  reflexivity.
Qed.

Lemma scan_loop_framed (items : list framed) (tail : bytes) :
  Forall framed_ok items ->
  Forall (fun b => b <> 202%Z) tail ->
  forall pre acc,
    scan_loop (pre ++ concat (map wire_of items) ++ tail) (length pre) acc
    = acc ++ map wire_packet_of items.
Proof.
  intros Hitems Htail.
  induction Hitems as [| f items Hf _ IH]; intros pre acc.
  - cbn [map concat app]. rewrite app_nil_r. apply scan_loop_no_magic. exact Htail.
  - rewrite scan_loop_turn. cbn [map concat].
    pose proof (length_wire_of f Hf) as Lw.
    destruct (Z_lt_dec _ _) as [Hlt | Hge].
    + rewrite <- (app_assoc (wire_of f)).
      rewrite (scan_step_at_framed pre _ f Hf). cbn [emitted_list].
      rewrite <- length_app. rewrite (app_assoc pre). rewrite IH.
      rewrite <- app_assoc. reflexivity.
    + exfalso. apply Hge. rewrite !length_app. lia.
Qed.

Lemma eqb_eq (x y : bytes) : eqb x y = true <-> x = y.
Proof.
  unfold eqb. destruct (list_eq_dec Z.eq_dec x y); split; congruence.
Qed.

Lemma eqb_refl (x : bytes) : eqb x x = true.
Proof. apply eqb_eq. reflexivity. Qed.

Lemma wire_of_framed_calibration ld seq_ :
  wire_of (framed_calibration ld seq_) = ld ++ Send.frame_of seq_.
Proof. reflexivity. Qed.

Lemma framed_calibration_ok ld seq_ :
  Forall (fun b => b <> 202%Z) ld -> framed_ok (framed_calibration ld seq_).
Proof.
  intro H. split; [exact H |]. split; [reflexivity | apply length_sha256].
Qed.

Lemma wire_packet_of_calibration ld seq_ :
  (0 <= seq_ <= 65535)%Z ->
  wire_packet_of (framed_calibration ld seq_) = intact_packet seq_.
Proof.
  intro H. unfold wire_packet_of, framed_calibration, wire_packet, intact_packet.
  cbn [seq_hi seq_lo framed_payload framed_digest].
  rewrite !eqb_refl.
  change [Z.land (Z.shiftr seq_ 8) 255; Z.land seq_ 255] with (to_be 2 seq_).
  rewrite from_be_to_be_small by (change (2 ^ (8 * Z.of_nat 2))%Z with 65536%Z; lia).
  reflexivity.
Qed.

(** Calibration frames behind lead-ins, as a received stream. *)
Lemma extract_calibration_stream (l : list (bytes * Z)) (tail : bytes) :
  Forall (fun p => Forall (fun b => b <> 202%Z) (fst p) /\ (0 <= snd p <= 65535)%Z) l ->
  Forall (fun b => b <> 202%Z) tail ->
  extract_packets (concat (map (fun p => fst p ++ Send.frame_of (snd p)) l) ++ tail)
  = map (fun p => intact_packet (snd p)) l.
Proof.
  intros Hl Htail.
  pose (items := map (fun p => framed_calibration (fst p) (snd p)) l).
  assert (Hok : Forall framed_ok items).
  { unfold items. apply Forall_map. eapply Forall_impl; [| exact Hl].
    intros p [H _]. apply framed_calibration_ok. exact H. }
  pose proof (scan_loop_framed items tail Hok Htail [] []) as E.
  cbn [app length] in E. unfold extract_packets.
  replace (concat (map (fun p => fst p ++ Send.frame_of (snd p)) l))
    with (concat (map wire_of items))
    by (unfold items; rewrite map_map; reflexivity).
  rewrite E. unfold items. rewrite map_map.
  apply map_ext_in. intros p Hin.
  rewrite Forall_forall in Hl. apply wire_packet_of_calibration. apply (Hl p Hin).
Qed.

(** X1.  [generate_calibration_packet] succeeds exactly on 16-bit sequence
    numbers; the 58 bytes it returns are the length 56, the magic, the
    sequence number big-endian, the payload and the 32-byte SHA-256 of
    magic, sequence number and payload. *)
Theorem calibration_packet_layout (seq_ : Z) :
  Send.generate_calibration_packet seq_ =
    (if (0 <=? seq_)%Z && (seq_ <=? 65535)%Z then
       Ok ([0; 56]%Z ++ Send.CALIBRATION_MAGIC ++ to_be 2 seq_
             ++ Send.CALIBRATION_PAYLOAD
             ++ Hashlib.sha256 (Send.CALIBRATION_MAGIC ++ to_be 2 seq_
                                  ++ Send.CALIBRATION_PAYLOAD))
     else Raise struct_error) /\
  from_be (to_be 2 seq_) = (seq_ mod 65536)%Z /\
  length ([0; 56]%Z ++ Send.CALIBRATION_MAGIC ++ to_be 2 seq_
            ++ Send.CALIBRATION_PAYLOAD
            ++ Hashlib.sha256 (Send.CALIBRATION_MAGIC ++ to_be 2 seq_
                                 ++ Send.CALIBRATION_PAYLOAD)) = 58%nat.
Proof.
  split; [| split].
  - destruct ((0 <=? seq_)%Z && (seq_ <=? 65535)%Z) eqn:E.
    + apply andb_true_iff in E. destruct E as [E1 E2].
      apply Z.leb_le in E1. apply Z.leb_le in E2.
      rewrite generate_calibration_packet_ok by lia. reflexivity.
    + apply generate_calibration_packet_raises. intro H.
      apply andb_false_iff in E. destruct E as [E | E]; apply Z.leb_gt in E; lia.
  - apply (from_be_to_be 2).
  - apply length_frame_of.
Qed.

(** X2.  Frames produced by [generate_calibration_packet] and laid end to
    end are all recovered by [extract_packets], in order, each with its
    sequence number and [intact = true]. *)
Theorem extract_generated_packets (seqs : list Z) (frames : list bytes) :
  Forall2 (fun seq_ frame => Send.generate_calibration_packet seq_ = Ok frame)
          seqs frames ->
  extract_packets (concat frames) = map intact_packet seqs.
Proof.
  intro H.
  assert (G : Forall (fun p : bytes * Z =>
                        Forall (fun b => b <> 202%Z) (fst p) /\ (0 <= snd p <= 65535)%Z)
                     (map (fun s => ([], s)) seqs) /\
              concat frames
              = concat (map (fun p : bytes * Z => fst p ++ Send.frame_of (snd p))
                            (map (fun s => ([], s)) seqs))).
  { induction H as [| seq_ frame seqs frames Hg _ [IH1 IH2]].
    - split; [constructor | reflexivity].
    - assert (Hr : (0 <= seq_ <= 65535)%Z).
      { destruct (Z_le_dec 0 seq_); destruct (Z_le_dec seq_ 65535); try lia;
          rewrite generate_calibration_packet_raises in Hg by lia; discriminate. }
      rewrite (generate_calibration_packet_ok seq_ Hr) in Hg.
      inversion Hg as [Hf]. clear Hg.
      split.
      + constructor; [| exact IH1]. split; [constructor | exact Hr].
      + cbn [map concat fst snd app]. rewrite IH2. reflexivity. }
  destruct G as [G1 G2].
  pose proof (extract_calibration_stream _ [] G1 (Forall_nil _)) as E.
  rewrite app_nil_r in E. rewrite G2.
  etransitivity; [exact E |]. rewrite map_map. reflexivity.
Qed.

Lemma extract_generated_packets_witness :
  extract_packets (concat [Send.frame_of 0; Send.frame_of 1; Send.frame_of 65535])
  = map intact_packet [0; 1; 65535]%Z.
Proof.
  apply (extract_generated_packets [0; 1; 65535]%Z).
  repeat (apply Forall2_cons; [apply generate_calibration_packet_ok; lia |]).
  apply Forall2_nil.
Defined.

(** X3.  In a stream of 58-byte frames (length 56, magic, two sequence
    bytes, 18 payload bytes, 32 digest bytes), each behind lead-in bytes
    other than 0xCA and with such bytes after the last one,
    [extract_packets] records one packet per frame, damaged or not, in
    order, and nothing else.  The packet carries the sequence number read
    from the frame, and is [intact] exactly when the payload is the
    calibration payload and the digest is the SHA-256 of magic, sequence
    bytes and payload. *)
Theorem extract_framed_stream (items : list framed) (tail : bytes) :
  Forall framed_ok items ->
  Forall (fun b => b <> 202%Z) tail ->
  extract_packets (concat (map wire_of items) ++ tail) = map wire_packet_of items /\
  Forall (fun f =>
            seq (wire_packet_of f) = from_be [seq_hi f; seq_lo f] /\
            (intact (wire_packet_of f) = true <->
             framed_payload f = CALIBRATION_PAYLOAD /\
             framed_digest f =
               Hashlib.sha256 (CALIBRATION_MAGIC ++ [seq_hi f; seq_lo f]
                                 ++ framed_payload f))) items.
Proof.
  intros H Ht. split.
  - apply (scan_loop_framed items tail H Ht [] []).
  - apply Forall_forall. intros f _. split; [reflexivity |].
    unfold wire_packet_of, wire_packet. cbn [intact].
    rewrite andb_true_iff, !eqb_eq. tauto.
Qed.

Lemma extract_framed_stream_witness :
  extract_packets ([170; 170; 170]%Z ++ damaged_frame 0 ++ Send.frame_of 1 ++ [255]%Z) =
    [ {| seq := 0; valid_hash := false; payload_match := true; intact := false |};
      intact_packet 1 ].
Proof.
  pose (items :=
          [ {| lead := [170; 170; 170]%Z; seq_hi := 0; seq_lo := 0;
               framed_payload := CALIBRATION_PAYLOAD;
               framed_digest := firstn 32 (skipn 26 (damaged_frame 0)) |};
            framed_calibration [] 1 ]).
  assert (Hok : Forall framed_ok items).
  { apply Forall_cons; [| apply Forall_cons; [| apply Forall_nil]].
    - split; [| split; vm_compute; reflexivity].
      repeat (apply Forall_cons; [discriminate |]). apply Forall_nil.
    - apply framed_calibration_ok. apply Forall_nil. }
  assert (Ht : Forall (fun b => b <> 202%Z) [255%Z])
    by (apply Forall_cons; [discriminate | apply Forall_nil]).
  destruct (extract_framed_stream items [255%Z] Hok Ht) as [E _].
  assert (Es : concat (map wire_of items) ++ [255%Z]
               = [170; 170; 170]%Z ++ damaged_frame 0 ++ Send.frame_of 1 ++ [255]%Z)
    by (vm_compute; reflexivity).
  rewrite Es in E. rewrite E. vm_compute. reflexivity.
Defined.

Lemma scan_step_records raw_data i i' p :
  scan_step raw_data i = scan_next i' (Some p) ->
  (i + 56 <= i' /\ 58 <= i' <= length raw_data)%nat.
Proof.
  unfold scan_step.
  destruct (find raw_data CALIBRATION_MAGIC i) as [m |] eqn:Hf; [| discriminate].
  apply find_bounds in Hf.
  destruct (Nat.ltb_spec m 2); [discriminate |].
  match goal with |- context [(length raw_data <? ?e)%nat] =>
    destruct (Nat.ltb_spec (length raw_data) e) as [Hlt | Hge] end;
    [discriminate |].
  match goal with |- context [(length ?b <? 56)%nat] =>
    pose proof (length_slice raw_data (m - 2 + 2)
                  (m - 2 + 2 + Z.to_nat (from_be (slice raw_data (m - 2) m)))) as Hb;
    destruct (Nat.ltb_spec (length b) 56) as [Hs | Hl] end; [discriminate |].
  intro Eq. inversion Eq; subst. lia.
Qed.

Lemma scan_loop_count raw_data i acc :
  (i <= length raw_data)%nat ->
  exists more,
    scan_loop raw_data i acc = acc ++ more /\
    (56 * length more <= length raw_data - i)%nat /\
    (more <> [] -> 58 <= length raw_data)%nat.
Proof.
  funelim (scan_loop raw_data i acc); intro Hi.
  - exists []. rewrite app_nil_r. repeat split; [simpl; lia | congruence].
  - exists []. rewrite app_nil_r. repeat split; [simpl; lia | congruence].
  - match goal with E : scan_step _ _ = scan_next _ _ |- _ =>
      pose proof (scan_step_advances _ _ _ _ E) as Ha;
      destruct found as [p |];
      [pose proof (scan_step_records _ _ _ _ E) as Hr |] end.
    + destruct H0 as [more [E1 [E2 E3]]]; [lia |].
      exists (p :: more). rewrite E1. cbn [emitted_list].
      rewrite <- app_assoc. repeat split; [simpl length; lia | intros _; lia].
    + destruct H0 as [more [E1 [E2 E3]]]; [lia |].
      exists more. rewrite E1. cbn [emitted_list]. rewrite app_nil_r.
      repeat split; [lia | exact E3].
Qed.

(** X4.  [extract_packets] never records more than one packet per 56 bytes
    of input, and records nothing at all from fewer than 58 bytes. *)
Theorem extract_packets_count (raw_data : bytes) :
  (56 * length (extract_packets raw_data) <= length raw_data)%nat /\
  (extract_packets raw_data = [] \/ (58 <= length raw_data)%nat).
Proof.
  destruct (scan_loop_count raw_data 0 [] ltac:(lia)) as [more [E1 [E2 E3]]].
  unfold extract_packets. rewrite E1. cbn [app]. split; [lia |].
  destruct more as [| p more]; [left; reflexivity |].
  right. apply E3. discriminate.
Qed.

End Codec.

(** ** UART framing: the bits of the modulator through the byte loop of the
    demodulator *)

Section Uart.
Import Bytes Exn Recv.
Local Opaque Hashlib.sha256.

Lemma data_byte_shift (A B : list Z) k :
  data_byte (A ++ B) (length A + k) = data_byte B k.
Proof.
  unfold data_byte. cbn [List.seq fold_left].
  repeat match goal with
         | |- context [nth (length A + k + 1 + ?b) (A ++ B) 0%Z] =>
             replace (length A + k + 1 + b)%nat with (length A + (k + 1 + b))%nat by lia;
             rewrite (app_nth2_plus A B)
         end.
  reflexivity.
Qed.

Lemma uart_step_shift (A B : list Z) k :
  uart_step (A ++ B) (length A + k) =
    match uart_step B k with
    | uart_break => uart_break
    | uart_next i' e => uart_next (length A + i') e
    end.
Proof.
  unfold uart_step. rewrite app_nth2_plus.
  destruct (nth k B 0 =? 0)%Z; [| f_equal; lia].
  rewrite length_app.
  destruct (Nat.leb_spec (length B) (k + 9));
    destruct (Nat.leb_spec (length A + length B) (length A + k + 9)); try lia;
    [reflexivity |].
  rewrite data_byte_shift.
  replace (length A + k + 9)%nat with (length A + (k + 9))%nat by lia.
  rewrite app_nth2_plus.
  destruct (nth (k + 9) B 0 =? 1)%Z; f_equal; lia.
Qed.

(** The bits already passed do not matter. *)
Lemma uart_loop_shift (A B : list Z) k acc :
  uart_loop (A ++ B) (length A + k) acc = uart_loop B k acc.
Proof.
  funelim (uart_loop B k acc); rewrite uart_loop_turn, length_app;
    match goal with |- context [lt_dec ?a ?b] => destruct (lt_dec a b) as [Hl | Hl] end;
    try lia; try reflexivity;
    rewrite uart_step_shift;
    match goal with E : uart_step _ _ = _ |- _ => rewrite E end.
  - reflexivity.
  - match goal with IH : forall A : list Z, _ |- _ => apply IH end.
Qed.

Lemma uart_loop_drop (A B : list Z) acc :
  uart_loop (A ++ B) (length A) acc = uart_loop B 0 acc.
Proof. rewrite <- (Nat.add_0_r (length A)). apply uart_loop_shift. Qed.

Lemma uart_loop_nil acc : uart_loop [] 0 acc = acc.
Proof. rewrite uart_loop_turn. reflexivity. Qed.

(** An idle bit is skipped. *)
Lemma uart_loop_idle rest acc : uart_loop (1%Z :: rest) 0 acc = uart_loop rest 0 acc.
Proof.
  rewrite uart_loop_turn. cbn [length].
  destruct (lt_dec 0 (S (length rest))); [| lia].
  change (uart_step (1%Z :: rest) 0) with (uart_next 1 None).
  cbn [emitted_list]. rewrite app_nil_r.
  apply (uart_loop_drop [1%Z] rest).
Qed.

Lemma uart_loop_idles n rest acc :
  uart_loop (repeat 1%Z n ++ rest) 0 acc = uart_loop rest 0 acc.
Proof.
  induction n as [| n IH]; [reflexivity |].
  cbn [repeat app]. rewrite uart_loop_idle. exact IH.
Qed.

Lemma small_cases (P : Z -> bool) :
  forallb (fun n => P (Z.of_nat n)) (List.seq 0 256) = true ->
  forall b, is_byte b -> P b = true.
Proof.
  intros H b [Hb1 Hb2]. rewrite forallb_forall in H.
  rewrite <- (Z2Nat.id b) by lia. apply H. apply in_seq. lia.
Qed.

Lemma bits_value_byte b : is_byte b -> bits_value b = b.
Proof.
  intro H. apply Z.eqb_eq.
  apply (small_cases (fun b => bits_value b =? b)%Z); [vm_compute; reflexivity | exact H].
Qed.

(** A framed byte is emitted and the cursor moves behind its stop bit. *)
Lemma uart_loop_byte b rest acc :
  is_byte b ->
  uart_loop (Send.frame_byte b ++ rest) 0 acc = uart_loop rest 0 (acc ++ [b]).
Proof.
  intro Hb. rewrite uart_loop_turn.
  destruct (lt_dec 0 (length (Send.frame_byte b ++ rest))) as [Hl | Hl];
    [| rewrite length_app in Hl; simpl in Hl; lia].
  assert (E : uart_step (Send.frame_byte b ++ rest) 0 = uart_next 10 (Some b)).
  { unfold uart_step. change (nth 0 (Send.frame_byte b ++ rest) 0%Z) with 0%Z.
    change (0 =? 0)%Z with true. cbv iota.
    rewrite length_app. change (length (Send.frame_byte b)) with 10%nat.
    destruct (Nat.leb_spec (10 + length rest) (0 + 9)); [lia |].
    change (nth (0 + 9) (Send.frame_byte b ++ rest) 0%Z) with 1%Z.
    change (1 =? 1)%Z with true. cbv iota.
    change (data_byte (Send.frame_byte b ++ rest) 0) with (bits_value b).
    rewrite bits_value_byte by exact Hb. reflexivity. }
  rewrite E. cbn [emitted_list].
  apply (uart_loop_drop (Send.frame_byte b) rest).
Qed.

Lemma uart_loop_bytes data rest acc :
  Forall is_byte data ->
  uart_loop (flat_map Send.frame_byte data ++ rest) 0 acc
  = uart_loop rest 0 (acc ++ data).
Proof.
  intro H. revert acc. induction H as [| b data Hb _ IH]; intro acc.
  - cbn [flat_map app]. rewrite app_nil_r. reflexivity.
  - cbn [flat_map]. rewrite <- app_assoc. rewrite uart_loop_byte by exact Hb.
    rewrite IH. rewrite <- app_assoc. reflexivity.
Qed.

Lemma preamble_bytes :
  Send.preamble = [1%Z] ++ Send.frame_byte 170 ++ Send.frame_byte 170
                    ++ Send.frame_byte 170 ++ [0%Z].
Proof. reflexivity. Qed.

Lemma odd_byte_framed b :
  is_byte b -> Z.odd b = true ->
  (0 :: Send.frame_byte b = Send.frame_byte (Z.shiftr b 1) ++ [1])%Z.
Proof.
  intros Hb Ho. apply eqb_eq.
  pose proof (small_cases
                (fun b => if Z.odd b
                          then eqb (0%Z :: Send.frame_byte b)
                                   (Send.frame_byte (Z.shiftr b 1) ++ [1%Z])
                          else true)) as H.
  cbv beta in H. specialize (H ltac:(vm_compute; reflexivity) b Hb).
  rewrite Ho in H. exact H.
Qed.

Lemma even_byte_last_bit b : Z.even b = true -> Z.land (Z.shiftr b 0) 1 = 0%Z.
Proof.
  intro H. rewrite Z.shiftr_0_r. change 1%Z with (Z.ones 1).
  rewrite Z.land_ones by lia. rewrite Zeven_mod in H.
  apply Z.eqb_eq in H. exact H.
Qed.

Lemma shiftr_is_byte b : is_byte b -> is_byte (Z.shiftr b 1).
Proof.
  unfold is_byte. intro H. rewrite Z.shiftr_div_pow2 by lia.
  change (2 ^ 1)%Z with 2%Z. split.
  - apply Z.div_pos; lia.
  - apply Z.div_lt_upper_bound; lia.
Qed.

Lemma uart_loop_packet data rest acc :
  Forall is_byte data ->
  uart_loop (Send.frame_bits data ++ rest) 0 acc
  = uart_loop rest 0 (acc ++ uart_bytes data).
Proof.
  intro H. unfold Send.frame_bits. rewrite preamble_bytes.
  assert (B170 : is_byte 170) by (unfold is_byte; lia).
  rewrite <- !app_assoc. cbn [app].
  rewrite uart_loop_idle.
  rewrite !uart_loop_byte by exact B170.
  rewrite <- !app_assoc. cbn [app].
  unfold uart_bytes.
  destruct H as [| b data Hb Hd].
  - change (0%Z :: flat_map Send.frame_byte [] ++ repeat 1%Z 16 ++ rest)
      with (Send.frame_byte 255 ++ repeat 1%Z 7 ++ rest).
    rewrite uart_loop_byte by (unfold is_byte; lia).
    rewrite uart_loop_idles. rewrite <- !app_assoc. reflexivity.
  - destruct (Z.even b) eqn:Ev.
    + rewrite uart_loop_turn.
      match goal with |- context [lt_dec ?a ?b] => destruct (lt_dec a b) as [Hl | Hl] end;
        [| simpl in Hl; lia].
      assert (E : uart_step (0%Z :: flat_map Send.frame_byte (b :: data)
                               ++ repeat 1%Z 16 ++ rest) 0 = uart_next 1 None).
      { unfold uart_step. cbn [flat_map]. rewrite <- !app_assoc.
        change (nth 0 (0%Z :: ?l) 0%Z) with 0%Z.
        change (0 =? 0)%Z with true. cbv iota.
        match goal with |- context [(?a <=? 0 + 9)%nat] =>
          destruct (Nat.leb_spec a (0 + 9)) as [Hs | Hs] end;
          [simpl in Hs; lia |].
        match goal with |- context [nth (0 + 9) ?l 0%Z] =>
          change (nth (0 + 9) l 0%Z) with (Z.land (Z.shiftr b 0) 1) end.
        rewrite even_byte_last_bit by exact Ev. reflexivity. }
      rewrite E. cbn [emitted_list]. rewrite app_nil_r.
      match goal with |- uart_loop (0%Z :: ?l) 1 ?a = _ =>
        rewrite (uart_loop_drop [0%Z] l a : uart_loop (0%Z :: l) 1 a = uart_loop l 0 a)
      end.
      rewrite uart_loop_bytes by (constructor; assumption).
      rewrite uart_loop_idles. rewrite <- !app_assoc. reflexivity.
    + assert (Ho : Z.odd b = true) by (rewrite <- Z.negb_even, Ev; reflexivity).
      cbn [flat_map]. rewrite <- !app_assoc.
      change (0%Z :: Send.frame_byte b ++ ?l) with ((0%Z :: Send.frame_byte b) ++ l).
      rewrite (odd_byte_framed b Hb Ho). rewrite <- !app_assoc. cbn [app].
      rewrite uart_loop_byte by (apply shiftr_is_byte; exact Hb).
      rewrite uart_loop_idle.
      rewrite uart_loop_bytes by exact Hd.
      rewrite uart_loop_idles. rewrite <- !app_assoc. reflexivity.
Qed.

Lemma literal_is_byte (l : bytes) :
  forallb (fun b => (0 <=? b)%Z && (b <? 256)%Z) l = true -> Forall is_byte l.
Proof.
  intro H. rewrite forallb_forall in H. apply Forall_forall. intros x Hx.
  specialize (H x Hx). apply andb_true_iff in H. destruct H as [H1 H2].
  apply Z.leb_le in H1. apply Z.ltb_lt in H2. split; assumption.
Qed.

Lemma frame_of_is_byte seq_ : Forall is_byte (Send.frame_of seq_).
Proof.
  unfold Send.frame_of. cbv zeta.
  apply Forall_app. split; [apply to_be_is_byte |].
  apply Forall_app. split; [apply literal_is_byte; reflexivity |].
  apply Forall_app. split; [apply to_be_is_byte |].
  apply Forall_app. split; [apply literal_is_byte; reflexivity |].
  apply sha256_is_byte.
Qed.

Lemma uart_bytes_frame seq_ :
  uart_bytes (Send.frame_of seq_) = [170; 170; 170]%Z ++ Send.frame_of seq_.
Proof. reflexivity. Qed.

Lemma uart_loop_batch gap frames acc :
  Forall (Forall is_byte) frames ->
  uart_loop (batch_bits gap frames) 0 acc = acc ++ concat (map uart_bytes frames).
Proof.
  intro H. revert acc. induction H as [| frame frames Hf _ IH]; intro acc.
  - cbn. rewrite app_nil_r. apply uart_loop_nil.
  - unfold batch_bits in *. cbn [map concat]. rewrite <- app_assoc.
    rewrite uart_loop_packet by exact Hf.
    rewrite uart_loop_idles. rewrite IH. rewrite <- app_assoc. reflexivity.
Qed.

(** X5.  The UART loop of the demodulator, run on the bits the modulator
    frames for [data] (preamble, start/data/stop bits, postamble), reads
    three preamble bytes 0xAA and then [data] when the first data byte is
    even.  When it is odd the last preamble bit and the first byte are read
    as one byte, [first >> 1]; with no data at all a byte 0xFF is read from
    the postamble.  Bits that follow the packet are read as if the packet
    had not been there. *)
Theorem uart_reads_framed_bytes (data : bytes) :
  Forall is_byte data ->
  uart_loop (Send.frame_bits data) 0 [] =
    [170; 170; 170]%Z ++
    match data with
    | [] => [255%Z]
    | b :: rest => if Z.even b then b :: rest else Z.shiftr b 1 :: rest
    end /\
  forall rest acc,
    uart_loop (Send.frame_bits data ++ rest) 0 acc
    = uart_loop rest 0 (acc ++ uart_loop (Send.frame_bits data) 0 []).
Proof.
  intro H.
  assert (E : uart_loop (Send.frame_bits data) 0 [] = uart_bytes data).
  { rewrite <- (app_nil_r (Send.frame_bits data)).
    rewrite uart_loop_packet by exact H. apply uart_loop_nil. }
  split; [exact E |].
  intros rest acc. rewrite E. apply uart_loop_packet. exact H.
Qed.

Lemma uart_reads_framed_bytes_witness :
  uart_loop (Send.frame_bits [0; 56; 202]%Z) 0 [] = [170; 170; 170; 0; 56; 202]%Z /\
  uart_loop (Send.frame_bits [57; 202]%Z) 0 [] = [170; 170; 170; 28; 202]%Z.
Proof.
  split.
  - refine (proj1 (uart_reads_framed_bytes [0; 56; 202]%Z _)).
    repeat (apply Forall_cons; [unfold is_byte; lia |]). apply Forall_nil.
  - refine (proj1 (uart_reads_framed_bytes [57; 202]%Z _)).
    repeat (apply Forall_cons; [unfold is_byte; lia |]). apply Forall_nil.
Defined.

(** X6.  The discrete channel of a batch: when the bit slicer returns the
    bits the modulator framed, packet after packet with any number of idle
    bits in the gaps, the UART loop followed by [extract_packets] recovers
    every calibration packet, in order and intact. *)
Theorem batch_bits_recovered (gap : nat) (seqs : list Z) (frames : list bytes) :
  Forall2 (fun seq_ frame => Send.generate_calibration_packet seq_ = Ok frame)
          seqs frames ->
  extract_packets (uart_loop (batch_bits gap frames) 0 []) = map intact_packet seqs.
Proof.
  intro H.
  assert (G : Forall (fun p : bytes * Z =>
                        Forall (fun b => b <> 202%Z) (fst p) /\ (0 <= snd p <= 65535)%Z)
                     (map (fun s => ([170; 170; 170]%Z, s)) seqs) /\
              Forall (Forall is_byte) frames /\
              concat (map uart_bytes frames)
              = concat (map (fun p : bytes * Z => fst p ++ Send.frame_of (snd p))
                            (map (fun s => ([170; 170; 170]%Z, s)) seqs))).
  { induction H as [| seq_ frame seqs frames Hg _ [IH1 [IH2 IH3]]].
    - split; [constructor | split; [constructor | reflexivity]].
    - assert (Hr : (0 <= seq_ <= 65535)%Z).
      { destruct (Z_le_dec 0 seq_); destruct (Z_le_dec seq_ 65535); try lia;
          rewrite generate_calibration_packet_raises in Hg by lia; discriminate. }
      rewrite (generate_calibration_packet_ok seq_ Hr) in Hg.
      inversion Hg as [Hf]. clear Hg.
      split; [| split].
      + constructor; [| exact IH1]. split; [| exact Hr].
        repeat (apply Forall_cons; [discriminate |]). apply Forall_nil.
      + constructor; [apply frame_of_is_byte | exact IH2].
      + cbn [map concat fst snd]. rewrite IH3, uart_bytes_frame. reflexivity. }
  destruct G as [G1 [G2 G3]].
  rewrite uart_loop_batch by exact G2. cbn [app]. rewrite G3.
  pose proof (extract_calibration_stream _ [] G1 (Forall_nil _)) as E.
  rewrite app_nil_r in E. etransitivity; [exact E |]. rewrite map_map. reflexivity.
Qed.

Lemma batch_bits_recovered_witness :
  extract_packets
    (uart_loop (batch_bits 15 [Send.frame_of 0; Send.frame_of 1]) 0 [])
  = map intact_packet [0; 1]%Z.
Proof.
  apply (batch_bits_recovered 15 [0; 1]%Z).
  repeat (apply Forall2_cons; [apply generate_calibration_packet_ok; lia |]).
  apply Forall2_nil.
Defined.

End Uart.

(** ** Silence at the receiver *)

Section Silence.
Import Bytes Exn Recv.
Local Open Scope R_scope.

Lemma goertzel_state_zeros coeff n : goertzel_state coeff (repeat 0 n) = (0, 0).
Proof.
  unfold goertzel_state. induction n as [| n IH]; [reflexivity |].
  cbn [repeat fold_left].
  replace (0 + coeff * 0 - 0) with 0 by ring. exact IH.
Qed.

Lemma goertzel_zeros n target_freq (sample_rate k : Z) :
  (0 < n)%nat ->
  goertzel_bin (Z.of_nat n) target_freq sample_rate = Ok k ->
  goertzel (repeat 0 n) target_freq sample_rate = Ok 0.
Proof.
  intros Hn Hk. unfold goertzel. rewrite repeat_length, Hk. cbn [bind].
  destruct (Z.eqb_spec (Z.of_nat n) 0); [lia |]. cbn [bind].
  cbv zeta. rewrite goertzel_state_zeros. f_equal. unfold Rdiv. ring.
Qed.

Lemma skipn_repeat {A : Type} (x : A) b n : skipn b (repeat x n) = repeat x (n - b).
Proof.
  revert b. induction n as [| n IH]; intros [| b]; try reflexivity.
  cbn [repeat skipn]. rewrite IH. reflexivity.
Qed.

Lemma firstn_repeat_min {A : Type} (x : A) a n :
  firstn a (repeat x n) = repeat x (Nat.min a n).
Proof.
  revert a. induction n as [| n IH]; intros [| a]; try reflexivity.
  cbn [repeat firstn Nat.min]. rewrite IH. reflexivity.
Qed.

(** A whole window of a silent recording. *)
Lemma window_zeros n (i spb : Z) :
  (0 <= i)%Z -> (0 < spb)%Z -> ((i + 1) * spb <= Z.of_nat n)%Z ->
  window (repeat 0 n) (i * spb) (i * spb + spb) = repeat 0 (Z.to_nat spb).
Proof.
  intros Hi Hs Hn. unfold window. rewrite skipn_repeat, firstn_repeat_min.
  f_equal. nia.
Qed.

Lemma slice_bits_zeros n freq0 freq1 (sample_rate spb k0 k1 : Z) indices :
  (0 < spb)%Z ->
  goertzel_bin spb freq0 sample_rate = Ok k0 ->
  goertzel_bin spb freq1 sample_rate = Ok k1 ->
  Forall (fun i => 0 <= i /\ (i + 1) * spb <= Z.of_nat n)%Z indices ->
  slice_bits (repeat 0 n) freq0 freq1 sample_rate spb indices
  = Ok (repeat 1%Z (length indices)).
Proof.
  intros Hs H0 H1 Hi. induction Hi as [| i rest [Ha Hb] _ IH]; [reflexivity |].
  cbn [slice_bits]. cbv zeta.
  rewrite (window_zeros n i spb Ha Hs Hb).
  rewrite (goertzel_zeros _ freq0 sample_rate k0), (goertzel_zeros _ freq1 sample_rate k1);
    try lia; try (rewrite Z2Nat.id by lia; assumption).
  cbn [bind]. rewrite IH. cbn [bind].
  destruct (Rgt_dec 0 0) as [Hgt | _]; [exfalso; lra | reflexivity].
Qed.

Lemma uart_loop_all_idle n : uart_loop (repeat 1%Z n) 0 [] = [].
Proof.
  rewrite <- (app_nil_r (repeat 1%Z n)). rewrite uart_loop_idles. apply uart_loop_nil.
Qed.

Lemma window_indices (n : nat) (spb : Z) :
  (0 < spb)%Z ->
  Forall (fun i => 0 <= i /\ (i + 1) * spb <= Z.of_nat n)%Z
         (map Z.of_nat (List.seq 0 (Z.to_nat (Z.of_nat n / spb)))).
Proof.
  intro Hs. apply Forall_forall. intros i Hi. apply in_map_iff in Hi.
  destruct Hi as [j [<- Hj]]. apply in_seq in Hj.
  pose proof (Z.div_pos (Z.of_nat n) spb ltac:(lia) Hs) as Hq.
  pose proof (Z.mul_div_le (Z.of_nat n) spb Hs) as Hm.
  split; [lia | nia].
Qed.

(** The bin of a detector is defined for a window, a rate and a tone of
    ordinary size. *)
Lemma goertzel_bin_defined (n : Z) (target_freq : Q) (sample_rate : Z) :
  (0 <= n < 2 ^ 53)%Z -> sample_rate <> 0%Z -> (Z.abs sample_rate < 2 ^ 53)%Z ->
  (Qabs target_freq <= 2 ^ 53)%Q ->
  exists k, goertzel_bin n target_freq sample_rate = Ok k.
Proof.
  intros Hn Hr0 Hr Hf. unfold goertzel_bin.
  rewrite float_of_int_exact by lia. cbn [bind].
  rewrite (float_divisor_exact _ Hr).
  destruct (Z.eqb_spec sample_rate 0); [contradiction |]. cbn [bind].
  rewrite (binary64_within_pow2 target_freq 53) by (try lia; exact Hf).
  destruct (nearest_within_pow2 target_freq 53 ltac:(lia) Hf) as [Fl Fu].
  cbn [Py.fmul].
  assert (N0 : (0 <= inject_Z n)%Q).
  { change 0%Q with (inject_Z 0). rewrite <- Zle_Qle. lia. }
  assert (N1 : (inject_Z n <= 2 ^ 53)%Q).
  { rewrite (pow2_Z 53) by lia. rewrite <- Zle_Qle. lia. }
  assert (P : (Qabs (inject_Z n * Py.nearest target_freq) <= 2 ^ 106)%Q).
  { rewrite Qabs_Qmult, (Qabs_pos (inject_Z n)) by exact N0.
    assert (A : (Qabs (Py.nearest target_freq) <= 2 ^ 53)%Q)
      by (apply Qabs_Qle_condition; split; assumption).
    pose proof (Qabs_nonneg (Py.nearest target_freq)) as A0.
    change (2 ^ 106)%Q with (2 ^ 53 * 2 ^ 53)%Q.
    apply Qle_trans with (2 ^ 53 * Qabs (Py.nearest target_freq))%Q.
    - apply Qmult_le_compat_r; assumption.
    - apply Qmult_le_l; [reflexivity | exact A]. }
  rewrite (binary64_within_pow2 _ 106) by (try lia; exact P).
  destruct (nearest_within_pow2 _ 106 ltac:(lia) P) as [Pl Pu].
  unfold Py.fdiv.
  assert (Rz : Qeq_bool (inject_Z sample_rate) 0 = false).
  { apply Qeq_bool_false. intro E. unfold Qeq in E. cbn [inject_Z Qnum Qden] in E. lia. }
  rewrite Rz.
  set (p := Py.nearest (inject_Z n * Py.nearest target_freq)) in *.
  assert (D : (Qabs (p / inject_Z sample_rate) <= 2 ^ 106)%Q).
  { unfold Qdiv. rewrite Qabs_Qmult, Qabs_Qinv.
    change (Qabs (inject_Z sample_rate)) with (inject_Z (Z.abs sample_rate)).
    assert (B : (1 <= inject_Z (Z.abs sample_rate))%Q).
    { change 1%Q with (inject_Z 1). rewrite <- Zle_Qle. lia. }
    assert (A : (Qabs p <= 2 ^ 106)%Q) by (apply Qabs_Qle_condition; split; assumption).
    pose proof (Qabs_nonneg p) as A0.
    apply Qle_shift_div_r; [Lqa.lra |]. Lqa.nra. }
  rewrite (binary64_within_pow2 _ 106) by (try lia; exact D).
  destruct (nearest_within_pow2 _ 106 ltac:(lia) D) as [Dl Du].
  cbn [bind Py.fadd].
  set (y := Py.nearest (p / inject_Z sample_rate)) in *.
  assert (S : (Qabs (0.5 + y) <= 2 ^ 107)%Q).
  { apply Qabs_Qle_condition.
    change (2 ^ 107)%Q with (2 ^ 106 + 2 ^ 106)%Q.
    assert (O : (1 <= 2 ^ 106)%Q) by (vm_compute; discriminate).
    split; Lqa.lra. }
  rewrite (binary64_within_pow2 _ 107) by (try lia; exact S).
  eexists. reflexivity.
Qed.

Lemma demodulate_zeros (n : nat) (freq0 freq1 : Q) (sample_rate baud_rate : Z) :
  (Z.abs sample_rate < 2 ^ 53)%Z ->
  (Qabs freq0 <= 2 ^ 53)%Q -> (Qabs freq1 <= 2 ^ 53)%Q ->
  demodulate_afsk (repeat 0 n) freq0 freq1 sample_rate baud_rate =
    (if (baud_rate =? 0)%Z || (Z.quot sample_rate baud_rate =? 0)%Z
     then Raise ZeroDivisionError else Ok []).
Proof.
  intros Hr H0 H1. unfold demodulate_afsk. rewrite (int_div_exact _ _ Hr).
  destruct (Z.eqb_spec baud_rate 0) as [Hb | Hb]; [reflexivity |].
  cbn [bind orb].
  destruct (Z.eqb_spec (Z.quot sample_rate baud_rate) 0) as [Hq | Hq]; [reflexivity |].
  cbn [bind]. rewrite repeat_length.
  assert (Hs : sample_rate <> 0%Z).
  { intro E. apply Hq. rewrite E. apply Z.quot_0_l. exact Hb. }
  pose proof (quot_abs_le sample_rate baud_rate Hb) as Hle.
  set (spb := Z.quot sample_rate baud_rate) in *.
  destruct (Z_lt_le_dec spb 0) as [Neg | Pos].
  - assert (E : Z.to_nat (Z.of_nat n / spb) = 0%nat).
    { assert (Z.of_nat n / spb <= 0)%Z; [| lia].
      pose proof (Z.div_mod (Z.of_nat n) spb ltac:(lia)) as Dm.
      pose proof (Z.mod_neg_bound (Z.of_nat n) spb Neg) as Mb.
      nia. }
    rewrite E. reflexivity.
  - destruct (goertzel_bin_defined spb freq0 sample_rate ltac:(lia) Hs Hr H0) as [k0 K0].
    destruct (goertzel_bin_defined spb freq1 sample_rate ltac:(lia) Hs Hr H1) as [k1 K1].
    rewrite (slice_bits_zeros n freq0 freq1 sample_rate spb k0 k1)
      by (try assumption; try lia; apply window_indices; lia).
    cbn [bind]. rewrite uart_loop_all_idle. reflexivity.
Qed.

Lemma summarize_nothing (total_expected : Z) :
  let s := summarize [] total_expected in
  packets_found s = 0%Z /\ packets_lost s = Z.max 0 total_expected /\
  (per s == if (1 <=? total_expected)%Z then 1 else 0)%Q /\
  quality s = (if (1 <=? total_expected)%Z then poor else excellent).
Proof.
  cbv zeta. unfold summarize. cbn [length filter count Z.of_nat].
  cbn [packets_found packets_lost per quality].
  rewrite Z.sub_0_r, Z.add_0_r.
  split; [reflexivity |]. split; [reflexivity |].
  assert (E : error_ratio (Z.max 0 total_expected) total_expected
              = (if (1 <=? total_expected)%Z then 1 else 0)%Q).
  { unfold error_ratio. destruct (Z.leb_spec 1 total_expected) as [Hl | Hl].
    - rewrite (Z.max_r 0), (Z.max_l total_expected 1) by lia.
      rewrite (nearest_comp _ 1); [vm_compute; reflexivity |].
      apply Qmult_inv_r. intro E. unfold Qeq in E. cbn [inject_Z Qnum Qden] in E. lia.
    - rewrite Z.max_l, Z.max_r by lia. vm_compute. reflexivity. }
  rewrite E. destruct (1 <=? total_expected)%Z; split; vm_compute; reflexivity.
Qed.

(** X7.  A recording of silence demodulates to no bytes: every window has
    the same (zero) power at both tones, which reads as an idle bit.  The
    report then counts every expected packet as lost, with PER 1 and
    quality [poor] when at least one packet was expected, and PER 0 and
    quality [excellent] when none was.  For a rate and for tones of
    ordinary size (below [2 ^ 53]) the only failures are the divisions by a
    zero baud rate or a zero number of samples per bit. *)
Theorem silent_recording_report (a : args) (source : option string)
    (n : nat) (sample_rate : Z) :
  (Z.abs sample_rate < 2 ^ 53)%Z ->
  (Qabs (freq0 a) <= 2 ^ 53)%Q -> (Qabs (freq1 a) <= 2 ^ 53)%Q ->
  analyze_samples a source (repeat 0 n) sample_rate =
    (if (baud a =? 0)%Z || (Z.quot sample_rate (baud a) =? 0)%Z
     then failed (Exception ZeroDivisionError)
     else succeeded source sample_rate 0 (summarize [] (expected a))) /\
  packets_found (summarize [] (expected a)) = 0%Z /\
  packets_lost (summarize [] (expected a)) = Z.max 0 (expected a) /\
  (per (summarize [] (expected a)) == if (1 <=? expected a)%Z then 1 else 0)%Q /\
  quality (summarize [] (expected a))
  = (if (1 <=? expected a)%Z then poor else excellent).
Proof.
  intros Hr H0 H1. split; [| apply summarize_nothing].
  unfold analyze_samples. rewrite (demodulate_zeros _ _ _ _ _ Hr H0 H1).
  destruct ((baud a =? 0)%Z || (Z.quot sample_rate (baud a) =? 0)%Z); reflexivity.
Qed.

Lemma silent_recording_report_witness :
  analyze_samples recv_defaults None (repeat 0 960) 48000 =
    succeeded None 48000 0 (summarize [] 10) /\
  quality (summarize [] 10) = poor.
Proof.
  assert (Hr : (Z.abs 48000 < 2 ^ 53)%Z) by (vm_compute; reflexivity).
  assert (H0 : (Qabs (freq0 recv_defaults) <= 2 ^ 53)%Q) by (vm_compute; discriminate).
  assert (H1 : (Qabs (freq1 recv_defaults) <= 2 ^ 53)%Q) by (vm_compute; discriminate).
  destruct (silent_recording_report recv_defaults None 960 48000 Hr H0 H1)
    as [E [_ [_ [_ Q]]]].
  split; [exact E | exact Q].
Defined.

End Silence.

(** ** send.py: what the modulator returns and how a batch can fail *)

Section SendEdge.
Import Bytes Exn Send.
Local Opaque Hashlib.sha256.






(** Beyond [2 ^ 53] the number of samples per bit is the truncation of
    the rounded quotient, which can exceed the truncated exact quotient. *)
Example samples_per_bit_beyond_53_bits :
  Py.int_div (3 * 2 ^ 53 - 1) (2 ^ 53) = Ok 3%Z /\
  Z.quot (3 * 2 ^ 53 - 1) (2 ^ 53) = 2%Z.
Proof. split; vm_compute; reflexivity. Qed.









End SendEdge.

Section WavRoundTrip.
Import Bytes Exn WavWriter.
Local Open Scope Z_scope.

Lemma to_le_4 x :
  to_le 4 x = [Z.land x 255; Z.land (Z.shiftr x 8) 255;
               Z.land (Z.shiftr (Z.shiftr x 8) 8) 255;
               Z.land (Z.shiftr (Z.shiftr (Z.shiftr x 8) 8) 8) 255].
Proof. reflexivity. Qed.

Lemma to_le_2 x : to_le 2 x = [Z.land x 255; Z.land (Z.shiftr x 8) 255].
Proof. reflexivity. Qed.

Lemma from_le_to_le n x : from_le (to_le n x) = x mod 2 ^ (8 * Z.of_nat n).
Proof. unfold from_le, to_le. rewrite rev_involutive. apply from_be_to_be. Qed.

Lemma signed_int16 x :
  is_int16 x -> Wav.signed 16 (from_le (to_le 2 x)) = x.
Proof.
  unfold is_int16. intro H. rewrite from_le_to_le.
  change (2 ^ (8 * Z.of_nat 2)) with 65536. unfold Wav.signed.
  change (2 ^ (16 - 1)) with 32768. change (2 ^ 16) with 65536.
  destruct (Z_lt_dec x 0) as [Hn | Hp].
  - replace (x mod 65536) with (x + 65536)
      by (apply Z.mod_unique with (q := -1); lia).
    destruct (Z.ltb_spec (x + 65536) 32768); lia.
  - rewrite Z.mod_small by lia. destruct (Z.ltb_spec x 32768); lia.
Qed.

Lemma length_tobytes pcm : length (tobytes pcm) = (2 * length pcm)%nat.
Proof.
  unfold tobytes. induction pcm as [| x pcm IH]; [reflexivity |].
  cbn [flat_map]. rewrite length_app, IH. cbn [length to_le]. simpl. lia.
Qed.

Lemma groups_tobytes pcm :
  groups 2 (length pcm) (tobytes pcm) = map (to_le 2) pcm.
Proof.
  unfold tobytes. induction pcm as [| x pcm IH]; [reflexivity |].
  cbn [flat_map length groups map]. rewrite to_le_2. cbn [app firstn skipn].
  rewrite IH. reflexivity.
Qed.

Lemma frombuffer_tobytes pcm :
  Forall is_int16 pcm -> Wav.frombuffer 2 (tobytes pcm) = Ok pcm.
Proof.
  intro H. unfold Wav.frombuffer. rewrite length_tobytes.
  replace ((2 * length pcm) mod 2)%nat with 0%nat
    by (symmetry; rewrite Nat.mul_comm; apply Nat.Div0.mod_mul).
  cbn [Nat.eqb].
  replace (2 * length pcm / 2)%nat with (length pcm)
    by (symmetry; rewrite Nat.mul_comm; apply Nat.div_mul; lia).
  rewrite groups_tobytes, map_map. f_equal.
  induction H as [| x pcm Hx _ IH]; [reflexivity |].
  cbn [map]. rewrite IH. f_equal. apply signed_int16. exact Hx.
Qed.

Lemma pack_le_ok size v :
  0 <= v < 2 ^ (8 * Z.of_nat size) -> pack_le size v = Ok (to_le size v).
Proof.
  intro H. unfold pack_le.
  destruct (Z.leb_spec 0 v); destruct (Z.ltb_spec v (2 ^ (8 * Z.of_nat size)));
    try lia; reflexivity.
Qed.

Lemma pack_le_raises size v :
  ~ 0 <= v < 2 ^ (8 * Z.of_nat size) -> pack_le size v = Raise struct_error.
Proof.
  intro H. unfold pack_le.
  destruct (Z.leb_spec 0 v); destruct (Z.ltb_spec v (2 ^ (8 * Z.of_nat size)));
    try lia; reflexivity.
Qed.

Lemma write_wav_ok pcm sample_rate :
  0 <= sample_rate -> sample_rate * 2 < 2 ^ 32 ->
  36 + Z.of_nat (length pcm) * 2 < 2 ^ 32 ->
  write_wav pcm sample_rate = Ok (wav_file pcm sample_rate).
Proof.
  intros H0 H1 H2. unfold write_wav. cbv zeta.
  rewrite (pack_le_ok 4 (36 + _)) by (change (2 ^ (8 * Z.of_nat 4)) with (2 ^ 32); lia).
  cbn [bind].
  rewrite (pack_le_ok 4 16), (pack_le_ok 2 1), (pack_le_ok 2 2), (pack_le_ok 2 16)
    by (cbn; lia).
  cbn [bind].
  rewrite (pack_le_ok 4 sample_rate), (pack_le_ok 4 (sample_rate * 2))
    by (change (2 ^ (8 * Z.of_nat 4)) with (2 ^ 32); lia).
  cbn [bind].
  rewrite (pack_le_ok 4 (Z.of_nat (length pcm) * 2))
    by (change (2 ^ (8 * Z.of_nat 4)) with (2 ^ 32); lia).
  reflexivity.
Qed.

Lemma read_exact (a rest : bytes) n :
  length a = n -> Wav.read n (a ++ rest) = (a, rest).
Proof.
  intro H. unfold Wav.read. subst n.
  rewrite firstn_app, firstn_all, Nat.sub_diag, skipn_app, skipn_all, Nat.sub_diag.
  cbn [firstn skipn app]. rewrite app_nil_r. reflexivity.
Qed.

Lemma length_to_le n x : length (to_le n x) = n.
Proof. unfold to_le. rewrite length_rev. apply length_to_be. Qed.

Lemma unpack_le_to_le n x :
  0 <= x < 2 ^ (8 * Z.of_nat n) -> Wav.unpack_le n (to_le n x) = Ok x.
Proof.
  intro H. unfold Wav.unpack_le. rewrite length_to_le, Nat.eqb_refl.
  rewrite from_le_to_le, Z.mod_small by exact H. reflexivity.
Qed.

(** One turn of the chunk loop on a chunk laid out as the writer does:
    identifier, size, body. *)
Lemma chunk_step_chunk (S : Type) on_fmt on_data (id body rest : bytes) (st : S) :
  length id = 4%nat -> Z.of_nat (length body) < 2 ^ 32 ->
  Wav.chunk_step S on_fmt on_data
    (id ++ to_le 4 (Z.of_nat (length body)) ++ body ++ rest) st =
    (if eqb id (of_string "fmt ") then
       st' <- on_fmt body st ;; Ok (Wav.chunk_next S rest st')
     else if eqb id (of_string "data") then
       Ok (Wav.chunk_next S rest (on_data body st))
     else Ok (Wav.chunk_next S rest st)).
Proof.
  intros Hid Hb. unfold Wav.chunk_step.
  rewrite (read_exact id _ 4 Hid). rewrite Hid. cbn [Nat.ltb Nat.leb].
  rewrite (read_exact (to_le 4 _) _ 4 (length_to_le 4 _)).
  rewrite unpack_le_to_le by (change (2 ^ (8 * Z.of_nat 4)) with (2 ^ 32); lia).
  cbn [bind]. rewrite Nat2Z.id.
  rewrite (read_exact body rest _ eq_refl). reflexivity.
Qed.

Lemma chunk_step_end (S : Type) on_fmt on_data (st : S) :
  Wav.chunk_step S on_fmt on_data [] st = Ok (Wav.chunk_break S).
Proof. reflexivity. Qed.

Lemma wav_file_chunks pcm sample_rate :
  wav_file pcm sample_rate =
    of_string "RIFF" ++ to_le 4 (36 + Z.of_nat (length pcm) * 2) ++ of_string "WAVE"
      ++ (of_string "fmt " ++ to_le 4 (Z.of_nat (length (fmt_body sample_rate)))
            ++ fmt_body sample_rate
            ++ (of_string "data" ++ to_le 4 (Z.of_nat (length (tobytes pcm)))
                  ++ tobytes pcm ++ [])).
Proof.
  unfold wav_file, fmt_body. rewrite length_tobytes.
  replace (Z.of_nat (2 * length pcm)) with (Z.of_nat (length pcm) * 2) by lia.
  rewrite app_nil_r. rewrite <- !app_assoc. reflexivity.
Qed.

Lemma recv_on_fmt sample_rate st :
  0 <= sample_rate < 2 ^ 32 ->
  Recv.on_fmt (fmt_body sample_rate) st =
    Ok {| Recv.ws_sample_rate := sample_rate; Recv.ws_bits_per_sample := 16;
          Recv.ws_data := Recv.ws_data st |}.
Proof.
  intro H. unfold Recv.on_fmt.
  change (slice (fmt_body sample_rate) 4 8) with (to_le 4 sample_rate).
  change (slice (fmt_body sample_rate) 14 16) with (to_le 2 16).
  rewrite unpack_le_to_le by (change (2 ^ (8 * Z.of_nat 4)) with (2 ^ 32); lia).
  cbn [bind]. reflexivity.
Qed.

Lemma recv_chunks pcm sample_rate :
  0 <= sample_rate < 2 ^ 32 -> Z.of_nat (length pcm) * 2 < 2 ^ 32 ->
  Wav.chunk_loop Recv.wav_state Recv.on_fmt Recv.on_data
    (of_string "fmt " ++ to_le 4 (Z.of_nat (length (fmt_body sample_rate)))
       ++ fmt_body sample_rate
       ++ (of_string "data" ++ to_le 4 (Z.of_nat (length (tobytes pcm)))
             ++ tobytes pcm ++ []))
    {| Recv.ws_sample_rate := 48000; Recv.ws_bits_per_sample := 16;
       Recv.ws_data := [] |}
  = Ok {| Recv.ws_sample_rate := sample_rate; Recv.ws_bits_per_sample := 16;
          Recv.ws_data := tobytes pcm |}.
Proof.
  intros Hs Hp.
  rewrite chunk_loop_turn, chunk_step_chunk; [| reflexivity | cbn; lia].
  change (eqb (of_string "fmt ") (of_string "fmt ")) with true. cbv iota.
  rewrite recv_on_fmt by exact Hs. cbn [bind].
  rewrite chunk_loop_turn, chunk_step_chunk;
    [| reflexivity | rewrite length_tobytes; lia].
  change (eqb (of_string "data") (of_string "fmt ")) with false.
  change (eqb (of_string "data") (of_string "data")) with true. cbv iota.
  rewrite chunk_loop_turn, chunk_step_end. reflexivity.
Qed.

Lemma analyze_on_fmt sample_rate st :
  0 <= sample_rate < 2 ^ 32 ->
  Analyze.on_fmt (fmt_body sample_rate) st =
    Ok {| Analyze.ws_sample_rate := sample_rate; Analyze.ws_channels := 1;
          Analyze.ws_bits_per_sample := 16;
          Analyze.ws_data := Analyze.ws_data st |}.
Proof.
  intro H. unfold Analyze.on_fmt.
  change (slice (fmt_body sample_rate) 0 2) with (to_le 2 1).
  change (slice (fmt_body sample_rate) 2 4) with (to_le 2 1).
  change (slice (fmt_body sample_rate) 4 8) with (to_le 4 sample_rate).
  change (slice (fmt_body sample_rate) 14 16) with (to_le 2 16).
  rewrite (unpack_le_to_le 4 sample_rate)
    by (change (2 ^ (8 * Z.of_nat 4)) with (2 ^ 32); lia).
  reflexivity.
Qed.

Lemma analyze_chunks pcm sample_rate :
  0 <= sample_rate < 2 ^ 32 -> Z.of_nat (length pcm) * 2 < 2 ^ 32 ->
  Wav.chunk_loop Analyze.wav_state Analyze.on_fmt Analyze.on_data
    (of_string "fmt " ++ to_le 4 (Z.of_nat (length (fmt_body sample_rate)))
       ++ fmt_body sample_rate
       ++ (of_string "data" ++ to_le 4 (Z.of_nat (length (tobytes pcm)))
             ++ tobytes pcm ++ []))
    {| Analyze.ws_sample_rate := 44100; Analyze.ws_channels := 1;
       Analyze.ws_bits_per_sample := 16; Analyze.ws_data := [] |}
  = Ok {| Analyze.ws_sample_rate := sample_rate; Analyze.ws_channels := 1;
          Analyze.ws_bits_per_sample := 16; Analyze.ws_data := tobytes pcm |}.
Proof.
  intros Hs Hp.
  rewrite chunk_loop_turn, chunk_step_chunk; [| reflexivity | cbn; lia].
  change (eqb (of_string "fmt ") (of_string "fmt ")) with true. cbv iota.
  rewrite analyze_on_fmt by exact Hs. cbn [bind].
  rewrite chunk_loop_turn, chunk_step_chunk;
    [| reflexivity | rewrite length_tobytes; lia].
  change (eqb (of_string "data") (of_string "fmt ")) with false.
  change (eqb (of_string "data") (of_string "data")) with true. cbv iota.
  rewrite chunk_loop_turn, chunk_step_end. reflexivity.
Qed.

Lemma length_wav_file pcm sample_rate :
  length (wav_file pcm sample_rate) = (44 + 2 * length pcm)%nat.
Proof.
  unfold wav_file. rewrite !length_app, !length_to_le, length_tobytes. reflexivity.
Qed.

Lemma recv_reads_wav_file pcm sample_rate :
  Forall is_int16 pcm ->
  0 <= sample_rate < 2 ^ 32 -> Z.of_nat (length pcm) * 2 < 2 ^ 32 ->
  Recv.read_wav (wav_file pcm sample_rate) =
    Ok (map (fun x => (inject_Z x / 32768)%Q) pcm, sample_rate).
Proof.
  intros Hpcm Hs Hp. rewrite wav_file_chunks. unfold Recv.read_wav.
  rewrite (read_exact (of_string "RIFF") _ 4 eq_refl).
  change (negb (eqb (of_string "RIFF") (of_string "RIFF"))) with false. cbv iota.
  rewrite (read_exact (to_le 4 _) _ 4 (length_to_le 4 _)).
  rewrite (read_exact (of_string "WAVE") _ 4 eq_refl).
  rewrite recv_chunks by assumption. cbn [bind Recv.ws_bits_per_sample Recv.ws_data
                                            Recv.ws_sample_rate].
  change (16 =? 16) with true. cbv iota.
  rewrite frombuffer_tobytes by exact Hpcm. reflexivity.
Qed.

Lemma analyze_reads_wav_file pcm sample_rate :
  Forall is_int16 pcm ->
  0 <= sample_rate < 2 ^ 32 -> Z.of_nat (length pcm) * 2 < 2 ^ 32 ->
  Analyze.read_wav (wav_file pcm sample_rate) =
    match pcm with
    | [] => Raise (ValueError No_audio_data_found)
    | _ :: _ => Ok (map (fun x => (inject_Z x / 32768)%Q) pcm, sample_rate, 1)
    end.
Proof.
  intros Hpcm Hs Hp. rewrite wav_file_chunks. unfold Analyze.read_wav.
  rewrite (read_exact (of_string "RIFF") _ 4 eq_refl).
  change (negb (eqb (of_string "RIFF") (of_string "RIFF"))) with false. cbv iota.
  rewrite (read_exact (to_le 4 _) _ 4 (length_to_le 4 _)).
  rewrite (read_exact (of_string "WAVE") _ 4 eq_refl).
  change (negb (eqb (of_string "WAVE") (of_string "WAVE"))) with false. cbv iota.
  rewrite analyze_chunks by assumption.
  cbn [bind Analyze.ws_bits_per_sample Analyze.ws_data Analyze.ws_sample_rate
         Analyze.ws_channels].
  destruct pcm as [| x pcm]; [reflexivity |].
  change (tobytes (x :: pcm)) with (Z.land x 255 :: Z.land (Z.shiftr x 8) 255 :: tobytes pcm)
    at 1.
  cbv iota. change (16 =? 16) with true. cbv iota.
  rewrite frombuffer_tobytes by exact Hpcm. reflexivity.
Qed.

(** X10.  A file written by [write_wav] is read back by both readers: the
    44-byte header carries the sample rate, and every int16 sample [x]
    comes back as [x / 32768], in order (so within [-1, 1)).  The writer
    With no sample at all the receiver's reader still succeeds while the
    analyzer's reader refuses the file. *)
Theorem wav_write_read (pcm : list Z) (sample_rate : Z) :
  Forall is_int16 pcm ->
  0 <= sample_rate -> sample_rate * 2 < 2 ^ 32 ->
  36 + Z.of_nat (length pcm) * 2 < 2 ^ 32 ->
  exists content,
    write_wav pcm sample_rate = Ok content /\
    length content = (44 + 2 * length pcm)%nat /\
    Recv.read_wav content =
      Ok (map (fun x => (inject_Z x / 32768)%Q) pcm, sample_rate) /\
    Analyze.read_wav content =
      match pcm with
      | [] => Raise (ValueError No_audio_data_found)
      | _ :: _ => Ok (map (fun x => (inject_Z x / 32768)%Q) pcm, sample_rate, 1)
      end /\
    Forall (fun s => -1 <= s < 1)%Q (map (fun x => (inject_Z x / 32768)%Q) pcm).
Proof.
  intros Hpcm H0 H1 H2. exists (wav_file pcm sample_rate).
  split; [apply write_wav_ok; assumption |].
  split; [apply length_wav_file |].
  split; [apply recv_reads_wav_file; try assumption; lia |].
  split; [apply analyze_reads_wav_file; try assumption; lia |].
  apply Forall_map. eapply Forall_impl; [| exact Hpcm].
  intros x [Hx1 Hx2]. unfold Qdiv, Qle, Qlt. simpl. lia.
Qed.

Lemma wav_write_read_witness :
  exists content,
    write_wav [0; 19660; -19660; 32767; -32768] 48000 = Ok content /\
    length content = 54%nat /\
    Recv.read_wav content =
      Ok (map (fun x => (inject_Z x / 32768)%Q) [0; 19660; -19660; 32767; -32768],
          48000).
Proof.
  assert (Hpcm : Forall is_int16 [0; 19660; -19660; 32767; -32768]).
  { repeat (apply Forall_cons; [unfold is_int16; lia |]). apply Forall_nil. }
  destruct (wav_write_read [0; 19660; -19660; 32767; -32768] 48000 Hpcm
              ltac:(lia) ltac:(lia) ltac:(cbn; lia))
    as [content [Hw [Hl [Hr _]]]].
  exists content. split; [exact Hw |]. split; [exact Hl | exact Hr].
Defined.

(** X11.  [write_wav] raises struct.error exactly when a header field does
    not fit its 32 bits: a negative sample rate, a byte rate
    [2 * sample_rate] of 2^32 or more, or 36 bytes plus the data size
    reaching 2^32; otherwise it writes the 44-byte header followed by two
    bytes per sample. *)
Theorem write_wav_overflow (pcm : list Z) (sample_rate : Z) :
  write_wav pcm sample_rate =
    if (0 <=? sample_rate) && (sample_rate * 2 <? 2 ^ 32)
       && (36 + Z.of_nat (length pcm) * 2 <? 2 ^ 32)
    then Ok (wav_file pcm sample_rate) else Raise struct_error.
Proof.
  assert (P32 : 2 ^ (8 * Z.of_nat 4) = 2 ^ 32) by reflexivity.
  destruct (Z.ltb_spec (36 + Z.of_nat (length pcm) * 2) (2 ^ 32)) as [H2 | H2].
  - destruct (Z.leb_spec 0 sample_rate) as [H0 | H0].
    + destruct (Z.ltb_spec (sample_rate * 2) (2 ^ 32)) as [H1 | H1].
      * apply write_wav_ok; assumption.
      * cbn [andb]. unfold write_wav. cbv zeta.
        rewrite (pack_le_ok 4 (36 + _)) by (rewrite P32; lia). cbn [bind].
        rewrite (pack_le_ok 4 16), (pack_le_ok 2 1) by (cbn; lia). cbn [bind].
        destruct (Z_lt_dec sample_rate (2 ^ 32)) as [Hs | Hs].
        -- rewrite (pack_le_ok 4 sample_rate) by (rewrite P32; lia). cbn [bind].
           rewrite (pack_le_raises 4 (sample_rate * 2)) by (rewrite P32; lia).
           reflexivity.
        -- rewrite (pack_le_raises 4 sample_rate) by (rewrite P32; lia). reflexivity.
    + cbn [andb]. unfold write_wav. cbv zeta.
      rewrite (pack_le_ok 4 (36 + _)) by (rewrite P32; lia). cbn [bind].
      rewrite (pack_le_ok 4 16), (pack_le_ok 2 1) by (cbn; lia). cbn [bind].
      rewrite (pack_le_raises 4 sample_rate) by (rewrite P32; lia). reflexivity.
  - rewrite andb_false_r. unfold write_wav. cbv zeta.
    rewrite (pack_le_raises 4 (36 + _)) by (rewrite P32; lia). reflexivity.
Qed.

End WavRoundTrip.

(** ** decide.py: the confidence of a decision *)

Section DecideConfidence.
Import Py Decide.

(** A double that is not negative is finite or the positive infinity. *)
Lemma binary64_nonneg (x : Q) :
  (0 <= nearest x)%Q -> binary64 x = PosInf \/ binary64 x = Fin (nearest x).
Proof.
  intro H. pose proof (pow2_pos 1024) as P. unfold binary64. cbv zeta.
  destruct (Qle_bool (2 ^ 1024) (nearest x)); [left; reflexivity |].
  destruct (Qle_bool (nearest x) (- 2 ^ 1024)) eqn:B; [| right; reflexivity].
  apply Qle_bool_iff in B. exfalso. Lqa.lra.
Qed.

(** A quotient by a positive constant: both roundings keep the order, so
    a lower bound of the dividend gives one of the result. *)
Lemma div_pos_cases (q t c : Q) :
  (0 < c)%Q -> (0 <= t)%Q -> (t <= q)%Q ->
  div_pos (Fin q) c = PosInf \/
  exists r, div_pos (Fin q) c = Fin r /\ (nearest (nearest t / c) <= r)%Q.
Proof.
  intros Hc Ht Hq.
  pose proof (nearest_nonneg t Ht) as T0.
  pose proof (nearest_mono t q Hq) as Tq.
  assert (Hd : (nearest t / c <= nearest q / c)%Q).
  { unfold Qdiv. apply Qmult_le_compat_r; [exact Tq |].
    apply Qlt_le_weak, Qinv_lt_0_compat. exact Hc. }
  pose proof (nearest_mono _ _ Hd) as Hr.
  assert (R0 : (0 <= nearest (nearest q / c))%Q).
  { apply nearest_nonneg. apply Qle_shift_div_l; [exact Hc | Lqa.lra]. }
  unfold div_pos.
  destruct (binary64_nonneg q) as [-> | ->]; [Lqa.lra | left; reflexivity |].
  destruct (binary64_nonneg (nearest q / c) R0) as [-> | ->];
    [left; reflexivity |].
  right. eexists. split; [reflexivity | exact Hr].
Qed.

Lemma capped_quotient_bounds (q t c lo : Q) :
  (0 < c)%Q -> (0 <= t)%Q -> (t <= q)%Q ->
  (lo <= 1)%Q -> (lo <= nearest (nearest t / c))%Q ->
  le (Fin lo) (min (Fin 1) (div_pos (Fin q) c)) /\
  le (min (Fin 1) (div_pos (Fin q) c)) (Fin 1).
Proof.
  intros Hc Ht Hq Hlo Hn.
  destruct (div_pos_cases q t c Hc Ht Hq) as [-> | [r [-> Hr]]].
  - cbn. split; Lqa.lra.
  - unfold min, ltb.
    destruct (Qle_bool 1 r) eqn:E; cbn [negb le]; [split; Lqa.lra |].
    assert (H : ~ (1 <= r)%Q) by (intro H; apply Qle_bool_iff in H; congruence).
    apply Qnot_le_lt in H. split; Lqa.lra.
Qed.

(** X12.  The confidence [decide_mode] reports is never NaN and never
    above 1.  For ultrasonic it is at least 1/2 (an SNR of 20 dB or more
    over 40); for audible it is at least the double nearest to 1/3, which
    is 0.3333333333333333 and lies just below 1/3 (an SNR of 10 dB or more
    over 30, the quotient being rounded to a double); for file mode it is
    exactly 1, whatever the inputs (infinities and NaN included). *)
Theorem decide_mode_confidence (snr_db per : pyfloat) :
  let d := decide_mode snr_db per in
  match d_mode d with
  | ultrasonic => le (Fin (1 # 2)) (confidence d) /\ le (confidence d) (Fin 1)
  | audible =>
      le (Fin (nearest (1 # 3))) (confidence d) /\ le (confidence d) (Fin 1)
  | file => confidence d = Fin 1
  end.
Proof.
  cbv zeta. unfold decide_mode.
  destruct (geb snr_db ULTRASONIC_SNR_THRESHOLD && leb per ULTRASONIC_PER_THRESHOLD)
    eqn:E1.
  - cbn [d_mode confidence]. apply andb_true_iff in E1. destruct E1 as [E1 _].
    destruct snr_db as [| | q |]; try discriminate E1.
    + unfold geb, leb, ULTRASONIC_SNR_THRESHOLD in E1. apply Qle_bool_iff in E1.
      apply (capped_quotient_bounds q 20 40 (1 # 2)); try Lqa.lra.
      vm_compute. discriminate.
    + cbn. split; Lqa.lra.
  - destruct (geb snr_db AUDIBLE_SNR_THRESHOLD && leb per AUDIBLE_PER_THRESHOLD)
      eqn:E2; [| reflexivity].
    cbn [d_mode confidence]. apply andb_true_iff in E2. destruct E2 as [E2 _].
    destruct snr_db as [| | q |]; try discriminate E2.
    + unfold geb, leb, AUDIBLE_SNR_THRESHOLD in E2. apply Qle_bool_iff in E2.
      apply (capped_quotient_bounds q 10 30 (nearest (1 # 3))); try Lqa.lra;
        vm_compute; discriminate.
    + cbn. split; [vm_compute; discriminate | Lqa.lra].
Qed.

(** An SNR of exactly 10 dB gives the audible mode the confidence
    0.3333333333333333, the double [6004799503160661 / 2 ^ 54], which is
    below 1/3. *)
Example confidence_below_a_third :
  confidence (decide_mode (Fin 10) (Fin 0.20)) = Fin (6004799503160661 # 18014398509481984) /\
  (6004799503160661 # 18014398509481984 < 1 # 3)%Q.
Proof. split; vm_compute; reflexivity. Qed.

End DecideConfidence.

(** ** The two spectral computations on the same recording *)

Section Spectra.
Import Exn Np.
Local Open Scope R_scope.








(** At a sample rate of zero both probes raise ZeroDivisionError. *)
Example spectra_at_rate_zero :
  Sweep.recording_spectrum [1; 0] 17000 22000 0 = Raise ZeroDivisionError /\
  Analyze.analyze_spectrum [1; 0] 0 17000 22000 100 15000 = Raise ZeroDivisionError.
Proof. split; reflexivity. Qed.

Lemma rsum_nonneg l : Forall (fun v => 0 <= v) l -> 0 <= rsum l.
Proof.
  unfold rsum. induction 1 as [| x l Hx _ IH]; cbn [fold_right]; lra.
Qed.

Lemma mean_nonneg l : Forall (fun v => 0 <= v) l -> 0 <= mean l.
Proof.
  intro H. unfold mean. destruct l as [| x l].
  - cbn. unfold Rdiv. rewrite Rmult_0_l. lra.
  - apply Rmult_le_pos; [apply rsum_nonneg; exact H |].
    apply Rlt_le. apply Rinv_0_lt_compat. apply lt_0_INR. cbn [length]. lia.
Qed.

Lemma select_nonneg mask freqs values :
  Forall (fun v => 0 <= v) values -> Forall (fun v => 0 <= v) (select mask freqs values).
Proof.
  intro H. unfold select. revert freqs.
  induction H as [| v values Hv _ IH]; intros [| fr freqs]; cbn [combine filter map];
    try constructor.
  cbn [fst]. destruct (mask fr); cbn [map snd]; [constructor; [exact Hv |] |]; apply IH.
Qed.

Lemma masked_mean_nonneg mask freqs values d :
  0 <= d -> Forall (fun v => 0 <= v) values -> 0 <= masked_mean mask freqs values d.
Proof.
  intros Hd H. unfold masked_mean.
  pose proof (select_nonneg mask freqs values H) as Hs.
  destruct (select mask freqs values) as [| x l]; [exact Hd |].
  apply mean_nonneg. exact Hs.
Qed.

Lemma squares_nonneg n magnitudes :
  Forall (fun v => 0 <= v) (map (fun m => m / n * (m / n)) magnitudes).
Proof.
  apply Forall_forall. intros v Hv. apply in_map_iff in Hv.
  destruct Hv as [m [<- _]]. apply Rle_0_sqr.
Qed.

Lemma noise_floor_pos : 0 < 1 / 10 ^ 10.
Proof. apply Rdiv_lt_0_compat; [lra | apply pow_lt; lra]. Qed.

Lemma snr_minus_infinity sig noi :
  0 <= sig ->
  ten_log10 (sig / Rmax noi (1 / 10 ^ 10)) = minus_infinity <-> sig = 0.
Proof.
  intro Hs.
  assert (Hf : 0 < Rmax noi (1 / 10 ^ 10)).
  { eapply Rlt_le_trans; [exact noise_floor_pos | apply Rmax_r]. }
  unfold ten_log10.
  destruct (Rle_dec (sig / Rmax noi (1 / 10 ^ 10)) 0) as [Hle | Hgt].
  - split; [intros _ | reflexivity].
    destruct (Rle_lt_or_eq_dec 0 sig Hs) as [Hpos | Heq]; [| symmetry; exact Heq].
    exfalso. apply (Rlt_not_le _ _ (Rdiv_lt_0_compat _ _ Hpos Hf)). exact Hle.
  - split; [discriminate |].
    intro Hz. exfalso. apply Hgt. rewrite Hz. unfold Rdiv. rewrite Rmult_0_l. lra.
Qed.

(** X14.  The band powers [analyze_spectrum] computes are never negative,
    and its SNR is minus infinity exactly when the signal power is zero:
    the noise power is floored at 1e-10 before the division, the signal
    power is not. *)
Theorem analyzer_snr_of_silent_band (samples : list R) (sample_rate : Z)
    (band_start band_end noise_band_start noise_band_end : Q) (a : band_powers) :
  Analyze.analyze_spectrum samples sample_rate band_start band_end
    noise_band_start noise_band_end = Ok a ->
  0 <= signal_power a /\ 0 <= noise_power a /\
  (snr_db a = minus_infinity <-> signal_power a = 0).
Proof.
  unfold Analyze.analyze_spectrum.
  destruct (abs_rfft samples) as [magnitudes | e]; [| discriminate].
  cbn [bind]. destruct (Py.float_divisor sample_rate) as [d | e]; [| discriminate].
  cbn [bind]. intro E. injection E as <-.
  split; [| split].
  - apply masked_mean_nonneg; [lra | apply squares_nonneg].
  - apply masked_mean_nonneg;
      [apply Rlt_le; exact noise_floor_pos | apply squares_nonneg].
  - apply snr_minus_infinity.
    apply masked_mean_nonneg; [lra | apply squares_nonneg].
Qed.

Lemma analyzer_snr_of_silent_band_witness :
  exists a,
    Analyze.analyze_spectrum [0; 0] 48000 17000 22000 100 15000 = Ok a /\
    0 <= signal_power a.
Proof.
  eexists. split; [reflexivity |].
  refine (proj1 (analyzer_snr_of_silent_band [0; 0] 48000 17000 22000 100 15000 _ _)).
  reflexivity.
Defined.

End Spectra.

(** ** The two WAV readers *)

Section Readers.
Import Bytes Exn WavWriter.
Local Open Scope Z_scope.

Lemma chunk_loop_data_only (S : Type) on_fmt on_data (data : bytes) (st : S) :
  Z.of_nat (length data) < 2 ^ 32 ->
  Wav.chunk_loop S on_fmt on_data
    (of_string "data" ++ to_le 4 (Z.of_nat (length data)) ++ data) st
  = Ok (on_data data st).
Proof.
  intro H.
  pose proof (chunk_step_chunk S on_fmt on_data (of_string "data") data [] st
                eq_refl H) as E.
  rewrite app_nil_r in E. rewrite chunk_loop_turn, E.
  change (eqb (of_string "data") (of_string "fmt ")) with false.
  change (eqb (of_string "data") (of_string "data")) with true. cbv iota.
  rewrite chunk_loop_turn, chunk_step_end. reflexivity.
Qed.

(** X15.  The readers do not agree on a file without format chunk: for the
    same 16-bit data the receiver's reader assumes 48000 Hz and the
    analyzer's reader 44100 Hz (mono in both). *)
Theorem readers_default_sample_rate (riff_size data : bytes) (ints : list Z) :
  length riff_size = 4%nat -> data <> [] -> Z.of_nat (length data) < 2 ^ 32 ->
  Wav.frombuffer 2 data = Ok ints ->
  Recv.read_wav (wav_without_fmt riff_size data) =
    Ok (map (fun x => (inject_Z x / 32768)%Q) ints, 48000) /\
  Analyze.read_wav (wav_without_fmt riff_size data) =
    Ok (map (fun x => (inject_Z x / 32768)%Q) ints, 44100, 1).
Proof.
  intros Hr Hd Hl Hf. unfold wav_without_fmt. split.
  - unfold Recv.read_wav.
    rewrite (read_exact (of_string "RIFF") _ 4 eq_refl).
    change (negb (eqb (of_string "RIFF") (of_string "RIFF"))) with false. cbv iota.
    rewrite (read_exact riff_size _ 4 Hr).
    rewrite (read_exact (of_string "WAVE") _ 4 eq_refl).
    rewrite chunk_loop_data_only by exact Hl.
    cbn [bind Recv.on_data Recv.ws_bits_per_sample Recv.ws_data Recv.ws_sample_rate].
    change (16 =? 16) with true. cbv iota. rewrite Hf. reflexivity.
  - unfold Analyze.read_wav.
    rewrite (read_exact (of_string "RIFF") _ 4 eq_refl).
    change (negb (eqb (of_string "RIFF") (of_string "RIFF"))) with false. cbv iota.
    rewrite (read_exact riff_size _ 4 Hr).
    rewrite (read_exact (of_string "WAVE") _ 4 eq_refl).
    change (negb (eqb (of_string "WAVE") (of_string "WAVE"))) with false. cbv iota.
    rewrite chunk_loop_data_only by exact Hl.
    cbn [bind Analyze.on_data Analyze.ws_bits_per_sample Analyze.ws_data
           Analyze.ws_sample_rate Analyze.ws_channels].
    destruct data as [| d ds]; [congruence |].
    change (16 =? 16) with true. cbv iota. rewrite Hf. reflexivity.
Qed.

Lemma readers_default_sample_rate_witness :
  Recv.read_wav (wav_without_fmt [40; 0; 0; 0] [0; 64; 0; 192]) =
    Ok ([(16384 / 32768)%Q; (-16384 / 32768)%Q], 48000) /\
  Analyze.read_wav (wav_without_fmt [40; 0; 0; 0] [0; 64; 0; 192]) =
    Ok ([(16384 / 32768)%Q; (-16384 / 32768)%Q], 44100, 1).
Proof.
  apply (readers_default_sample_rate [40; 0; 0; 0] [0; 64; 0; 192] [16384; -16384]).
  - reflexivity.
  - discriminate.
  - cbn. lia.
  - reflexivity.
Defined.

Lemma nth_first_column channels rows samples k :
  (k < rows)%nat ->
  nth k (Analyze.first_column channels rows samples) 0%Q
  = nth (k * channels) samples 0%Q.
Proof.
  revert samples k. induction rows as [| r IH]; intros samples k Hk; [lia |].
  cbn [Analyze.first_column]. destruct k as [| k].
  - cbn [nth Nat.mul]. destruct samples; reflexivity.
  - cbn [nth]. rewrite IH by lia. rewrite nth_skipn. reflexivity.
Qed.

Lemma length_first_column channels rows samples :
  length (Analyze.first_column channels rows samples) = rows.
Proof.
  revert samples. induction rows as [| r IH]; intro samples; [reflexivity |].
  cbn [Analyze.first_column length]. rewrite IH. reflexivity.
Qed.

(** X16.  Of an interleaved multi-channel buffer the analyzer keeps the
    first channel: sample [k] of the result is sample [k * channels] of the
    buffer, one per frame; a buffer that is not a whole number of frames is
    refused. *)
Theorem first_channel_samples (channels : Z) (samples : list Q) :
  1 < channels ->
  match Analyze.first_channel channels samples with
  | Ok col =>
      Z.of_nat (length samples) = Z.of_nat (length col) * channels /\
      forall k, (k < length col)%nat ->
                nth k col 0%Q = nth (k * Z.to_nat channels) samples 0%Q
  | Raise e =>
      Z.of_nat (length samples) mod channels <> 0 /\ e = ValueError cannot_reshape
  end.
Proof.
  intro Hc. unfold Analyze.first_channel.
  destruct (Z.eqb_spec (Z.of_nat (length samples) mod channels) 0) as [Hm | Hm].
  - rewrite length_first_column. split.
    + rewrite Z2Nat.id by (apply Z.div_pos; lia).
      pose proof (Z.div_mod (Z.of_nat (length samples)) channels ltac:(lia)). lia.
    + intros k Hk. apply nth_first_column. exact Hk.
  - split; [exact Hm | reflexivity].
Qed.

Lemma first_channel_samples_witness :
  Analyze.first_channel 2 [1; 2; 3; 4; 5; 6]%Q = Ok [1; 3; 5]%Q /\
  match Analyze.first_channel 2 [1; 2; 3; 4; 5; 6]%Q with
  | Ok col => Z.of_nat 6 = Z.of_nat (length col) * 2
  | Raise _ => False
  end.
Proof.
  split; [reflexivity |].
  pose proof (first_channel_samples 2 [1; 2; 3; 4; 5; 6]%Q ltac:(lia)) as H.
  destruct (Analyze.first_channel 2 [1; 2; 3; 4; 5; 6]%Q) as [col | e].
  - exact (proj1 H).
  - destruct H as [H _]. apply H. reflexivity.
Defined.

Lemma analyze_read_wav_nonempty_witness :
  [(16384 / 32768)%Q; (-16384 / 32768)%Q] <> [].
Proof.
  apply (analyze_read_wav_nonempty (wav_without_fmt [40; 0; 0; 0] [0; 64; 0; 192])
           _ 44100 1).
  vm_compute. reflexivity.
Defined.

End Readers.

Section AutoProbeFacts.
Import Py Decide SweepRun AutoProbe.
Local Open Scope string_scope.

Lemma decide_mode_all_lost snr_db : d_mode (decide_mode snr_db (Fin 1)) = file.
Proof.
  unfold decide_mode.
  change (leb (Fin 1) ULTRASONIC_PER_THRESHOLD) with false.
  change (leb (Fin 1) AUDIBLE_PER_THRESHOLD) with false.
  rewrite !andb_false_r. reflexivity.
Qed.

Lemma audio_mode_guard snr_db per :
  d_mode (decide_mode snr_db per) <> file -> audible_ok snr_db per.
Proof.
  intro H.
  destruct (decide_mode_cases snr_db per) as [[Hu _] | [[_ [Ha _]] | [_ [_ E]]]].
  - apply ultrasonic_ok_audible_ok. exact Hu.
  - exact Ha.
  - rewrite E in H. exfalso. apply H. reflexivity.
Qed.

(** X18.  [auto_probe] decides for an audio mode only on full evidence: the
    device check listed default devices without error, the sweep, the
    calibration transmission and the calibration reception all reported
    success, and the SNR of the sweep (0 when absent) and the PER of the
    reception (1 when absent) pass the audible thresholds.  It then ran
    four steps and removed the calibration file.  In every other case (no
    devices, failed sweep, failed transmission, failed reception) the
    decision is file mode. *)
Theorem auto_probe_audio_mode (run_probe : string -> list string -> probe_result)
    (cal_wav : string) (sample_rate : Z) :
  d_mode (a_decision (auto_probe run_probe cal_wav sample_rate)) <> file ->
  exists input_rate output_rate device_count,
    p_devices (run_probe "sweep.py" ["--check-only"])
    = Some (default_devices input_rate output_rate device_count) /\
    p_success (run_probe "sweep.py" (sweep_args sample_rate)) = Some true /\
    p_success (run_probe "send.py" (send_args cal_wav sample_rate)) = Some true /\
    p_success (run_probe "recv.py" (recv_args cal_wav)) = Some true /\
    let snr_db := get (p_snr_db (run_probe "sweep.py" (sweep_args sample_rate))) (Fin 0) in
    let per := get (p_per (run_probe "recv.py" (recv_args cal_wav))) (Fin 1) in
    audible_ok snr_db per /\
    auto_probe run_probe cal_wav sample_rate =
      {| a_success := true; a_error := None;
         a_snr_db := Some snr_db; a_per := Some per;
         a_steps :=
           [(device_check, run_probe "sweep.py" ["--check-only"]);
            (sweep, run_probe "sweep.py" (sweep_args sample_rate));
            (send_calibration, run_probe "send.py" (send_args cal_wav sample_rate));
            (recv_calibration, run_probe "recv.py" (recv_args cal_wav))];
         a_decision := decide_mode snr_db per; a_unlinked := true |}.
Proof.
  unfold auto_probe.
  destruct (p_devices (run_probe "sweep.py" ["--check-only"]))
    as [[msg | i o c] |] eqn:Ed;
    try (cbn [a_decision]; intro H; exfalso; apply H; reflexivity).
  destruct (p_success (run_probe "sweep.py" (sweep_args sample_rate)))
    as [[|] |] eqn:Es; cbn [truthy get negb];
    try (cbn [a_decision]; intro H; exfalso; apply H; reflexivity).
  destruct (p_success (run_probe "send.py" (send_args cal_wav sample_rate)))
    as [[|] |] eqn:Et; cbn [truthy get negb];
    try (cbn [a_decision]; intro H; exfalso; apply H; apply decide_mode_all_lost).
  destruct (p_success (run_probe "recv.py" (recv_args cal_wav)))
    as [[|] |] eqn:Er; cbn [truthy get negb];
    try (cbn [a_decision]; intro H; exfalso; apply H; apply decide_mode_all_lost).
  cbn [a_decision app]. intro H.
  exists i, o, c. do 4 (split; [reflexivity |]). cbv zeta.
  split; [apply audio_mode_guard; exact H | reflexivity].
Qed.

Lemma auto_probe_audio_mode_witness :
  d_mode (a_decision (auto_probe healthy_probes "/tmp/tpc_calibration.wav" 48000))
  = ultrasonic /\
  a_unlinked (auto_probe healthy_probes "/tmp/tpc_calibration.wav" 48000) = true.
Proof.
  assert (H : d_mode (a_decision
                        (auto_probe healthy_probes "/tmp/tpc_calibration.wav" 48000))
              <> file) by (vm_compute; discriminate).
  destruct (auto_probe_audio_mode healthy_probes "/tmp/tpc_calibration.wav" 48000 H)
    as [i [o [c [_ [_ [_ [_ [_ E]]]]]]]].
  rewrite E. split; vm_compute; reflexivity.
Defined.

End AutoProbeFacts.

Section SweepFacts.
Import Exn SweepRun.
Local Open Scope R_scope.






(** The number of samples is the truncation of the rounded product: at
    44100 Hz, 2.3 seconds give 101429 samples, one less than the exact
    product 101430; a negative sample rate and a sample rate that no float
    holds raise. *)
Example sample_count_examples :
  sample_count 44100 2.3 = Ok 101429%Z /\
  Py.int_of (44100 * 2.3)%Q = 101430%Z /\
  sample_count 48000 2 = Ok 96000%Z /\
  generate_sweep 17000 22000 2 (-48000)
  = Uncaught (Number_of_samples_must_be_non_negative (-96000)) /\
  generate_sweep 17000 22000 2 (2 ^ 1024) = Uncaught (raised OverflowError) /\
  generate_sweep 17000 22000 0 48000 = Uncaught float_division_by_zero.
Proof. repeat split; vm_compute; reflexivity. Qed.


End SweepFacts.

(** ** recv.py: what the Goertzel recurrence computes *)

Section GoertzelSums.
Import Exn Recv.
Local Open Scope R_scope.

Lemma goertzel_state_fold coeff samples :
  goertzel_state coeff samples = fold_left (goertzel_step coeff) samples (0, 0).
Proof. reflexivity. Qed.

Lemma tracks_step w k s u v x :
  tracks w k s u v ->
  tracks w (S k) (goertzel_step (2 * cos w) s x)
         (u + x * cos (w * INR k)) (v + x * sin (w * INR k)).
Proof.
  destruct s as [s1 s2]. unfold tracks, goertzel_step. cbn [fst snd].
  intros [H1 H2].
  replace (w * (INR (S k) - 1)) with (w * (INR k - 1) + w)
    by (rewrite S_INR; ring).
  replace (w * INR k) with (w * (INR k - 1) + w) by ring.
  generalize dependent (w * (INR k - 1)). intros a H1 H2.
  rewrite cos_plus, sin_plus.
  pose proof (sin2_cos2 w) as Hw. unfold Rsqr in Hw.
  pose proof (sin2_cos2 a) as Ha. unfold Rsqr in Ha.
  generalize dependent (cos a). intros ca.
  generalize dependent (sin a). intros sa.
  generalize dependent (cos w). intros cw.
  generalize dependent (sin w). intros sw.
  intros Hw H1 H2 Ha.
  assert (E1 : s1 = cw * s2 + ca * u + sa * v) by lra.
  split.
  - apply Rminus_diag_uniq.
    replace (x + 2 * cw * s1 - s2 - cw * s1
             - ((ca * cw - sa * sw) * (u + x * (ca * cw - sa * sw))
                + (sa * cw + ca * sw) * (v + x * (sa * cw + ca * sw))))
      with (x * (1 - (sa * sa + ca * ca) * (sw * sw + cw * cw))
            + (sw * sw + cw * cw - 1) * s2
            + sw * (sa * u - ca * v - sw * s2))
      by (rewrite E1; ring).
    rewrite Ha, Hw, <- H2. ring.
  - apply Rminus_diag_uniq.
    replace (sw * s1
             - ((sa * cw + ca * sw) * (u + x * (ca * cw - sa * sw))
                - (ca * cw - sa * sw) * (v + x * (sa * cw + ca * sw))))
      with (cw * (sw * s2 - (sa * u - ca * v)))
      by (rewrite E1; ring).
    rewrite H2. ring.
Qed.

Lemma tracks_fold w samples k s u v :
  tracks w k s u v ->
  tracks w (k + length samples) (fold_left (goertzel_step (2 * cos w)) samples s)
         (u + cos_weighted w k samples) (v + sin_weighted w k samples).
Proof.
  revert k s u v. induction samples as [| x rest IH]; intros k s u v H.
  - cbn [fold_left cos_weighted sin_weighted length].
    rewrite Nat.add_0_r, !Rplus_0_r. exact H.
  - cbn [fold_left cos_weighted sin_weighted length].
    replace (k + S (length rest))%nat with (S k + length rest)%nat by lia.
    rewrite <- !Rplus_assoc. apply IH. apply tracks_step. exact H.
Qed.

Lemma tracks_power w k s u v :
  tracks w k s u v ->
  fst s * fst s + snd s * snd s - 2 * cos w * fst s * snd s = u * u + v * v.
Proof.
  destruct s as [s1 s2]. unfold tracks. cbn [fst snd]. intros [H1 H2].
  pose proof (sin2_cos2 w) as Hw. unfold Rsqr in Hw.
  pose proof (sin2_cos2 (w * (INR k - 1))) as Ha. unfold Rsqr in Ha.
  generalize dependent (cos (w * (INR k - 1))). intros ca.
  generalize dependent (sin (w * (INR k - 1))). intros sa.
  generalize dependent (cos w). intros cw.
  generalize dependent (sin w). intros sw.
  intros Hw H1 H2 Ha.
  replace (s1 * s1 + s2 * s2 - 2 * cw * s1 * s2)
    with ((s1 - cw * s2) * (s1 - cw * s2) + (sw * s2) * (sw * s2)
          + (1 - (sw * sw + cw * cw)) * (s2 * s2)) by ring.
  rewrite H1, H2, Hw.
  replace (u * u + v * v) with ((sa * sa + ca * ca) * (u * u + v * v))
    by (rewrite Ha; ring).
  ring.
Qed.

(** The power the recurrence ends with is the squared modulus of
    [sum x_j exp (- i w j)]. *)
Lemma goertzel_state_power w samples :
  let (s1, s2) := goertzel_state (2 * cos w) samples in
  s1 * s1 + s2 * s2 - 2 * cos w * s1 * s2
  = cos_weighted w 0 samples * cos_weighted w 0 samples
    + sin_weighted w 0 samples * sin_weighted w 0 samples.
Proof.
  assert (H0 : tracks w 0 (0, 0) 0 0).
  { unfold tracks. cbn [fst snd]. split; ring. }
  pose proof (tracks_fold w samples 0 (0, 0) 0 0 H0) as H.
  apply tracks_power in H. rewrite !Rplus_0_l in H.
  rewrite goertzel_state_fold.
  destruct (fold_left (goertzel_step (2 * cos w)) samples (0, 0)) as [s1 s2].
  exact H.
Qed.

End GoertzelSums.

(** ** Sums of a sampled tone *)

Section ToneSums.
Local Open Scope R_scope.

Lemma sin_sum_closed phase alpha n :
  2 * sin (alpha / 2) * sin_sum phase alpha n
  = cos (phase - alpha / 2) - cos (phase + alpha * INR n - alpha / 2).
Proof.
  revert phase. induction n as [| n IH]; intro phase.
  - cbn [sin_sum INR]. replace (phase + alpha * 0 - alpha / 2) with (phase - alpha / 2)
      by ring. ring.
  - cbn [sin_sum]. rewrite Rmult_plus_distr_l, IH, S_INR.
    replace (phase + alpha - alpha / 2) with (phase + alpha / 2) by lra.
    replace (phase + alpha + alpha * INR n - alpha / 2)
      with (phase + alpha * (INR n + 1) - alpha / 2) by ring.
    rewrite (cos_minus phase (alpha / 2)), (cos_plus phase (alpha / 2)). ring.
Qed.

Lemma cos_sum_closed phase alpha n :
  2 * sin (alpha / 2) * cos_sum phase alpha n
  = sin (phase + alpha * INR n - alpha / 2) - sin (phase - alpha / 2).
Proof.
  revert phase. induction n as [| n IH]; intro phase.
  - cbn [cos_sum INR]. replace (phase + alpha * 0 - alpha / 2) with (phase - alpha / 2)
      by ring. ring.
  - cbn [cos_sum]. rewrite Rmult_plus_distr_l, IH, S_INR.
    replace (phase + alpha - alpha / 2) with (phase + alpha / 2) by lra.
    replace (phase + alpha + alpha * INR n - alpha / 2)
      with (phase + alpha * (INR n + 1) - alpha / 2) by ring.
    rewrite (sin_minus phase (alpha / 2)), (sin_plus phase (alpha / 2)). ring.
Qed.

Lemma sin_sum_zero phase n : sin_sum phase 0 n = INR n * sin phase.
Proof.
  induction n as [| n IH].
  - cbn. ring.
  - cbn [sin_sum]. rewrite Rplus_0_r, IH, S_INR. ring.
Qed.

Lemma cos_sum_zero phase n : cos_sum phase 0 n = INR n * cos phase.
Proof.
  induction n as [| n IH].
  - cbn. ring.
  - cbn [cos_sum]. rewrite Rplus_0_r, IH, S_INR. ring.
Qed.

(** Away from the multiples of [2 PI] the sums stay bounded, whatever the
    number of terms. *)
Lemma sin_sum_bound phase alpha n d :
  0 < d -> d <= Rabs (sin (alpha / 2)) -> Rabs (sin_sum phase alpha n) <= / d.
Proof.
  intros Hd Hs.
  pose proof (sin_sum_closed phase alpha n) as E.
  pose proof (COS_bound (phase - alpha / 2)) as [A1 A2].
  pose proof (COS_bound (phase + alpha * INR n - alpha / 2)) as [B1 B2].
  assert (H2 : Rabs (2 * sin (alpha / 2) * sin_sum phase alpha n) <= 2).
  { rewrite E. apply Rabs_le. lra. }
  rewrite !Rabs_mult, (Rabs_pos_eq 2) in H2 by lra.
  assert (Hx : 0 <= Rabs (sin_sum phase alpha n)) by apply Rabs_pos.
  apply Rmult_le_reg_l with d; [exact Hd |].
  rewrite Rinv_r by lra.
  apply Rle_trans with (Rabs (sin (alpha / 2)) * Rabs (sin_sum phase alpha n));
    [apply Rmult_le_compat_r; assumption | lra].
Qed.

Lemma cos_sum_bound phase alpha n d :
  0 < d -> d <= Rabs (sin (alpha / 2)) -> Rabs (cos_sum phase alpha n) <= / d.
Proof.
  intros Hd Hs.
  pose proof (cos_sum_closed phase alpha n) as E.
  pose proof (SIN_bound (phase - alpha / 2)) as [A1 A2].
  pose proof (SIN_bound (phase + alpha * INR n - alpha / 2)) as [B1 B2].
  assert (H2 : Rabs (2 * sin (alpha / 2) * cos_sum phase alpha n) <= 2).
  { rewrite E. apply Rabs_le. lra. }
  rewrite !Rabs_mult, (Rabs_pos_eq 2) in H2 by lra.
  assert (Hx : 0 <= Rabs (cos_sum phase alpha n)) by apply Rabs_pos.
  apply Rmult_le_reg_l with d; [exact Hd |].
  rewrite Rinv_r by lra.
  apply Rle_trans with (Rabs (sin (alpha / 2)) * Rabs (cos_sum phase alpha n));
    [apply Rmult_le_compat_r; assumption | lra].
Qed.

(** The squared modulus of [sum exp (i (phase + j alpha))]. *)
Lemma tone_sum_norm phase alpha n :
  (2 * sin (alpha / 2)) * (2 * sin (alpha / 2))
  * (sin_sum phase alpha n * sin_sum phase alpha n
     + cos_sum phase alpha n * cos_sum phase alpha n)
  = 2 - 2 * cos (alpha * INR n).
Proof.
  replace ((2 * sin (alpha / 2)) * (2 * sin (alpha / 2))
           * (sin_sum phase alpha n * sin_sum phase alpha n
              + cos_sum phase alpha n * cos_sum phase alpha n))
    with ((2 * sin (alpha / 2) * sin_sum phase alpha n)
          * (2 * sin (alpha / 2) * sin_sum phase alpha n)
          + (2 * sin (alpha / 2) * cos_sum phase alpha n)
            * (2 * sin (alpha / 2) * cos_sum phase alpha n)) by ring.
  rewrite sin_sum_closed, cos_sum_closed.
  assert (Ec : cos (alpha * INR n)
               = cos (phase + alpha * INR n - alpha / 2) * cos (phase - alpha / 2)
                 + sin (phase + alpha * INR n - alpha / 2) * sin (phase - alpha / 2)).
  { rewrite <- cos_minus. f_equal. ring. }
  rewrite Ec.
  pose proof (sin2_cos2 (phase - alpha / 2)) as Ha. unfold Rsqr in Ha.
  pose proof (sin2_cos2 (phase + alpha * INR n - alpha / 2)) as Hb. unfold Rsqr in Hb.
  clear Ec.
  generalize dependent (cos (phase - alpha / 2)). intros ca.
  generalize dependent (sin (phase - alpha / 2)). intros sa.
  generalize dependent (cos (phase + alpha * INR n - alpha / 2)). intros cb.
  generalize dependent (sin (phase + alpha * INR n - alpha / 2)). intros sb.
  intros Hb Ha.
  transitivity ((sa * sa + ca * ca) + (sb * sb + cb * cb) - 2 * (cb * ca + sb * sa));
    [ring | rewrite Ha, Hb; ring].
Qed.

End ToneSums.

(** ** A modulated bit in front of the two detectors *)

Section ToneWindows.
Import Exn Send Recv.
Local Open Scope R_scope.

Lemma cos_weighted_tone w n inc phase k :
  cos_weighted w k (fst (emit_samples n inc phase))
  = amplitude / 2 * (sin_sum (phase + w * INR k) (inc + w) n
                     + sin_sum (phase - w * INR k) (inc - w) n).
Proof.
  revert phase k. induction n as [| n IH]; intros phase k.
  - cbn [emit_samples fst cos_weighted sin_sum]. ring.
  - cbn [emit_samples]. specialize (IH (phase + inc) (S k)).
    destruct (emit_samples n inc (phase + inc)) as [rest p]. cbn [fst] in *.
    cbn [cos_weighted sin_sum]. rewrite IH, S_INR.
    replace (phase + inc + w * (INR k + 1)) with (phase + w * INR k + (inc + w)) by ring.
    replace (phase + inc - w * (INR k + 1)) with (phase - w * INR k + (inc - w)) by ring.
    rewrite (sin_plus phase (w * INR k)), (sin_minus phase (w * INR k)).
    unfold Rdiv. ring_simplify. field.
Qed.

Lemma sin_weighted_tone w n inc phase k :
  sin_weighted w k (fst (emit_samples n inc phase))
  = amplitude / 2 * (cos_sum (phase - w * INR k) (inc - w) n
                     - cos_sum (phase + w * INR k) (inc + w) n).
Proof.
  revert phase k. induction n as [| n IH]; intros phase k.
  - cbn [emit_samples fst sin_weighted cos_sum]. ring.
  - cbn [emit_samples]. specialize (IH (phase + inc) (S k)).
    destruct (emit_samples n inc (phase + inc)) as [rest p]. cbn [fst] in *.
    cbn [sin_weighted cos_sum]. rewrite IH, S_INR.
    replace (phase + inc + w * (INR k + 1)) with (phase + w * INR k + (inc + w)) by ring.
    replace (phase + inc - w * (INR k + 1)) with (phase - w * INR k + (inc - w)) by ring.
    rewrite (cos_plus phase (w * INR k)), (cos_minus phase (w * INR k)).
    unfold Rdiv. ring_simplify. field.
Qed.

End ToneWindows.

Section SineFacts.
Local Open Scope R_scope.

Lemma mid_sine x : PI / 6 <= x <= 5 * (PI / 6) -> 1 / 2 <= sin x.
Proof.
  intros [H1 H2]. pose proof PI_RGT_0 as Hp. rewrite <- sin_PI6.
  destruct (Rle_dec x (PI / 2)) as [Hx | Hx].
  - apply sin_incr_1; lra.
  - rewrite <- (sin_PI_x x). apply sin_incr_1; lra.
Qed.

Lemma multiple_sine n x : Rabs (sin (INR n * x)) <= INR n * Rabs (sin x).
Proof.
  induction n as [| n IH].
  - cbn [INR]. rewrite Rmult_0_l, sin_0, Rabs_R0. lra.
  - rewrite S_INR.
    replace ((INR n + 1) * x) with (INR n * x + x) by ring.
    rewrite sin_plus.
    eapply Rle_trans; [apply Rabs_triang |].
    rewrite !Rabs_mult.
    pose proof (COS_bound x) as [A1 A2].
    pose proof (COS_bound (INR n * x)) as [B1 B2].
    assert (C1 : Rabs (cos x) <= 1) by (apply Rabs_le; lra).
    assert (C2 : Rabs (cos (INR n * x)) <= 1) by (apply Rabs_le; lra).
    pose proof (Rabs_pos (sin (INR n * x))) as P1.
    pose proof (Rabs_pos (sin x)) as P2.
    pose proof (Rabs_pos (cos x)) as P3.
    pose proof (Rabs_pos (cos (INR n * x))) as P4.
    nra.
Qed.

(** An eighth of an angle between 30 and 150 degrees. *)
Lemma eighth_sine x :
  PI / 6 <= 8 * x <= 5 * (PI / 6) -> 1 / 16 <= Rabs (sin x).
Proof.
  intro H. pose proof (mid_sine (8 * x) H) as Hm.
  pose proof (multiple_sine 8 x) as Hn.
  replace (INR 8) with 8 in Hn by (simpl; ring).
  pose proof (Rle_abs (sin (8 * x))) as Ha. lra.
Qed.

Lemma mid_sine_abs x : PI / 6 <= x <= 5 * (PI / 6) -> 1 / 2 <= Rabs (sin x).
Proof.
  intro H. pose proof (mid_sine x H) as Hm.
  pose proof (Rle_abs (sin x)) as Ha. lra.
Qed.

Lemma tiny_sine x : 0 < x <= PI / 2 -> 0 < sin x <= x.
Proof.
  intros [H1 H2]. pose proof PI_RGT_0 as Hp. split.
  - apply sin_gt_0; lra.
  - apply Rlt_le. apply sin_lt_x. exact H1.
Qed.

Lemma abs_le_inv x e : Rabs x <= e -> - e <= x <= e.
Proof.
  intro H. pose proof (Rle_abs x) as H1. pose proof (Rle_abs (- x)) as H2.
  rewrite Rabs_Ropp in H2. lra.
Qed.

(** Two sums of which one is large and one is small, and two that are both
    small. *)
Lemma power_lower a b u v m e :
  m <= a * a + b * b -> Rabs u <= e -> Rabs v <= e ->
  m / 2 - 2 * (e * e) <= (u + a) * (u + a) + (b - v) * (b - v).
Proof.
  intros Hm Hu Hv.
  apply abs_le_inv in Hu, Hv.
  assert (Hu2 : u * u <= e * e) by nra.
  assert (Hv2 : v * v <= e * e) by nra.
  pose proof (Rle_0_sqr (a + 2 * u)) as S1. unfold Rsqr in S1.
  pose proof (Rle_0_sqr (b - 2 * v)) as S2. unfold Rsqr in S2.
  lra.
Qed.

Lemma power_upper a b u v d e :
  Rabs a <= d -> Rabs b <= d -> Rabs u <= e -> Rabs v <= e ->
  (u + a) * (u + a) + (b - v) * (b - v) <= 2 * ((d + e) * (d + e)).
Proof.
  intros Ha Hb Hu Hv.
  apply abs_le_inv in Ha, Hb, Hu, Hv.
  assert (H1 : (u + a) * (u + a) <= (d + e) * (d + e)) by nra.
  assert (H2 : (b - v) * (b - v) <= (d + e) * (d + e)) by nra.
  lra.
Qed.

End SineFacts.

(** ** The detectors at the default parameters: 18 and 20 kHz, 48000
    samples per second, 150 baud *)

Section Detection.
Import Exn Send Recv.
Local Open Scope R_scope.

Lemma goertzel_value samples target_freq (sample_rate : Z) (k : Z) :
  samples <> [] ->
  goertzel_bin (Z.of_nat (length samples)) target_freq sample_rate = Ok k ->
  let n := Z.of_nat (length samples) in
  let w := 2 * PI * IZR k / IZR n in
  goertzel samples target_freq sample_rate =
    Ok ((cos_weighted w 0 samples * cos_weighted w 0 samples
         + sin_weighted w 0 samples * sin_weighted w 0 samples)
        / (IZR n * IZR n)).
Proof.
  intros H Hk. cbv zeta. unfold goertzel. cbv zeta. rewrite Hk. cbn [bind].
  destruct (Z.eqb_spec (Z.of_nat (length samples)) 0) as [E0 | _].
  { destruct samples; [congruence | discriminate E0]. }
  cbn [bind].
  match goal with |- context [goertzel_state (2 * cos ?w) samples] =>
    pose proof (goertzel_state_power w samples) as E;
    destruct (goertzel_state (2 * cos w) samples) as [s1 s2]
  end.
  rewrite <- E. reflexivity.
Qed.

Lemma tone_power_form w n inc phase :
  let chunk := fst (emit_samples n inc phase) in
  cos_weighted w 0 chunk * cos_weighted w 0 chunk
  + sin_weighted w 0 chunk * sin_weighted w 0 chunk
  = amplitude / 2 * (amplitude / 2)
    * ((sin_sum phase (inc + w) n + sin_sum phase (inc - w) n)
       * (sin_sum phase (inc + w) n + sin_sum phase (inc - w) n)
       + (cos_sum phase (inc - w) n - cos_sum phase (inc + w) n)
         * (cos_sum phase (inc - w) n - cos_sum phase (inc + w) n)).
Proof.
  cbv zeta. rewrite cos_weighted_tone, sin_weighted_tone. cbn [INR].
  rewrite Rmult_0_r, Rplus_0_r, Rminus_0_r. ring.
Qed.

(** A tone away from the detector: both half-angles keep their sines off
    zero. *)
Lemma tone_leak w n inc phase d e :
  0 < d -> 0 < e ->
  d <= Rabs (sin ((inc - w) / 2)) -> e <= Rabs (sin ((inc + w) / 2)) ->
  (sin_sum phase (inc + w) n + sin_sum phase (inc - w) n)
  * (sin_sum phase (inc + w) n + sin_sum phase (inc - w) n)
  + (cos_sum phase (inc - w) n - cos_sum phase (inc + w) n)
    * (cos_sum phase (inc - w) n - cos_sum phase (inc + w) n)
  <= 2 * ((/ d + / e) * (/ d + / e)).
Proof.
  intros Hd He H1 H2. apply power_upper.
  - apply sin_sum_bound; assumption.
  - apply cos_sum_bound; assumption.
  - apply sin_sum_bound; assumption.
  - apply cos_sum_bound; assumption.
Qed.

(** A tone at or near the detector. *)
Lemma tone_match w n inc phase m e :
  0 < e -> e <= Rabs (sin ((inc + w) / 2)) ->
  m <= sin_sum phase (inc - w) n * sin_sum phase (inc - w) n
       + cos_sum phase (inc - w) n * cos_sum phase (inc - w) n ->
  m / 2 - 2 * (/ e * / e)
  <= (sin_sum phase (inc + w) n + sin_sum phase (inc - w) n)
     * (sin_sum phase (inc + w) n + sin_sum phase (inc - w) n)
     + (cos_sum phase (inc - w) n - cos_sum phase (inc + w) n)
       * (cos_sum phase (inc - w) n - cos_sum phase (inc + w) n).
Proof.
  intros He H2 Hm. apply power_lower.
  - exact Hm.
  - apply sin_sum_bound; assumption.
  - apply cos_sum_bound; assumption.
Qed.

Lemma zero_tone_at_zero_detector phase :
  51192 <= (sin_sum phase (theta0 + omega0) 320 + sin_sum phase (theta0 - omega0) 320)
           * (sin_sum phase (theta0 + omega0) 320 + sin_sum phase (theta0 - omega0) 320)
           + (cos_sum phase (theta0 - omega0) 320 - cos_sum phase (theta0 + omega0) 320)
             * (cos_sum phase (theta0 - omega0) 320 - cos_sum phase (theta0 + omega0) 320).
Proof.
  pose proof PI_RGT_0 as Hp.
  replace 51192 with (102400 / 2 - 2 * (/ (1 / 2) * / (1 / 2))) by field.
  apply tone_match.
  - lra.
  - apply mid_sine_abs. unfold theta0, omega0. lra.
  - replace (theta0 - omega0) with 0 by (unfold theta0, omega0; ring).
    rewrite sin_sum_zero, cos_sum_zero.
    replace (INR 320) with 320 by (rewrite INR_IZR_INZ; reflexivity).
    pose proof (sin2_cos2 phase) as E. unfold Rsqr in E.
    replace (320 * sin phase * (320 * sin phase) + 320 * cos phase * (320 * cos phase))
      with (102400 * (sin phase * sin phase + cos phase * cos phase)) by ring.
    rewrite E. lra.
Qed.

Lemma zero_tone_at_one_detector phase :
  (sin_sum phase (theta0 + omega1) 320 + sin_sum phase (theta0 - omega1) 320)
  * (sin_sum phase (theta0 + omega1) 320 + sin_sum phase (theta0 - omega1) 320)
  + (cos_sum phase (theta0 - omega1) 320 - cos_sum phase (theta0 + omega1) 320)
    * (cos_sum phase (theta0 - omega1) 320 - cos_sum phase (theta0 + omega1) 320)
  <= 648.
Proof.
  pose proof PI_RGT_0 as Hp.
  replace 648 with (2 * ((/ (1 / 16) + / (1 / 2)) * (/ (1 / 16) + / (1 / 2)))) by field.
  apply tone_leak; try lra.
  - replace ((theta0 - omega1) / 2) with (- (13 * (PI / 320)))
      by (unfold theta0, omega1; lra).
    rewrite sin_neg, Rabs_Ropp. apply eighth_sine. lra.
  - apply mid_sine_abs. unfold theta0, omega1. lra.
Qed.

Lemma one_tone_at_zero_detector phase :
  (sin_sum phase (theta1 + omega0) 320 + sin_sum phase (theta1 - omega0) 320)
  * (sin_sum phase (theta1 + omega0) 320 + sin_sum phase (theta1 - omega0) 320)
  + (cos_sum phase (theta1 - omega0) 320 - cos_sum phase (theta1 + omega0) 320)
    * (cos_sum phase (theta1 - omega0) 320 - cos_sum phase (theta1 + omega0) 320)
  <= 648.
Proof.
  pose proof PI_RGT_0 as Hp.
  replace 648 with (2 * ((/ (1 / 16) + / (1 / 2)) * (/ (1 / 16) + / (1 / 2)))) by field.
  apply tone_leak; try lra.
  - apply eighth_sine. unfold theta1, omega0. lra.
  - apply mid_sine_abs. unfold theta1, omega0. lra.
Qed.

Lemma one_tone_at_one_detector phase :
  21592 <= (sin_sum phase (theta1 + omega1) 320 + sin_sum phase (theta1 - omega1) 320)
           * (sin_sum phase (theta1 + omega1) 320 + sin_sum phase (theta1 - omega1) 320)
           + (cos_sum phase (theta1 - omega1) 320 - cos_sum phase (theta1 + omega1) 320)
             * (cos_sum phase (theta1 - omega1) 320 - cos_sum phase (theta1 + omega1) 320).
Proof.
  pose proof PI_RGT_0 as Hp. pose proof PI_4 as Hp4.
  replace 21592 with (43200 / 2 - 2 * (/ (1 / 2) * / (1 / 2))) by field.
  apply tone_match.
  - lra.
  - apply mid_sine_abs. unfold theta1, omega1. lra.
  - pose proof (tone_sum_norm phase (theta1 - omega1) 320) as E.
    replace ((theta1 - omega1) / 2) with (PI / 960) in E
      by (unfold theta1, omega1; lra).
    replace ((theta1 - omega1) * INR 320) with (2 * (PI / 3)) in E
      by (rewrite INR_IZR_INZ; change (IZR (Z.of_nat 320)) with 320;
          unfold theta1, omega1; lra).
    rewrite cos_2PI3 in E.
    destruct (tiny_sine (PI / 960)) as [S1 S2]; [lra |].
    set (s := sin (PI / 960)) in *.
    set (m := sin_sum phase (theta1 - omega1) 320 * sin_sum phase (theta1 - omega1) 320
              + cos_sum phase (theta1 - omega1) 320 * cos_sum phase (theta1 - omega1) 320)
      in *.
    assert (Hm : 0 <= m) by (unfold m; nra).
    assert (Hs : s <= 1 / 240) by lra.
    assert (Hs2 : s * s <= 1 / 57600) by nra.
    assert (E' : 4 * (s * s) * m = 3) by lra.
    nra.
Qed.

Lemma phase_inc_zero : phase_inc 18000 20000 48000 0 = theta0.
Proof.
  unfold phase_inc, theta0, Q2R. cbn [Z.eqb Qnum Qden]. lra.
Qed.

Lemma phase_inc_one bit :
  bit <> 0%Z -> phase_inc 18000 20000 48000 bit = theta1.
Proof.
  intro H. unfold phase_inc, theta1, Q2R.
  destruct (Z.eqb_spec bit 0); [contradiction |]. cbn [Qnum Qden]. lra.
Qed.

Lemma goertzel_default_window inc phase (target_freq : Q) (k : Z) (w : R) :
  goertzel_bin 320 target_freq 48000 = Ok k ->
  2 * PI * IZR k / 320 = w ->
  goertzel (fst (emit_samples 320 inc phase)) target_freq 48000 =
    Ok (amplitude / 2 * (amplitude / 2)
        * ((sin_sum phase (inc + w) 320 + sin_sum phase (inc - w) 320)
           * (sin_sum phase (inc + w) 320 + sin_sum phase (inc - w) 320)
           + (cos_sum phase (inc - w) 320 - cos_sum phase (inc + w) 320)
             * (cos_sum phase (inc - w) 320 - cos_sum phase (inc + w) 320))
        / (320 * 320)).
Proof.
  intros Hk Hw.
  rewrite (goertzel_value _ _ _ k).
  - rewrite length_emit_samples. change (Z.of_nat 320) with 320%Z.
    rewrite Hw. rewrite tone_power_form. reflexivity.
  - intro E. apply (f_equal (@length R)) in E.
    rewrite length_emit_samples in E. discriminate E.
  - rewrite length_emit_samples. exact Hk.
Qed.

Lemma detector_bins :
  goertzel_bin 320 18000 48000 = Ok 120%Z /\
  goertzel_bin 320 20000 48000 = Ok 133%Z.
Proof. split; vm_compute; reflexivity. Qed.

(** The bit a window of the default modulator is read as. *)
Lemma default_window_read bit phase :
  let chunk := fst (emit_samples 320 (phase_inc 18000 20000 48000 bit) phase) in
  exists p0 p1,
    goertzel chunk 18000 48000 = Ok p0 /\
    goertzel chunk 20000 48000 = Ok p1 /\
    if (bit =? 0)%Z then p0 > p1 else p1 > p0.
Proof.
  cbv zeta. destruct detector_bins as [K0 K1].
  assert (W0 : 2 * PI * IZR 120 / 320 = omega0) by (unfold omega0; lra).
  assert (W1 : 2 * PI * IZR 133 / 320 = omega1) by (unfold omega1; lra).
  eexists. eexists.
  split; [apply (goertzel_default_window _ phase 18000 120 omega0 K0 W0) |].
  split; [apply (goertzel_default_window _ phase 20000 133 omega1 K1 W1) |].
  assert (Ha : 0 < amplitude / 2 * (amplitude / 2)) by (unfold amplitude; lra).
  destruct (Z.eqb_spec bit 0) as [-> | Hb].
  - rewrite phase_inc_zero.
    pose proof (zero_tone_at_zero_detector phase) as L.
    pose proof (zero_tone_at_one_detector phase) as U.
    apply Rmult_lt_compat_r; [lra |].
    apply Rmult_lt_compat_l; [exact Ha | lra].
  - rewrite (phase_inc_one bit Hb).
    pose proof (one_tone_at_one_detector phase) as L.
    pose proof (one_tone_at_zero_detector phase) as U.
    apply Rmult_lt_compat_r; [lra |].
    apply Rmult_lt_compat_l; [exact Ha | lra].
Qed.

End Detection.

(** ** From samples back to bits *)

Section BitSlicer.
Import Bytes Exn Send Recv.
Local Open Scope R_scope.

Lemma length_concat_chunks (pre : list (list R)) n :
  Forall (fun c => length c = n) pre -> length (concat pre) = (length pre * n)%nat.
Proof.
  induction 1 as [| c pre Hc _ IH]; [reflexivity |].
  cbn [concat length]. rewrite length_app, Hc, IH. reflexivity.
Qed.

Lemma window_concat (pre : list (list R)) chunk rest n :
  Forall (fun c => length c = n) pre -> length chunk = n ->
  window (concat pre ++ chunk ++ rest)
         (Z.of_nat (length pre) * Z.of_nat n)
         (Z.of_nat (length pre) * Z.of_nat n + Z.of_nat n) = chunk.
Proof.
  intros Hpre Hc. unfold window.
  replace (Z.to_nat (Z.of_nat (length pre) * Z.of_nat n + Z.of_nat n
                     - Z.of_nat (length pre) * Z.of_nat n)) with n by lia.
  replace (Z.to_nat (Z.of_nat (length pre) * Z.of_nat n))
    with (length (concat pre)) by (rewrite (length_concat_chunks pre n Hpre); lia).
  rewrite skipn_app, skipn_all, Nat.sub_diag. cbn [app skipn].
  rewrite <- Hc. rewrite firstn_app, firstn_all, Nat.sub_diag. cbn [firstn].
  apply app_nil_r.
Qed.

Lemma slice_bits_chunks freq0 freq1 sample_rate n chunks bits :
  Forall2 (reads_as freq0 freq1 sample_rate n) chunks bits ->
  forall pre,
    Forall (fun c => length c = n) pre ->
    slice_bits (concat pre ++ concat chunks) freq0 freq1 sample_rate (Z.of_nat n)
               (map Z.of_nat (List.seq (length pre) (length chunks)))
    = Ok bits.
Proof.
  induction 1 as [| chunk bit chunks bits [Hl [p0 [p1 [E0 [E1 Eb]]]]] _ IH];
    intros pre Hpre.
  - reflexivity.
  - cbn [length List.seq map slice_bits concat]. cbv zeta.
    rewrite (window_concat pre chunk (concat chunks) n Hpre Hl).
    rewrite E0, E1. cbn [bind].
    specialize (IH (pre ++ [chunk])).
    rewrite concat_app in IH. cbn [concat] in IH.
    rewrite app_nil_r, <- app_assoc in IH.
    rewrite length_app in IH. cbn [length] in IH.
    replace (length pre + 1)%nat with (S (length pre)) in IH by lia.
    rewrite IH.
    + cbn [bind]. rewrite Eb. reflexivity.
    + apply Forall_app. split; [exact Hpre |]. constructor; [exact Hl | constructor].
Qed.

(** The demodulator on a whole number of windows. *)
Lemma demodulate_chunks freq0 freq1 (sample_rate baud_rate : Z) n chunks bits :
  Py.int_div sample_rate baud_rate = Ok (Z.of_nat n) -> (0 < n)%nat ->
  Forall2 (reads_as freq0 freq1 sample_rate n) chunks bits ->
  demodulate_afsk (concat chunks) freq0 freq1 sample_rate baud_rate
  = Ok (uart_loop bits 0 []).
Proof.
  intros Hq Hn H. unfold demodulate_afsk. rewrite Hq. cbn [bind].
  destruct (Z.eqb_spec (Z.of_nat n) 0); [lia |]. cbn [bind].
  assert (Hc : Forall (fun c => length c = n) chunks).
  { clear - H. induction H as [| c b cs bs [Hl _] _ IH]; constructor; assumption. }
  rewrite (length_concat_chunks chunks n Hc).
  replace (Z.to_nat (Z.of_nat (length chunks * n) / Z.of_nat n)) with (length chunks).
  - pose proof (slice_bits_chunks freq0 freq1 sample_rate n chunks bits H [] (Forall_nil _))
      as E.
    cbn [concat app length] in E. rewrite E. reflexivity.
  - rewrite Nat2Z.inj_mul, Z.div_mul by lia. lia.
Qed.

(** The modulator emits one window per bit. *)
Lemma emit_bits_chunks f0 f1 sr n bits phase :
  exists chunks,
    emit_bits f0 f1 sr n bits phase = concat chunks /\
    Forall2 (fun chunk bit =>
               exists p, chunk = fst (emit_samples n (phase_inc f0 f1 sr bit) p))
            chunks bits.
Proof.
  revert phase. induction bits as [| bit bits IH]; intro phase.
  - exists []. split; [reflexivity | constructor].
  - cbn [emit_bits].
    destruct (emit_samples n (phase_inc f0 f1 sr bit) phase) as [chunk p'] eqn:E.
    destruct (IH p') as [chunks [Ec Hc]].
    exists (chunk :: chunks). split.
    + cbn [concat]. rewrite Ec. reflexivity.
    + constructor; [| exact Hc]. exists phase. rewrite E. reflexivity.
Qed.

End BitSlicer.

(** ** Modulator and demodulator back to back, in exact arithmetic *)

Section Loopback.
Import Bytes Exn Send Recv.
Local Opaque Hashlib.sha256.

Lemma frame_byte_binary byte : Forall (fun b => b = 0 \/ b = 1)%Z (frame_byte byte).
Proof.
  unfold frame_byte. cbn [map app].
  assert (H : forall x, (Z.land x 1 = 0 \/ Z.land x 1 = 1)%Z).
  { intro x.
    assert (E : Z.land x 1 = (x mod 2)%Z)
      by (change 1%Z with (Z.ones 1); rewrite Z.land_ones by lia; reflexivity).
    rewrite E. pose proof (Z.mod_pos_bound x 2). lia. }
  repeat (apply Forall_cons; [first [left; reflexivity | right; reflexivity | apply H] |]).
  apply Forall_nil.
Qed.

Lemma frame_bits_binary data : Forall (fun b => b = 0 \/ b = 1)%Z (frame_bits data).
Proof.
  unfold frame_bits. apply Forall_app. split.
  - unfold preamble. cbn [repeat concat app].
    repeat (apply Forall_cons; [first [left; reflexivity | right; reflexivity] |]).
    apply Forall_nil.
  - apply Forall_app. split.
    + apply Forall_flat_map. apply Forall_forall. intros byte _. apply frame_byte_binary.
    + apply Forall_forall. intros b Hb. apply repeat_spec in Hb. right. exact Hb.
Qed.

Lemma default_tone_reads_as bit phase :
  (bit = 0 \/ bit = 1)%Z ->
  reads_as 18000 20000 48000 320
    (fst (emit_samples 320 (phase_inc 18000 20000 48000 bit) phase)) bit.
Proof.
  intro Hb. split; [apply length_emit_samples |].
  destruct (default_window_read bit phase) as [p0 [p1 [E0 [E1 Hd]]]].
  exists p0, p1. split; [exact E0 |]. split; [exact E1 |].
  destruct Hb as [-> | ->]; cbn [Z.eqb] in Hd.
  - destruct (Rgt_dec p0 p1); [reflexivity | contradiction].
  - destruct (Rgt_dec p0 p1) as [Hgt | _]; [| reflexivity].
    exfalso. unfold Rgt in *. lra.
Qed.

Lemma silence_reads_as_idle : reads_as 18000 20000 48000 320 (repeat 0%R 320) 1.
Proof.
  split; [apply repeat_length |].
  destruct detector_bins as [K0 K1].
  exists 0%R, 0%R. split; [apply (goertzel_zeros 320 _ _ 120); [lia | exact K0] |].
  split; [apply (goertzel_zeros 320 _ _ 133); [lia | exact K1] |].
  destruct (Rgt_dec 0 0) as [H | _]; [exfalso; unfold Rgt in H; lra | reflexivity].
Qed.

Lemma modulated_bits_read_back bits phase :
  Forall (fun b => b = 0 \/ b = 1)%Z bits ->
  exists chunks,
    emit_bits 18000 20000 48000 320 bits phase = concat chunks /\
    Forall2 (reads_as 18000 20000 48000 320) chunks bits.
Proof.
  intro Hb.
  destruct (emit_bits_chunks 18000 20000 48000 320 bits phase) as [chunks [E H]].
  exists chunks. split; [exact E |].
  clear E. induction H as [| chunk bit chunks bits [p Hc] _ IH]; [constructor |].
  inversion Hb as [| ? ? Hbit Hrest]; subst.
  constructor; [apply default_tone_reads_as; exact Hbit | apply IH; exact Hrest].
Qed.

Lemma silence_chunks g :
  repeat 0%R (320 * g) = concat (repeat (repeat 0%R 320) g) /\
  Forall2 (reads_as 18000 20000 48000 320) (repeat (repeat 0%R 320) g) (repeat 1%Z g).
Proof.
  induction g as [| g [E H]].
  - rewrite Nat.mul_0_r. split; [reflexivity | constructor].
  - replace (320 * S g)%nat with (320 + 320 * g)%nat by lia.
    rewrite repeat_app, E. split; [reflexivity |].
    cbn [repeat]. constructor; [apply silence_reads_as_idle | exact H].
Qed.

Lemma modulate_default data :
  modulate_afsk_ultrasonic 18000 20000 48000 data 150
  = Ok (emit_bits 18000 20000 48000 320 (frame_bits data) 0%R).
Proof.
  rewrite modulate_cases.
  replace (Py.int_div 48000 150) with (Ok 320%Z) by (vm_compute; reflexivity).
  replace (Py.float_divisor 48000) with (Ok 48000%Q) by (vm_compute; reflexivity).
  reflexivity.
Qed.

Lemma default_samples_per_bit : Py.int_div 48000 150 = Ok (Z.of_nat 320).
Proof. vm_compute. reflexivity. Qed.

Lemma demodulate_modulated_bits bits :
  Forall (fun b => b = 0 \/ b = 1)%Z bits ->
  demodulate_afsk (emit_bits 18000 20000 48000 320 bits 0%R) 18000 20000 48000 150
  = Ok (uart_loop bits 0 []).
Proof.
  intro Hb. destruct (modulated_bits_read_back bits 0%R Hb) as [chunks [E H]].
  rewrite E. apply (demodulate_chunks 18000 20000 48000 150 320 chunks bits);
    [exact default_samples_per_bit | lia | exact H].
Qed.

Lemma uart_bytes_of_data data :
  Forall is_byte data -> uart_loop (frame_bits data) 0 [] = uart_bytes data.
Proof.
  intro H. rewrite <- (app_nil_r (frame_bits data)).
  rewrite uart_loop_packet by exact H. apply uart_loop_nil.
Qed.

(** X21.  Modulator and demodulator back to back at the default parameters
    (18 and 20 kHz, 48000 samples per second, 150 baud), in exact
    arithmetic: the samples [modulate_afsk_ultrasonic] returns for [data]
    are demodulated by [demodulate_afsk] to three preamble bytes 0xAA
    followed by [data] when the first byte is even ([first >> 1] replaces
    the first byte when it is odd; a byte 0xFF stands for empty data).
    Every window of 320 samples is read as the bit that was sent, whatever
    the phase the window starts with. *)
Theorem modulated_bytes_demodulate (data : bytes) :
  Forall is_byte data ->
  exists samples,
    modulate_afsk_ultrasonic 18000 20000 48000 data 150 = Ok samples /\
    length samples = ((48 + 10 * length data) * 320)%nat /\
    demodulate_afsk samples 18000 20000 48000 150 =
      Ok ([170; 170; 170]%Z ++
          match data with
          | [] => [255%Z]
          | b :: rest => if Z.even b then b :: rest else Z.shiftr b 1 :: rest
          end).
Proof.
  intro H. exists (emit_bits 18000 20000 48000 320 (frame_bits data) 0%R).
  split; [apply modulate_default |].
  split; [rewrite length_emit_bits, length_frame_bits; reflexivity |].
  rewrite demodulate_modulated_bits by apply frame_bits_binary.
  rewrite uart_bytes_of_data by exact H. reflexivity.
Qed.

Lemma modulated_bytes_demodulate_witness :
  exists samples,
    modulate_afsk_ultrasonic 18000 20000 48000 [0; 56; 202]%Z 150 = Ok samples /\
    demodulate_afsk samples 18000 20000 48000 150 = Ok [170; 170; 170; 0; 56; 202]%Z.
Proof.
  assert (H : Forall is_byte [0; 56; 202]%Z).
  { repeat (apply Forall_cons; [unfold is_byte; lia |]). apply Forall_nil. }
  destruct (modulated_bytes_demodulate [0; 56; 202]%Z H) as [samples [E [_ D]]].
  exists samples. split; [exact E | exact D].
Defined.

(** X22.  The noiseless round trip of a calibration packet, in exact
    arithmetic: for every 16-bit sequence number the frame is generated,
    modulated at the default parameters, and the samples handed unchanged
    to the demodulator come back as the three preamble bytes followed by
    the same 58 frame bytes, from which [extract_packets] records exactly
    one packet, with that sequence number and [intact = true]. *)
Theorem calibration_round_trip (seq_ : Z) :
  (0 <= seq_ <= 65535)%Z ->
  exists frame samples,
    generate_calibration_packet seq_ = Ok frame /\
    modulate_afsk_ultrasonic 18000 20000 48000 frame 150 = Ok samples /\
    demodulate_afsk samples 18000 20000 48000 150 = Ok ([170; 170; 170]%Z ++ frame) /\
    extract_packets ([170; 170; 170]%Z ++ frame) = [intact_packet seq_].
Proof.
  intro Hr. exists (frame_of seq_).
  exists (emit_bits 18000 20000 48000 320 (frame_bits (frame_of seq_)) 0%R).
  split; [apply generate_calibration_packet_ok; exact Hr |].
  split; [apply modulate_default |].
  split.
  - rewrite demodulate_modulated_bits by apply frame_bits_binary.
    rewrite uart_bytes_of_data by apply frame_of_is_byte.
    rewrite uart_bytes_frame. reflexivity.
  - pose proof (extract_calibration_stream [([170; 170; 170]%Z, seq_)] []) as E.
    cbn [map concat fst snd] in E. rewrite !app_nil_r in E. apply E.
    + constructor; [| constructor]. split; [| exact Hr].
      repeat (apply Forall_cons; [discriminate |]). apply Forall_nil.
    + constructor.
Qed.

Lemma calibration_round_trip_witness :
  exists frame samples,
    generate_calibration_packet 7 = Ok frame /\
    modulate_afsk_ultrasonic 18000 20000 48000 frame 150 = Ok samples /\
    demodulate_afsk samples 18000 20000 48000 150 = Ok ([170; 170; 170]%Z ++ frame) /\
    extract_packets ([170; 170; 170]%Z ++ frame) = [intact_packet 7].
Proof.
  apply (calibration_round_trip 7). lia.
Defined.

Lemma batch_reads_back (a : Send.args) (g : nat) (seqs : list Z) :
  Send.freq0 a = 18000%Q -> Send.freq1 a = 20000%Q ->
  Send.sample_rate a = 48000%Z -> Send.baud a = 150%Z ->
  exists chunks,
    concat (map (fun s => packet_samples a s ++ repeat 0%R (320 * g)) seqs)
    = concat chunks /\
    Forall2 (reads_as 18000 20000 48000 320) chunks (batch_bits g (map frame_of seqs)).
Proof.
  intros F0 F1 Sr Bd.
  assert (Spb : Z.to_nat (samples_per_bit a) = 320%nat).
  { unfold samples_per_bit. rewrite Sr, Bd, default_samples_per_bit. reflexivity. }
  induction seqs as [| s seqs [chunks [E H]]].
  - exists []. split; [reflexivity | constructor].
  - unfold packet_samples in *. rewrite F0, F1, Sr, Spb in *.
    destruct (modulated_bits_read_back (frame_bits (frame_of s)) 0%R
                (frame_bits_binary _)) as [tone [Et Ht]].
    destruct (silence_chunks g) as [Es Hs].
    exists (tone ++ repeat (repeat 0%R 320) g ++ chunks). split.
    + cbn [map concat]. rewrite E, Et, Es, !concat_app. rewrite <- app_assoc.
      reflexivity.
    + unfold batch_bits in *. cbn [map concat]. rewrite <- app_assoc.
      apply Forall2_app; [exact Ht |]. apply Forall2_app; [exact Hs | exact H].
Qed.

Lemma batch_bytes g seqs :
  uart_loop (batch_bits g (map frame_of seqs)) 0 []
  = concat (map (fun p : bytes * Z => fst p ++ frame_of (snd p))
                (map (fun s => ([170; 170; 170]%Z, s)) seqs)).
Proof.
  rewrite uart_loop_batch.
  - cbn [app]. rewrite !map_map. f_equal.
  - apply Forall_forall. intros f Hf. apply in_map_iff in Hf.
    destruct Hf as [s [<- _]]. apply frame_of_is_byte.
Qed.

Lemma length_batch_bytes g seqs :
  length (uart_loop (batch_bits g (map frame_of seqs)) 0 []) = (61 * length seqs)%nat.
Proof.
  rewrite batch_bytes, map_map. cbn [fst snd].
  induction seqs as [| s seqs IH]; [reflexivity |].
  cbn [map concat]. rewrite !length_app, IH, length_frame_of. cbn [length]. lia.
Qed.

Lemma batch_packets g seqs :
  Forall (fun s => 0 <= s <= 65535)%Z seqs ->
  extract_packets (uart_loop (batch_bits g (map frame_of seqs)) 0 [])
  = map intact_packet seqs.
Proof.
  intro H. rewrite batch_bytes.
  pose proof (extract_calibration_stream
                (map (fun s => ([170; 170; 170]%Z, s)) seqs) []) as E.
  rewrite app_nil_r in E. etransitivity; [apply E |].
  - apply Forall_map. eapply Forall_impl; [| exact H].
    intros s Hs. cbn [fst snd]. split; [| exact Hs].
    repeat (apply Forall_cons; [discriminate |]). apply Forall_nil.
  - constructor.
  - rewrite map_map. reflexivity.
Qed.

Lemma count_all_intact seqs :
  count intact (map intact_packet seqs) = Z.of_nat (length seqs) /\
  count (fun p => negb (intact p)) (map intact_packet seqs) = 0%Z.
Proof.
  unfold count. induction seqs as [| s seqs [I1 I2]]; [split; reflexivity |].
  cbn [map filter intact intact_packet negb length]. split; [lia | exact I2].
Qed.

Lemma summarize_all_intact seqs :
  let s := summarize (map intact_packet seqs) (Z.of_nat (length seqs)) in
  packets_found s = Z.of_nat (length seqs) /\
  packets_intact s = Z.of_nat (length seqs) /\
  packets_corrupted s = 0%Z /\ packets_lost s = 0%Z /\
  (per s == 0)%Q /\ quality s = excellent.
Proof.
  cbv zeta. unfold summarize.
  cbn [packets_found packets_intact packets_corrupted packets_lost per quality].
  destruct (count_all_intact seqs) as [C1 C2]. rewrite C1, C2, length_map.
  replace (Z.max 0 (Z.of_nat (length seqs) - Z.of_nat (length seqs)) + 0)%Z
    with 0%Z by lia.
  replace (Z.max 0 (Z.of_nat (length seqs) - Z.of_nat (length seqs)))%Z
    with 0%Z by lia.
  assert (E : error_ratio 0 (Z.of_nat (length seqs)) = 0%Q).
  { unfold error_ratio. apply (nearest_comp _ 0). unfold Qdiv.
    change (inject_Z 0) with 0%Q. ring. }
  rewrite E. repeat split; reflexivity.
Qed.

(** X23.  The default loop, in exact arithmetic: when [send.main]
    transmits 1 to 65536 packets at 18 and 20 kHz, 48000 samples per
    second and 150 baud, with a gap that is a whole number of bit times,
    and the emitted buffer is handed unchanged to the receiver set to the
    same tones and baud rate, the receiver demodulates 61 bytes per packet
    and records every packet, in order and intact.  With as many packets
    expected as were sent the report counts no loss and no corruption, a
    PER of 0 and quality [excellent]. *)
Theorem loopback_batch (a : Send.args) (w : Send.world) (r : Recv.args)
    (source : option string) (g : nat) :
  Send.freq0 a = 18000%Q -> Send.freq1 a = 20000%Q ->
  Send.sample_rate a = 48000%Z -> Send.baud a = 150%Z ->
  (1 <= packets a <= 65536)%Z ->
  gap_sample_count a = Ok (320 * Z.of_nat g)%Z ->
  sounddevice w <> None \/ (exists path, output a = Some path /\ path <> ""%string) ->
  Recv.freq0 r = 18000%Q -> Recv.freq1 r = 20000%Q -> Recv.baud r = 150%Z ->
  expected r = packets a ->
  exists samples s,
    emitted (Send.main a w) = Some samples /\
    analyze_samples r source samples 48000 =
      succeeded source 48000 (61 * packets a) s /\
    packet_details s = map intact_packet (range (packets a)) /\
    packets_found s = packets a /\ packets_intact s = packets a /\
    packets_corrupted s = 0%Z /\ packets_lost s = 0%Z /\
    (per s == 0)%Q /\ quality s = excellent.
Proof.
  intros F0 F1 Sr Bd Hp Hg Hout R0 R1 Rb Re.
  assert (Hn : (2 * Qmax (Send.freq0 a) (Send.freq1 a)
                <= inject_Z (Send.sample_rate a))%Q).
  { rewrite F0, F1, Sr. vm_compute. discriminate. }
  assert (Hd : Py.int_div (Send.sample_rate a) (Send.baud a) = Ok 320%Z)
    by (rewrite Sr, Bd; exact default_samples_per_bit).
  assert (Hf : Py.float_divisor (Send.sample_rate a) = Ok 48000%Q)
    by (rewrite Sr; vm_compute; reflexivity).
  assert (Ho : has_sink a w).
  { destruct Hout as [Hsd | Hpath]; [right; exact Hsd | left; exact Hpath]. }
  destruct (main_emits_batch a w 320 48000 (320 * Z.of_nat g) Hn Hd ltac:(lia) Hf Hp Hg
              ltac:(lia) Ho) as [Em _].
  assert (Hl : Z.of_nat (length (range (packets a))) = packets a)
    by (rewrite length_range; lia).
  exists (batch_samples a).
  exists (summarize (map intact_packet (range (packets a))) (expected r)).
  split; [exact Em |].
  assert (Hseqs : Forall (fun s => 0 <= s <= 65535)%Z (range (packets a))).
  { eapply Forall_impl; [| apply range_bounds]. cbv beta. intros. lia. }
  split.
  - unfold analyze_samples. rewrite R0, R1, Rb.
    unfold batch_samples, gap_size. rewrite Hg.
    replace (Z.to_nat (320 * Z.of_nat g)) with (320 * g)%nat by lia.
    destruct (batch_reads_back a g (range (packets a)) F0 F1 Sr Bd) as [chunks [E H]].
    rewrite E.
    rewrite (demodulate_chunks 18000 20000 48000 150 320 chunks _
               default_samples_per_bit ltac:(lia) H).
    rewrite length_batch_bytes, batch_packets by exact Hseqs.
    f_equal. lia.
  - rewrite Re.
    pose proof (summarize_all_intact (range (packets a))) as S. cbv zeta in S.
    rewrite Hl in S. destruct S as [S1 [S2 [S3 [S4 [S5 S6]]]]].
    split; [reflexivity |]. repeat split; assumption.
Qed.

Lemma loopback_batch_witness :
  exists samples s,
    emitted (Send.main args_default quiet_world) = Some samples /\
    analyze_samples recv_defaults None samples 48000 = succeeded None 48000 610 s /\
    packets_intact s = 10%Z /\ (per s == 0)%Q /\ quality s = excellent.
Proof.
  assert (Hg : gap_sample_count args_default = Ok (320 * Z.of_nat 30)%Z)
    by (vm_compute; reflexivity).
  assert (Hsd : sounddevice quiet_world <> None) by discriminate.
  destruct (loopback_batch args_default quiet_world recv_defaults None 30
              eq_refl eq_refl eq_refl eq_refl ltac:(cbn; lia) Hg
              (or_introl Hsd) eq_refl eq_refl eq_refl eq_refl)
    as [samples [s [E [A [_ [_ [I [_ [_ [P Q]]]]]]]]]].
  exists samples, s. split; [exact E |]. split; [exact A |].
  split; [exact I |]. split; [exact P | exact Q].
Defined.

End Loopback.

(** ** The Goertzel detector against the discrete Fourier transform *)

Section GoertzelDft.
Import Exn Recv.
Local Open Scope R_scope.

Lemma cos_weighted_rsum w k samples :
  cos_weighted w k samples
  = Np.rsum (map (fun p : nat * R => snd p * cos (w * INR (fst p)))
                 (combine (List.seq k (length samples)) samples)).
Proof.
  revert k. induction samples as [| x rest IH]; intro k; [reflexivity |].
  cbn [cos_weighted length List.seq combine map Np.rsum fold_right fst snd].
  rewrite IH. reflexivity.
Qed.

Lemma sin_weighted_rsum w k samples :
  sin_weighted w k samples
  = Np.rsum (map (fun p : nat * R => snd p * sin (w * INR (fst p)))
                 (combine (List.seq k (length samples)) samples)).
Proof.
  revert k. induction samples as [| x rest IH]; intro k; [reflexivity |].
  cbn [sin_weighted length List.seq combine map Np.rsum fold_right fst snd].
  rewrite IH. reflexivity.
Qed.

(** X24.  [goertzel] computes, in exact arithmetic, the squared modulus of
    one bin of the discrete Fourier transform divided by the square of the
    window length: the bin [k = int(0.5 + n * target_freq / sample_rate)],
    computed in double precision, of the transform that np.fft.rfft
    computes in analyze.py and sweep.py (for [k] up to [n / 2]), so the
    value is the analyzer's normalised power at that bin. *)
Theorem goertzel_is_dft_bin (samples : list R) (target_freq : Q)
    (sample_rate k : Z) :
  samples <> [] ->
  goertzel_bin (Z.of_nat (length samples)) target_freq sample_rate = Ok k ->
  (0 <= k)%Z ->
  let n := length samples in
  goertzel samples target_freq sample_rate =
    Ok ((Np.dft_re samples (Z.to_nat k) * Np.dft_re samples (Z.to_nat k)
         + Np.dft_im samples (Z.to_nat k) * Np.dft_im samples (Z.to_nat k))
        / (INR n * INR n)).
Proof.
  intros Hs Hb Hk. cbv zeta.
  rewrite (goertzel_value samples target_freq sample_rate k Hs Hb). cbv zeta.
  rewrite <- (INR_IZR_INZ (length samples)).
  set (w := 2 * PI * IZR k / INR (length samples)).
  assert (Ew : forall j : nat,
             w * INR j = 2 * PI * INR j * INR (Z.to_nat k) / INR (length samples)).
  { intro j. unfold w. rewrite (INR_IZR_INZ (Z.to_nat k)), Z2Nat.id by exact Hk.
    unfold Rdiv. ring. }
  assert (Ec : cos_weighted w 0 samples = Np.dft_re samples (Z.to_nat k)).
  { rewrite cos_weighted_rsum. unfold Np.dft_re. f_equal.
    apply map_ext. intros [j x]. cbn [fst snd]. rewrite Ew. reflexivity. }
  assert (Es : sin_weighted w 0 samples = - Np.dft_im samples (Z.to_nat k)).
  { rewrite sin_weighted_rsum. unfold Np.dft_im. rewrite Ropp_involutive. f_equal.
    apply map_ext. intros [j x]. cbn [fst snd]. rewrite Ew. reflexivity. }
  rewrite Ec, Es. f_equal. f_equal. ring.
Qed.

Lemma goertzel_is_dft_bin_witness :
  goertzel_bin 4 12000 48000 = Ok 1%Z /\
  goertzel [1; 0; -1; 0] 12000 48000 =
    Ok ((Np.dft_re [1; 0; -1; 0] 1 * Np.dft_re [1; 0; -1; 0] 1
         + Np.dft_im [1; 0; -1; 0] 1 * Np.dft_im [1; 0; -1; 0] 1)
        / (INR 4 * INR 4)).
Proof.
  assert (Hs : [1; 0; -1; 0] <> @nil R) by discriminate.
  assert (Hb : goertzel_bin (Z.of_nat (length [1; 0; -1; 0])) 12000 48000 = Ok 1%Z)
    by (vm_compute; reflexivity).
  split; [exact Hb |].
  exact (goertzel_is_dft_bin [1; 0; -1; 0] 12000 48000 1 Hs Hb ltac:(lia)).
Defined.

(** The bin is computed in double precision: on a window of 3 samples at
    3 samples per second, the target frequency 0.49999999999999994 (the
    double just below 1/2) is read at bin 1, although the exact sum
    [0.5 + n * target_freq / sample_rate] is below 1. *)
Example goertzel_bin_is_rounded :
  let f := (9007199254740991 # 18014398509481984)%Q in
  Py.nearest f = f /\
  goertzel_bin 3 f 3 = Ok 1%Z /\
  Py.int_of (0.5 + inject_Z 3 * f / inject_Z 3) = 0%Z.
Proof. cbv zeta. repeat split; vm_compute; reflexivity. Qed.

End GoertzelDft.

(** ** recv.py: what an intact packet proves about the input *)

Section ExtractSound.
Import Bytes Exn Recv.
Local Opaque Hashlib.sha256.

Lemma starts_with_prefix sub l :
  starts_with sub l = true -> exists rest, l = sub ++ rest.
Proof.
  revert l. induction sub as [| s sub IH]; intros l H.
  - exists l. reflexivity.
  - destruct l as [| x l]; [discriminate |]. cbn [starts_with] in H.
    apply andb_true_iff in H. destruct H as [Hx H].
    apply Z.eqb_eq in Hx. subst x.
    destruct (IH l H) as [rest ->]. exists rest. reflexivity.
Qed.

Lemma find_from_occurs sub l pos m :
  find_from sub l pos = Some m -> starts_with sub (skipn (m - pos) l) = true.
Proof.
  revert pos. induction l as [| x l IH]; intro pos; cbn [find_from].
  - destruct (starts_with sub []) eqn:E; [| discriminate].
    intros _. destruct (m - pos)%nat; exact E.
  - destruct (starts_with sub (x :: l)) eqn:E.
    + intro H. inversion H; subst. rewrite Nat.sub_diag. exact E.
    + intro H. pose proof (find_from_bounds _ _ _ _ H) as [Hb _].
      apply IH in H.
      replace (m - pos)%nat with (S (m - S pos)) by lia. exact H.
Qed.

Lemma find_occurs raw sub start m :
  find raw sub start = Some m -> exists rest, skipn m raw = sub ++ rest.
Proof.
  unfold find. destruct (Nat.ltb_spec (length raw) start) as [| Hs]; [discriminate |].
  intro Hf. pose proof (find_from_bounds _ _ _ _ Hf) as [Hb _].
  apply find_from_occurs in Hf. rewrite skipn_skipn in Hf.
  replace (m - start + start)%nat with m in Hf by lia.
  apply starts_with_prefix. exact Hf.
Qed.

Lemma firstn_add {A : Type} (l : list A) n k :
  firstn (n + k) l = firstn n l ++ firstn k (skipn n l).
Proof.
  revert l. induction n as [| n IH]; intro l; [reflexivity |].
  destruct l as [| x l]; [cbn; destruct k; reflexivity |].
  cbn [Nat.add firstn skipn app]. rewrite IH. reflexivity.
Qed.

Lemma slice_cat (l : bytes) a b c :
  (a <= b <= c)%nat -> slice l a b ++ slice l b c = slice l a c.
Proof.
  intro H. unfold slice.
  replace (c - a)%nat with ((b - a) + (c - b))%nat by lia.
  rewrite firstn_add, skipn_skipn.
  replace (b - a + a)%nat with b by lia. reflexivity.
Qed.

(** The first 56 bytes of a packet body, field by field. *)
Lemma body_fields (body : bytes) :
  (56 <= length body)%nat ->
  body = slice body 0 4 ++ slice body 4 6 ++ slice body 6 24 ++ slice body 24 56
           ++ skipn 56 body.
Proof.
  intros _.
  rewrite (app_assoc (slice body 6 24)), (slice_cat body 6 24 56) by lia.
  rewrite (app_assoc (slice body 4 6)), (slice_cat body 4 6 56) by lia.
  rewrite app_assoc, (slice_cat body 0 4 56) by lia.
  unfold slice. cbn [skipn Nat.sub]. symmetry. apply firstn_skipn.
Qed.

Lemma scan_step_sound raw_data i i' p :
  scan_step raw_data i = scan_next i' (Some p) -> sound raw_data p.
Proof.
  unfold scan_step.
  destruct (find raw_data CALIBRATION_MAGIC i) as [m |] eqn:Hf; [| discriminate].
  destruct (Nat.ltb_spec m 2) as [| Hm]; [discriminate |].
  replace (m - 2 + 2)%nat with m by lia.
  set (len := Z.to_nat (from_be (slice raw_data (m - 2) m))).
  destruct (Nat.ltb_spec (length raw_data) (m + len)) as [| Hlen]; [discriminate |].
  set (body := slice raw_data m (m + len)).
  destruct (Nat.ltb_spec (length body) 56) as [| Hb]; [discriminate |].
  intro E. inversion E as [[Ei Ep]]. clear E Ei.
  split; [reflexivity |]. cbn [intact seq]. intro Hi.
  apply andb_true_iff in Hi. destruct Hi as [Hv Hp].
  apply eqb_eq in Hv. apply eqb_eq in Hp.
  destruct (find_occurs _ _ _ _ Hf) as [rest Hrest].
  assert (Hmagic : slice body 0 4 = CALIBRATION_MAGIC).
  { unfold body, slice. cbn [skipn Nat.sub].
    replace (m + len - m)%nat with len by lia.
    assert (L : (4 <= len)%nat).
    { pose proof (length_slice raw_data m (m + len)) as Hls. fold body in Hls. lia. }
    rewrite firstn_firstn, Nat.min_l by exact L. rewrite Hrest. reflexivity. }
  pose proof (body_fields body Hb) as Eb.
  rewrite Hmagic, Hp, Hv, Hmagic, Hp in Eb.
  exists (firstn m raw_data), (slice body 4 6), (skipn 56 body ++ skipn (m + len) raw_data).
  split; [| split].
  - rewrite <- (firstn_skipn m raw_data) at 1. f_equal.
    rewrite <- (firstn_skipn len (skipn m raw_data)) at 1.
    rewrite skipn_skipn. replace (len + m)%nat with (m + len)%nat by lia.
    assert (Ebody : firstn len (skipn m raw_data) = body).
    { unfold body, slice. f_equal. lia. }
    rewrite Ebody. rewrite Eb at 1. rewrite <- !app_assoc. reflexivity.
  - apply length_slice_inside. lia.
  - reflexivity.
Qed.

Lemma scan_loop_sound raw_data i acc :
  Forall (sound raw_data) acc -> Forall (sound raw_data) (scan_loop raw_data i acc).
Proof.
  funelim (scan_loop raw_data i acc); intro Hacc; try exact Hacc.
  match goal with IH : Forall _ _ -> _ |- _ => apply IH end.
  apply Forall_app. split; [exact Hacc |].
  destruct found as [p |]; cbn [emitted_list]; [| constructor].
  constructor; [| constructor].
  match goal with E : scan_step _ _ = scan_next _ _ |- _ =>
    exact (scan_step_sound _ _ _ _ E) end.
Qed.

(** X25.  No false positive: whatever the input, a packet
    [extract_packets] reports as intact stands for 56 bytes that occur
    verbatim in it, the magic, two sequence bytes giving the reported
    sequence number, the calibration payload and the SHA-256 of these;
    and [intact] is always the conjunction of [valid_hash] and
    [payload_match]. *)
Theorem extract_packets_sound (raw_data : bytes) :
  Forall (fun p =>
            intact p = valid_hash p && payload_match p /\
            (intact p = true ->
             exists pre seq_bytes post,
               raw_data =
                 pre ++ CALIBRATION_MAGIC ++ seq_bytes ++ CALIBRATION_PAYLOAD
                   ++ Hashlib.sha256 (CALIBRATION_MAGIC ++ seq_bytes
                                        ++ CALIBRATION_PAYLOAD)
                   ++ post /\
               length seq_bytes = 2%nat /\ seq p = from_be seq_bytes))
         (extract_packets raw_data).
Proof.
  exact (scan_loop_sound raw_data 0 [] (Forall_nil _)).
Qed.

End ExtractSound.

(** ** send.py: the phase of the oscillator within a packet *)

Section Phase.
Import Exn Send.
Local Open Scope R_scope.

Lemma emit_samples_closed n inc phase :
  emit_samples n inc phase =
    (map (fun i => amplitude * sin (phase + INR i * inc)) (List.seq 0 n),
     phase + INR n * inc).
Proof.
  revert phase. induction n as [| n IH]; intro phase.
  - cbn [emit_samples List.seq map INR]. f_equal. ring.
  - cbn [emit_samples]. rewrite IH. cbn [List.seq map].
    f_equal.
    + f_equal; [cbn [INR]; f_equal; f_equal; ring |].
      rewrite <- seq_shift, map_map. apply map_ext. intro i.
      rewrite S_INR. f_equal. f_equal. ring.
    + rewrite S_INR. ring.
Qed.

Lemma nth_map_seq {A : Type} (f : nat -> A) n j d :
  (j < n)%nat -> nth j (map f (List.seq 0 n)) d = f j.
Proof.
  intro H. rewrite (nth_indep _ d (f 0%nat)) by (rewrite length_map, length_seq; exact H).
  rewrite (map_nth f), seq_nth by exact H. reflexivity.
Qed.

Lemma nth_tone n inc phase j :
  (j < n)%nat ->
  nth j (map (fun i => amplitude * sin (phase + INR i * inc)) (List.seq 0 n)) 0
  = amplitude * sin (phase + INR j * inc).
Proof.
  intro H. exact (nth_map_seq (fun i => amplitude * sin (phase + INR i * inc)) n j 0 H).
Qed.

Lemma emit_bits_adjacent f0 f1 sr n bits phase j :
  (0 < n)%nat ->
  (S j < length (emit_bits f0 f1 sr n bits phase))%nat ->
  exists p,
    nth j (emit_bits f0 f1 sr n bits phase) 0 = amplitude * sin p /\
    nth (S j) (emit_bits f0 f1 sr n bits phase) 0
    = amplitude * sin (p + phase_inc f0 f1 sr (nth (j / n) bits 0%Z)).
Proof.
  intro Hn. revert phase j. induction bits as [| bit bits IH]; intros phase j Hj.
  - cbn in Hj. lia.
  - cbn [emit_bits] in *. rewrite emit_samples_closed in *.
    set (inc := phase_inc f0 f1 sr bit) in *.
    set (chunk := map (fun i => amplitude * sin (phase + INR i * inc)) (List.seq 0 n))
      in *.
    assert (Lc : length chunk = n) by (unfold chunk; rewrite length_map, length_seq;
                                       reflexivity).
    destruct (Nat.lt_ge_cases j n) as [Hlt | Hge].
    + exists (phase + INR j * inc).
      rewrite (Nat.div_small j n Hlt). cbn [nth]. fold inc.
      split; [rewrite app_nth1 by lia; apply nth_tone; exact Hlt |].
      destruct (Nat.lt_ge_cases (S j) n) as [Hin | Hout].
      * rewrite app_nth1 by lia. unfold chunk. rewrite nth_tone by exact Hin.
        rewrite S_INR. f_equal. f_equal. ring.
      * assert (Ej : S j = n) by lia.
        rewrite app_nth2 by lia. rewrite Lc. replace (S j - n)%nat with 0%nat by lia.
        rewrite length_app, Lc in Hj.
        destruct bits as [| bit' bits']; [cbn in Hj; lia |].
        cbn [emit_bits]. rewrite emit_samples_closed.
        rewrite app_nth1 by (rewrite length_map, length_seq; lia).
        rewrite (nth_map_seq _ n 0 0 Hn).
        change (INR 0) with 0. rewrite <- Ej at 1. rewrite S_INR.
        f_equal. f_equal. ring.
    + rewrite length_app, Lc in Hj.
      destruct (IH (phase + INR n * inc) (j - n)%nat ltac:(lia)) as [p [E1 E2]].
      exists p.
      rewrite !app_nth2 by lia. rewrite Lc.
      replace (S j - n)%nat with (S (j - n)) by lia.
      split; [exact E1 |]. rewrite E2.
      replace (j / n)%nat with (S ((j - n) / n)).
      * reflexivity.
      * replace j with ((j - n) + 1 * n)%nat at 2 by lia.
        rewrite Nat.div_add by lia. lia.
Qed.

Lemma sine_step p d : Rabs (sin (p + d) - sin p) <= Rabs d.
Proof.
  assert (Hs : forall x, 0 <= x -> Rabs (sin x) <= x).
  { intros x Hx. pose proof (SIN_bound x) as [B1 B2]. apply Rabs_le.
    destruct (Rle_lt_or_eq_dec 0 x Hx) as [Hpos | <-]; [| rewrite sin_0; lra].
    pose proof (sin_lt_x x Hpos) as Hu. split; [| lra].
    destruct (Rle_dec x 1) as [H1 | H1]; [| lra].
    pose proof PI2_1 as Hp2.
    assert (0 <= sin x) by (apply sin_ge_0; lra). lra. }
  assert (Ha : forall x, Rabs (sin x) <= Rabs x).
  { intro x. destruct (Rle_dec 0 x) as [Hx | Hx].
    - rewrite (Rabs_pos_eq x) by exact Hx. apply Hs. exact Hx.
    - rewrite <- (Rabs_Ropp (sin x)), <- sin_neg, <- (Rabs_Ropp x).
      rewrite (Rabs_pos_eq (- x)) by lra. apply Hs. lra. }
  replace (sin (p + d) - sin p) with (2 * cos (p + d / 2) * sin (d / 2)).
  - rewrite !Rabs_mult, (Rabs_pos_eq 2) by lra.
    pose proof (COS_bound (p + d / 2)) as [C1 C2].
    assert (Hc : Rabs (cos (p + d / 2)) <= 1) by (apply Rabs_le; lra).
    pose proof (Ha (d / 2)) as Hd.
    assert (Ed : Rabs (d / 2) = Rabs d / 2).
    { unfold Rdiv. rewrite Rabs_mult, (Rabs_pos_eq (/ 2)) by lra. reflexivity. }
    rewrite Ed in Hd.
    pose proof (Rabs_pos (cos (p + d / 2))) as P1.
    pose proof (Rabs_pos (sin (d / 2))) as P2.
    nra.
  - replace (p + d) with ((p + d / 2) + d / 2) at 1 by lra.
    replace p with ((p + d / 2) - d / 2) at 3 by lra.
    rewrite sin_plus, sin_minus. ring.
Qed.

(** X26.  Continuous phase within a packet: any two consecutive samples of
    a modulated packet are [0.6 sin p] and [0.6 sin (p + inc)], where
    [inc = 2 pi f / sample_rate] is the increment of the bit the first of
    them belongs to; the phase is carried over bit boundaries and never
    reset.  Hence consecutive samples differ by at most [0.6 |inc|]. *)
Theorem continuous_phase (f0 f1 : Q) (sr : Z) (n : nat) (bits : list Z) (j : nat) :
  (0 < n)%nat ->
  (S j < length (emit_bits f0 f1 sr n bits 0))%nat ->
  let samples := emit_bits f0 f1 sr n bits 0 in
  let inc := phase_inc f0 f1 sr (nth (j / n) bits 0%Z) in
  (exists p, nth j samples 0 = 6 / 10 * sin p /\
             nth (S j) samples 0 = 6 / 10 * sin (p + inc)) /\
  Rabs (nth (S j) samples 0 - nth j samples 0) <= 6 / 10 * Rabs inc.
Proof.
  intros Hn Hj. cbv zeta.
  destruct (emit_bits_adjacent f0 f1 sr n bits 0 j Hn Hj) as [p [E1 E2]].
  split; [exists p; split; assumption |].
  rewrite E1, E2. unfold amplitude.
  rewrite <- Rmult_minus_distr_l, Rabs_mult, (Rabs_pos_eq (6 / 10)) by lra.
  apply Rmult_le_compat_l; [lra | apply sine_step].
Qed.

Lemma continuous_phase_witness :
  Rabs (nth 320 (emit_bits 18000 20000 48000 320 [1; 0]%Z 0) 0
        - nth 319 (emit_bits 18000 20000 48000 320 [1; 0]%Z 0) 0)
  <= 6 / 10 * Rabs (phase_inc 18000 20000 48000 1).
Proof.
  assert (Hn : (0 < 320)%nat) by lia.
  assert (Hj : (320 < length (emit_bits 18000 20000 48000 320 [1; 0]%Z 0))%nat)
    by (rewrite length_emit_bits; cbn; lia).
  exact (proj2 (continuous_phase 18000 20000 48000 320 [1; 0]%Z 319 Hn Hj)).
Defined.

End Phase.
